(** * MCAS shard core: a shallow embedding of [shard.cpp]

    The development follows the shard source file: the scatter-gather
    offset resolution ([region_breaks], [Shard::offset_to_sg_list]), the
    address-keyed lock registries, the two-stage PUT/GET handlers, the pool
    request handler, the create-only ADO request and the per-session message
    dispatch of [Shard::main_loop].

    Conventions.
    - [uint64_t], [size_t] and pointers are integers in [Z], reduced modulo
      [2^64] after every arithmetic operation ([u64]).
    - [std::map] registries are [gmap]s keyed by the target address.
    - C++ exceptions are the [Throw] outcome of the monad [M]; a [try]/[catch]
      block is [try_catch].
    - Calls on the collaborators (key-value backend, transport) are recorded,
      in program order, in the [trace] of the shard state, so that ordering
      properties can be stated.
    - Logging ([CPLOG], [PLOG], [PWRN]) and the [_stats] counters have no
      influence on control flow and are left out.
    - Assertions are kept, as in a build without [NDEBUG]: a failed
      [assert] is the outcome [Throw Assertion_failure], which no [catch]
      handles.
    - A piece of code that may fail to return is a function into [option],
      with [None] for the run that has no end. *)

From Stdlib Require Import ZArith Lia.
From stdpp Require Import gmap strings list fin_maps pretty.

Local Open Scope Z_scope.

(** ** Machine integers *)

Definition u64 (z : Z) : Z := z mod 2 ^ 64.

Definition UINT64_MAX : Z := 2 ^ 64 - 1.

(** ** Scatter-gather offset resolution *)

Module SG.

(** [struct iovec { void *iov_base; size_t iov_len; }] *)
Record iovec := Iovec { iov_base : Z; iov_len : Z }.

(** [protocol::Message_IO_response::locate_element] *)
Record locate_element := Locate_element { addr : Z; len : Z }.

(** [struct sg_result] *)
Record sg_result := Sg_result {
  sg_list : list locate_element;
  mr_low : Z;
  mr_high : Z;
  excess_length : Z
}.

(** What a call of [offset_to_sg_list] can do: return, run forever (the
    model's fuel is exhausted), dereference an iterator that is not
    dereferenceable, or fail one of its [assert]s. *)
Inductive outcome :=
| Returned (r : sg_result)
| OutOfFuel
| BadDeref
| AssertFailed.

Definition not_returned (o : outcome) : Prop :=
  match o with Returned _ => False | _ => True end.

(** [region_breaks]: each region keeps its base address; [iov_len] becomes the
    running sum of the lengths up to and including the region. *)
Fixpoint region_breaks_from (offset : Z) (regions_ : list iovec) : list iovec :=
  match regions_ with
  | [] => []
  | i :: rest =>
      let offset' := u64 (offset + iov_len i) in
      Iovec (iov_base i) offset' :: region_breaks_from offset' rest
  end.

Definition region_breaks (regions_ : list iovec) : list iovec :=
  region_breaks_from 0 regions_.

(** The comparator both calls of [std::upper_bound] are given:
    [a < reinterpret_cast<std::uint64_t>(b.iov_base)]. *)
Definition comp (a : Z) (b : iovec) : bool := a <? iov_base b.

(** [std::upper_bound(first, last, value, comp)], the halving search of the
    standard library, on indices into the vector. [fuel] bounds the number
    of iterations; [len] at least halves in each, so [length v] is enough. *)
Fixpoint upper_bound_loop (fuel : nat) (v : list iovec) (value : Z)
    (first len : nat) : nat :=
  match fuel with
  | O => first
  | S fuel' =>
      if (len =? 0)%nat then first
      else
        let half := Nat.div2 len in
        let middle := (first + half)%nat in
        match v !! middle with
        | Some m =>
            if comp value m
            then upper_bound_loop fuel' v value first half
            else upper_bound_loop fuel' v value (S middle) (len - half - 1)%nat
        | None => first
        end
  end.

Definition upper_bound (v : list iovec) (value : Z) : nat :=
  upper_bound_loop (S (length v)) v value 0%nat (length v).

(** [iov_len] of the element before the iterator, or 0 at [begin()]. *)
Definition prev_break (v : list iovec) (it : nat) : Z :=
  match it with
  | O => 0
  | S p => match v !! p with Some e => iov_len e | None => 0 end
  end.

(** The loop "Entries before the last": [while (it_begin != it_end)]. The
    body pushes an element and resets [begin_off]; it does not advance
    [it_begin]. *)
Fixpoint sg_loop (fuel : nat) (v : list iovec) (it_begin it_end : nat)
    (begin_off mr_low_ mr_high_ : Z) (sg : list locate_element)
  : outcome + (Z * Z * Z * list locate_element) :=
  if (it_begin =? it_end)%nat then inr (begin_off, mr_low_, mr_high_, sg)
  else
    match fuel with
    | O => inl OutOfFuel
    | S fuel' =>
        match v !! it_begin with
        | None => inl BadDeref
        | Some e =>
            if iov_base e =? 0 then inl AssertFailed
            else
              let m_low := u64 (iov_base e + begin_off) in
              let m_high := u64 (iov_base e + iov_len e) in
              sg_loop fuel' v it_begin it_end 0
                (Z.min mr_low_ m_low) (Z.max mr_high_ m_high)
                (sg ++ [Locate_element m_low (u64 (m_high - m_low))])
        end
    end.

(** [Shard::offset_to_sg_list(t, region_breaks_)] with [t = [t_first, t_second)]. *)
Definition offset_to_sg_list (fuel : nat) (t_first t_second : Z)
    (region_breaks_ : list iovec) : outcome :=
  let it_begin := upper_bound region_breaks_ t_first in
  let it_end := upper_bound region_breaks_ t_second in
  let begin_off := u64 (t_first - prev_break region_breaks_ it_begin) in
  let end_off := u64 (t_second - prev_break region_breaks_ it_end) in
  match sg_loop fuel region_breaks_ it_begin it_end begin_off UINT64_MAX 0 [] with
  | inl o => o
  | inr (begin_off, mr_low_, mr_high_, sg) =>
      match region_breaks_ !! it_begin with
      | None => BadDeref
      | Some e =>
          if iov_base e =? 0 then AssertFailed
          else
            let m_low := u64 (iov_base e + begin_off) in
            let excess := if iov_len e <? end_off then u64 (end_off - iov_len e) else 0 in
            let m_high := u64 (iov_base e + end_off - excess) in
            Returned (Sg_result
                        (sg ++ [Locate_element m_low (u64 (m_high - m_low))])
                        (Z.min mr_low_ m_low) (Z.max mr_high_ m_high) excess)
      end
  end.

(** The part of [Shard::io_response_locate] that computes the scatter-gather
    list of LOCATE(offset, size) over the pool's regions. *)
Definition locate_sg (fuel : nat) (regions : list iovec) (offset size : Z) : outcome :=
  offset_to_sg_list fuel offset (u64 (offset + size)) (region_breaks regions).

(** A byte address lies within a real region. *)
Definition in_region (regions : list iovec) (a : Z) : Prop :=
  ∃ r, r ∈ regions ∧ iov_base r ≤ a < iov_base r + iov_len r.

Definition MiB : Z := 1048576.

(** Two 8 MiB regions at the addresses a DRAM backend could map them. *)
Definition two_regions : list iovec :=
  [ Iovec 0x10000000000 (8 * MiB); Iovec 0x20000000000 (8 * MiB) ].

End SG.

(** ** Statuses, handles and the collaborators' interfaces *)

(** Modelled from the spec: the enumerated error kinds of the error-handling
    design ([common/errors.h] and [api/kvstore_itf.h] are not part of the
    sources at hand). The [S_] kinds are the non-negative codes, the [E_]
    kinds lie below [S_OK]. *)
Inductive status_t :=
| S_OK | S_OK_CREATED | S_MORE
| E_FAIL | E_INVAL | E_LOCKED | E_KEY_NOT_FOUND | E_TOO_LARGE
| E_ALREADY_EXISTS | E_INSUFFICIENT_SPACE | E_ALREADY_OPEN | E_BUSY
| E_NOT_IMPL | E_NOT_SUPPORTED | E_OUT_OF_BOUNDS | E_MAX_REACHED.

#[global] Instance status_t_eq_dec : EqDecision status_t.
Proof. solve_decision. Defined.

(** [s < S_OK] *)
Definition below_S_OK (s : status_t) : bool :=
  match s with
  | S_OK | S_OK_CREATED | S_MORE => false
  | _ => true
  end.

(** [is_locked(rc)]: only [S_OK] and [S_OK_CREATED] count as locked. *)
Definition is_locked (rc : status_t) : bool :=
  match rc with
  | S_OK => true
  | S_OK_CREATED => true
  | E_FAIL => false
  | E_LOCKED => false
  | E_KEY_NOT_FOUND => false
  | E_TOO_LARGE => false
  | E_NOT_SUPPORTED => false
  | _ => false
  end.

Abbreviation pool_t := Z (only parsing).

(** [IKVStore::key_t]: the opaque handle of one held lock. *)
Inductive key_t := KEY_NONE | Key_handle (h : Z).

#[global] Instance key_t_eq_dec : EqDecision key_t.
Proof. solve_decision. Defined.

Inductive lock_type_t := STORE_LOCK_NONE | STORE_LOCK_READ | STORE_LOCK_WRITE.

#[global] Instance lock_type_t_eq_dec : EqDecision lock_type_t.
Proof. solve_decision. Defined.

Inductive unlock_flags_t := UNLOCK_FLAGS_NONE | UNLOCK_FLAGS_FLUSH.

#[global] Instance unlock_flags_t_eq_dec : EqDecision unlock_flags_t.
Proof. solve_decision. Defined.

(** What [IKVStore::lock] hands back: its status and the three reference
    parameters [out_value], [inout_value_len] and [out_key_handle] as they
    stand after the call. *)
Record lock_result := Lock_result {
  lr_status : status_t;
  lr_value : Z;
  lr_value_len : Z;
  lr_key_handle : key_t
}.

(** The key-value backend, [component::IKVStore], as far as the shard code
    below calls it. [B] is the backend's own state; pool memory belongs to
    it, so [pmem_memset] on a locked value is an operation on [B]. *)
Class IKVStore (B : Type) := {
  kv_lock : pool_t → string → lock_type_t → Z → B → lock_result * B;
  kv_unlock : pool_t → key_t → unlock_flags_t → B → status_t * B;
  kv_get_attribute_VALUE_LEN : pool_t → string → B → status_t * B;
  kv_swap_keys : pool_t → string → string → B → status_t * B;
  kv_erase : pool_t → string → B → status_t * B;
  kv_create_pool : string → Z → Z → Z → B → pool_t * B;
  kv_open_pool : string → B → pool_t * B;
  kv_get_pool_regions : pool_t → B → (status_t * list SG.iovec) * B;
  pmem_memset : Z → Z → Z → B → B
}.

(** A connection handler is named by its position in [_handlers]. *)
Abbreviation handler_t := nat (only parsing).

(** The transport side of a connection. [memory_register] is the constructor
    of [memory_registered<Connection_base>]: it yields the remote key, or
    throws ([None]). [allocate_send] yields a send buffer, or throws
    [resource_unavailable] ([false]). *)
Class Connection_base (T : Type) := {
  memory_register : handler_t → Z → Z → T → option Z * T;
  allocate_send : handler_t → T → bool * T;
  ondemand_register : handler_t → Z → Z → T → T
}.

(** Constants declared in headers that are not among the sources.
    [POOL_ERROR_status] is the status that has the number of the pool
    handle [POOL_ERROR], for a handle other than 0; see
    [POOL_ERROR_as_status]. *)
Record constants := Constants {
  TWO_STAGE_THRESHOLD : Z;
  IO_buffer_size : Z;
  base_message_size : Z;
  FLAGS_DONT_STOMP : Z;
  ADO_FLAG_CREATE_ONLY : Z;
  ADO_FLAG_READ_ONLY : Z;
  ADO_FLAG_DETACHED : Z;
  POOL_ERROR : pool_t;
  POOL_ERROR_status : status_t
}.

(** [IKVStore::POOL_ERROR] read as a [status_t], as in
    [set_status(IKVStore::POOL_ERROR)]: the status with the number of that
    pool handle, and the number 0 is S_OK. *)
Definition POOL_ERROR_as_status (K : constants) : status_t :=
  if POOL_ERROR K =? 0 then S_OK else POOL_ERROR_status K.

(** [flags & mask] used as a condition. *)
Definition flag_set (flags mask : Z) : bool := negb (Z.land flags mask =? 0).

(** ** Messages and responses *)

Inductive IO_op :=
| OP_PUT_LOCATE | OP_PUT_RELEASE | OP_GET_LOCATE | OP_GET_RELEASE
| OP_LOCATE | OP_RELEASE | OP_RELEASE_WITH_FLUSH
| OP_PUT | OP_GET | OP_ERASE | OP_CONFIGURE | OP_INVALID.

Record Message_IO_request := {
  io_op : IO_op;
  io_request_id : Z;
  io_pool_id : pool_t;
  io_flags : Z;
  io_skey : string;
  io_value_len : Z;          (* get_value_len() *)
  io_addr : Z;               (* addr *)
  io_is_direct : bool;       (* is_direct() *)
  io_is_scbe : bool          (* is_scbe() *)
}.

(** What the handlers put into a [Message_IO_response]. *)
Inductive IO_data :=
| No_data
| Data_len_without_data (n : Z)         (* set_data_len_without_data *)
| Copied_data (base n : Z).             (* copy_in_data(base, n) *)

Record Message_IO_response := {
  rsp_request_id : Z;
  rsp_status : status_t;
  rsp_addr : Z;
  rsp_key : Z;
  rsp_data : IO_data
}.

Inductive pool_op := OP_CREATE | OP_OPEN.

(** [msg->op()] used as a condition; see [pool_op_more]. *)
Definition pool_op_nonzero (op : pool_op) : bool :=
  match op with
  | OP_CREATE | OP_OPEN => true
  end.

Record Message_pool_request := {
  pl_op : pool_op;
  pl_flags : Z;
  pl_pool_name : string;
  pl_pool_size : Z;
  pl_expected_object_count : Z
}.

(** [pool_id] is [None] as long as the handler has not assigned the field. *)
Record Message_pool_response := {
  prsp_status : status_t;
  prsp_pool_id : option pool_t
}.

Record Message_ado_request := {
  ado_request_id : Z;
  ado_pool_id : pool_t;
  ado_flags : Z;
  ado_key : string;
  ado_ondemand_val_len : Z
}.

(** An ADO response: status and the appended response buffers. *)
Inductive ado_payload :=
| Ado_message (text : string)
| Ado_value_address (value : Z).

Record Message_ado_response := {
  arsp_request_id : Z;
  arsp_status : status_t;
  arsp_payload : list ado_payload
}.

(** What a request carries besides the fields of [Message_IO_request] above. *)
Record IO_request_body := {
  rq_msg : Message_IO_request;
  rq_offset : Z;             (* get_offset() *)
  rq_size : Z;               (* get_size() *)
  rq_value : list Z          (* value() *)
}.

(** The operations of a pool request next to [OP_CREATE] and [OP_OPEN]:
    [OP_other n] is the operation with the number [n], which is none of the
    four. Modelled from the spec as to the numbers, which the missing
    protocol header declares: the four operations have numbers other than
    0. *)
Inductive pool_op_more := OP_CLOSE | OP_DELETE | OP_other (n : Z).

(** [msg->op()] used as a condition. *)
Definition pool_op_more_nonzero (op : pool_op_more) : bool :=
  match op with
  | OP_other n => negb (n =? 0)
  | _ => true
  end.

(** [protocol::Message_pool_request], as the arms for closing and deleting
    read it. *)
Record Message_pool_request_more := {
  plm_op : pool_op_more;
  plm_pool_id : pool_t;
  plm_pool_name : string
}.

(** [protocol::Message_put_ado_request], as far as
    [process_put_ado_request] reads it. *)
Record Message_put_ado_request := {
  pa_request_id : Z;
  pa_pool_id : pool_t;
  pa_flags : Z;
  pa_key : string;
  pa_value : list Z;
  pa_value_len : Z;          (* value_len() *)
  pa_root_val_len : Z
}.

(** [protocol::Message_INFO_request], as far as [process_info_request] reads it. *)
Record Message_INFO_request := {
  info_type : Z;
  info_pool_id : pool_t;
  info_key : string;
  info_offset : Z
}.

(** ** The trace of calls on the collaborators *)

Inductive event :=
| EvLock (pool : pool_t) (key : string) (ty : lock_type_t) (len : Z)
| EvUnlock (pool : pool_t) (h : key_t) (flags : unlock_flags_t)
| EvGetAttribute (pool : pool_t) (key : string)
| EvSwapKeys (pool : pool_t) (from to : string)
| EvErase (pool : pool_t) (key : string)
| EvMemset (dest c n : Z)
| EvCreatePool (name : string)
| EvOpenPool (name : string)
| EvGetPoolRegions (pool : pool_t)
| EvRegister (h : handler_t) (base n : Z)
| EvOndemandRegister (h : handler_t) (base n : Z)
| EvAllocateSend (h : handler_t)
| EvPostResponse (h : handler_t) (r : Message_IO_response)
| EvPostSendBuffer (h : handler_t) (r : Message_IO_response)
| EvPostResponse2 (h : handler_t) (r : Message_IO_response) (base n : Z)
| EvPostPoolResponse (h : handler_t) (r : Message_pool_response)
| EvPostAdoResponse (h : handler_t) (r : Message_ado_response)
| EvAddIndexKey (pool : pool_t) (key : string)
| EvBootstrapAdo (h : handler_t) (pool : pool_t) (name : string)
| EvSendWorkRequest (h : handler_t) (pool : pool_t) (key : string) (kh : key_t).

(** ** Exceptions and the shard monad *)

Inductive exn :=
| Logic_exception
| General_exception
| Protocol_exception
| Std_exception            (* thrown by the transport on registration *)
| Out_of_range             (* std::out_of_range from std::map::at *)
| Resource_unavailable
| Assertion_failure.       (* a failed assert: the process aborts *)

#[global] Instance exn_eq_dec : EqDecision exn.
Proof. solve_decision. Defined.

Inductive result (A : Type) :=
| Ok (a : A)
| Throw (e : exn).
Arguments Ok {A} a.
Arguments Throw {A} e.

(** State is kept when an exception is thrown: what was done before the
    throw stays done. *)
Definition M (St A : Type) : Type := St → result A * St.

Definition ret {St A} (a : A) : M St A := λ s, (Ok a, s).

Definition bind {St A C} (c : M St A) (k : A → M St C) : M St C :=
  λ s, match c s with
       | (Ok a, s') => k a s'
       | (Throw e, s') => (Throw e, s')
       end.

Definition throw {St A} (e : exn) : M St A := λ s, (Throw e, s).

Definition gets {St A} (f : St → A) : M St A := λ s, (Ok (f s), s).

Definition modify {St} (f : St → St) : M St unit := λ s, (Ok tt, f s).

(** [try { c } catch (E &) { h }] for the exceptions selected by [catches]. *)
Definition try_catch {St A} (c : M St A) (catches : exn → bool) (h : exn → M St A)
  : M St A :=
  λ s, match c s with
       | (Ok a, s') => (Ok a, s')
       | (Throw e, s') => if catches e then h e s' else (Throw e, s')
       end.

(** [assert(b)], in a build without [NDEBUG]. *)
Definition assert_ {St} (b : bool) : M St unit :=
  if b then ret tt else throw Assertion_failure.

Notation "'let!' x ':=' c 'in' k" := (bind c (λ x, k))
  (at level 10, x pattern, c at level 100, k at level 200).
Notation "c ';;!' k" := (bind c (λ _, k))
  (at level 100, k at level 200, right associativity).

(** [catch (const Logic_exception &)] *)
Definition catch_Logic_exception (e : exn) : bool := bool_decide (e = Logic_exception).

(** [catch (const std::out_of_range &)] *)
Definition catch_out_of_range (e : exn) : bool := bool_decide (e = Out_of_range).

(** [catch (const resource_unavailable &)] *)
Definition catch_resource_unavailable (e : exn) : bool :=
  bool_decide (e = Resource_unavailable).

(** [catch (const std::exception &)]: everything but a failed assertion,
    which does not unwind. *)
Definition catch_std_exception (e : exn) : bool :=
  negb (bool_decide (e = Assertion_failure)).

(** ** The shard state *)

(** [lock_info]: one entry of a locked-value registry. [li_mr] stands for the
    [memory_registered] object the entry owns (its remote key). The
    constructor leaves [count] at 0; the [add_] functions increment it. *)
Record lock_info := Lock_info {
  li_pool : pool_t;
  li_key : key_t;
  li_length : Z;
  li_mr : Z;
  li_count : Z
}.

(** [rename_info]: one entry of [_pending_renames]. *)
Record rename_info := Rename_info {
  ri_pool : pool_t;
  ri_from : string;
  ri_to : string
}.

(** Modelled from the spec: the pool manager of a connection ([Pool_manager]
    is declared in a header that is not among the sources). A table of the
    opened pools with their reference counts, and a name index:
    [check_for_open_pool] looks a name up, [register_pool] enters a pool with
    reference count 1, [add_reference] increments the count. *)
Record pool_record := Pool_record {
  pr_name : string;
  pr_refcount : Z;
  pr_expected_count : Z;
  pr_size : Z;
  pr_flags : Z
}.

Record Pool_manager := {
  open_pool_set : gmap Z pool_record;
  name_map : gmap string Z
}.

Definition check_for_open_pool (name : string) (pm : Pool_manager) : option pool_t :=
  name_map pm !! name.

Definition register_pool (name : string) (pool : pool_t) (expected_count size flags : Z)
    (pm : Pool_manager) : Pool_manager :=
  {| open_pool_set := <[pool := Pool_record name 1 expected_count size flags]> (open_pool_set pm);
     name_map := <[name := pool]> (name_map pm) |}.

Definition add_reference (pool : pool_t) (pm : Pool_manager) : Pool_manager :=
  {| open_pool_set :=
       alter (λ r, Pool_record (pr_name r) (pr_refcount r + 1) (pr_expected_count r)
                               (pr_size r) (pr_flags r)) pool (open_pool_set pm);
     name_map := name_map pm |}.

Definition pool_reference_count (pool : pool_t) (pm : Pool_manager) : option Z :=
  pr_refcount <$> open_pool_set pm !! pool.

(** The inbound messages a session can hold. A pool request is held as the
    arm of its operation reads it. *)
Inductive Message :=
| MSG_TYPE_IO_REQUEST (m : IO_request_body)
| MSG_TYPE_ADO_REQUEST (m : Message_ado_request)
| MSG_TYPE_PUT_ADO_REQUEST (m : Message_put_ado_request)
| MSG_TYPE_POOL_REQUEST (m : Message_pool_request + Message_pool_request_more)
| MSG_TYPE_INFO_REQUEST (m : Message_INFO_request)
| MSG_TYPE_OTHER (type_id : Z).

(** Modelled from the spec: the session state of a [Connection_handler]
    (declared in a header that is not among the sources): its pool manager,
    the queue of pending inbound messages ([peek_pending_msg] looks at the
    front, [pop_pending_msg] removes it), the message buffers given back
    through [free_buffer], and the queue of deferred actions, each the
    target address of an ACTION_RELEASE_VALUE_LOCK_EXCLUSIVE. *)
Record Connection_handler := {
  pool_manager : Pool_manager;
  pending_msgs : list Message;
  freed_buffers : list Message;
  pending_actions : list Z
}.

Section Shard.

Context {B T : Type} `{!IKVStore B} `{!Connection_base T}.
Variable K : constants.

(** Modelled from the spec as to the ADO members, which the missing
    [shard.h] declares: [_ado_enabled] is the answer of [ado_enabled()];
    [_i_ado_mgr] says whether the ADO manager is there; [_ado_plugins] are
    the names of the plugins; [_ado_pool_map] holds the pools that have an
    ADO proxy, so that [get_proxy] answers null for every other pool. *)
Record Shard := {
  _i_kvstore : B;
  _transport : T;
  _ado_enabled : bool;
  _i_ado_mgr : bool;
  _ado_plugins : list string;
  _ado_pool_map : gset Z;
  _handlers : list Connection_handler;
  _locked_values_shared : gmap Z lock_info;
  _locked_values_exclusive : gmap Z lock_info;
  _pending_renames : gmap Z rename_info;
  _trace : list event
}.

Definition set_kvstore (b : B) (s : Shard) : Shard :=
  {| _i_kvstore := b; _transport := _transport s; _ado_enabled := _ado_enabled s;
     _i_ado_mgr := _i_ado_mgr s; _ado_plugins := _ado_plugins s;
     _ado_pool_map := _ado_pool_map s;
     _handlers := _handlers s;
     _locked_values_shared := _locked_values_shared s;
     _locked_values_exclusive := _locked_values_exclusive s;
     _pending_renames := _pending_renames s; _trace := _trace s |}.

Definition set_transport (t : T) (s : Shard) : Shard :=
  {| _i_kvstore := _i_kvstore s; _transport := t; _ado_enabled := _ado_enabled s;
     _i_ado_mgr := _i_ado_mgr s; _ado_plugins := _ado_plugins s;
     _ado_pool_map := _ado_pool_map s;
     _handlers := _handlers s;
     _locked_values_shared := _locked_values_shared s;
     _locked_values_exclusive := _locked_values_exclusive s;
     _pending_renames := _pending_renames s; _trace := _trace s |}.

Definition set_handlers (hs : list Connection_handler) (s : Shard) : Shard :=
  {| _i_kvstore := _i_kvstore s; _transport := _transport s; _ado_enabled := _ado_enabled s;
     _i_ado_mgr := _i_ado_mgr s; _ado_plugins := _ado_plugins s;
     _ado_pool_map := _ado_pool_map s;
     _handlers := hs;
     _locked_values_shared := _locked_values_shared s;
     _locked_values_exclusive := _locked_values_exclusive s;
     _pending_renames := _pending_renames s; _trace := _trace s |}.

Definition set_shared (m : gmap Z lock_info) (s : Shard) : Shard :=
  {| _i_kvstore := _i_kvstore s; _transport := _transport s; _ado_enabled := _ado_enabled s;
     _i_ado_mgr := _i_ado_mgr s; _ado_plugins := _ado_plugins s;
     _ado_pool_map := _ado_pool_map s;
     _handlers := _handlers s;
     _locked_values_shared := m;
     _locked_values_exclusive := _locked_values_exclusive s;
     _pending_renames := _pending_renames s; _trace := _trace s |}.

Definition set_exclusive (m : gmap Z lock_info) (s : Shard) : Shard :=
  {| _i_kvstore := _i_kvstore s; _transport := _transport s; _ado_enabled := _ado_enabled s;
     _i_ado_mgr := _i_ado_mgr s; _ado_plugins := _ado_plugins s;
     _ado_pool_map := _ado_pool_map s;
     _handlers := _handlers s;
     _locked_values_shared := _locked_values_shared s;
     _locked_values_exclusive := m;
     _pending_renames := _pending_renames s; _trace := _trace s |}.

Definition set_renames (m : gmap Z rename_info) (s : Shard) : Shard :=
  {| _i_kvstore := _i_kvstore s; _transport := _transport s; _ado_enabled := _ado_enabled s;
     _i_ado_mgr := _i_ado_mgr s; _ado_plugins := _ado_plugins s;
     _ado_pool_map := _ado_pool_map s;
     _handlers := _handlers s;
     _locked_values_shared := _locked_values_shared s;
     _locked_values_exclusive := _locked_values_exclusive s;
     _pending_renames := m; _trace := _trace s |}.

Definition log (e : event) (s : Shard) : Shard :=
  {| _i_kvstore := _i_kvstore s; _transport := _transport s; _ado_enabled := _ado_enabled s;
     _i_ado_mgr := _i_ado_mgr s; _ado_plugins := _ado_plugins s;
     _ado_pool_map := _ado_pool_map s;
     _handlers := _handlers s;
     _locked_values_shared := _locked_values_shared s;
     _locked_values_exclusive := _locked_values_exclusive s;
     _pending_renames := _pending_renames s; _trace := _trace s ++ [e] |}.

(** *** Calls on the backend and on the transport *)

Definition emit (e : event) : M Shard unit := modify (log e).

(** Run an operation of the backend on its state. *)
Definition on_kvstore {A} (e : event) (op : B → A * B) : M Shard A :=
  λ s, let '(a, b) := op (_i_kvstore s) in (Ok a, set_kvstore b (log e s)).

Definition store_lock (pool : pool_t) (key : string) (ty : lock_type_t) (len : Z)
  : M Shard lock_result :=
  on_kvstore (EvLock pool key ty len) (kv_lock pool key ty len).

Definition store_unlock (pool : pool_t) (h : key_t) (flags : unlock_flags_t)
  : M Shard status_t :=
  on_kvstore (EvUnlock pool h flags) (kv_unlock pool h flags).

Definition store_get_attribute_VALUE_LEN (pool : pool_t) (key : string) : M Shard status_t :=
  on_kvstore (EvGetAttribute pool key) (kv_get_attribute_VALUE_LEN pool key).

Definition store_swap_keys (pool : pool_t) (from to : string) : M Shard status_t :=
  on_kvstore (EvSwapKeys pool from to) (kv_swap_keys pool from to).

Definition store_erase (pool : pool_t) (key : string) : M Shard status_t :=
  on_kvstore (EvErase pool key) (kv_erase pool key).

Definition store_create_pool (name : string) (size flags count : Z) : M Shard pool_t :=
  on_kvstore (EvCreatePool name) (kv_create_pool name size flags count).

Definition store_open_pool (name : string) : M Shard pool_t :=
  on_kvstore (EvOpenPool name) (kv_open_pool name).

Definition store_get_pool_regions (pool : pool_t) : M Shard (status_t * list SG.iovec) :=
  on_kvstore (EvGetPoolRegions pool) (kv_get_pool_regions pool).

Definition do_pmem_memset (dest c n : Z) : M Shard unit :=
  on_kvstore (EvMemset dest c n) (λ b, (tt, pmem_memset dest c n b)).

(** [memory_registered<Connection_base> mr(debug_level(), handler, base, n, 0, 0)];
    the value is [mr.key()]. *)
Definition make_memory_registered (h : handler_t) (base n : Z) : M Shard Z :=
  λ s, let '(r, t) := memory_register h base n (_transport s) in
       let s' := set_transport t (log (EvRegister h base n) s) in
       match r with
       | Some key => (Ok key, s')
       | None => (Throw Std_exception, s')
       end.

(** [handler->allocate_send()] *)
Definition handler_allocate_send (h : handler_t) : M Shard unit :=
  λ s, let '(ok, t) := allocate_send h (_transport s) in
       let s' := set_transport t (log (EvAllocateSend h) s) in
       if ok then (Ok tt, s') else (Throw Resource_unavailable, s').

Definition handler_ondemand_register (h : handler_t) (base n : Z) : M Shard unit :=
  λ s, (Ok tt, set_transport (ondemand_register h base n (_transport s))
                 (log (EvOndemandRegister h base n) s)).

(** The index subsystem is outside this development; the call is recorded. *)
Definition add_index_key (pool : pool_t) (key : string) : M Shard unit :=
  emit (EvAddIndexKey pool key).

(** *** The lock registries *)

(** [emplace] does not touch an entry that is already there; the count of
    the entry found or made is then incremented. *)
Definition emplace_locked (target : Z) (fresh : lock_info) (m : gmap Z lock_info)
  : gmap Z lock_info :=
  let entry := match m !! target with Some li => li | None => fresh end in
  <[target := Lock_info (li_pool entry) (li_key entry) (li_length entry) (li_mr entry)
                        (li_count entry + 1)]> m.

Definition add_locked_value_shared (pool_id : pool_t) (key : key_t) (target target_len mr : Z)
  : M Shard unit :=
  modify (λ s, set_shared
                 (emplace_locked target (Lock_info pool_id key target_len mr 0)
                                 (_locked_values_shared s)) s).

Definition add_locked_value_exclusive (pool_id : pool_t) (key : key_t) (target target_len mr : Z)
  : M Shard unit :=
  modify (λ s, set_exclusive
                 (emplace_locked target (Lock_info pool_id key target_len mr 0)
                                 (_locked_values_exclusive s)) s).

Definition decrement (li : lock_info) : lock_info :=
  Lock_info (li_pool li) (li_key li) (li_length li) (li_mr li) (li_count li - 1).

Definition release_locked_value_shared (target : Z) : M Shard unit :=
  let! found := gets (λ s, _locked_values_shared s !! target) in
  match found with
  | None => throw Logic_exception
  | Some i =>
      if li_count i =? 1 then
        store_unlock (li_pool i) (li_key i) UNLOCK_FLAGS_FLUSH ;;!
        modify (λ s, set_shared (delete target (_locked_values_shared s)) s)
      else
        modify (λ s, set_shared (<[target := decrement i]> (_locked_values_shared s)) s)
  end.

Definition release_locked_value_exclusive (target : Z) : M Shard unit :=
  let! found := gets (λ s, _locked_values_exclusive s !! target) in
  match found with
  | None => throw Logic_exception
  | Some i =>
      if li_count i =? 1 then
        store_unlock (li_pool i) (li_key i) UNLOCK_FLAGS_FLUSH ;;!
        modify (λ s, set_exclusive (delete target (_locked_values_exclusive s)) s)
      else
        modify (λ s, set_exclusive (<[target := decrement i]> (_locked_values_exclusive s)) s)
  end.

(** [emplace] keeps an entry that is already there. *)
Definition add_pending_rename (pool_id : pool_t) (target : Z) (from to : string)
  : M Shard unit :=
  let! present := gets (λ s, _pending_renames s !! target) in
  assert_ (bool_decide (present = None)) ;;!
  modify (λ s, set_renames (<[target := Rename_info pool_id from to]> (_pending_renames s)) s).

Definition release_pending_rename (target : Z) : M Shard unit :=
  try_catch
    (let! found := gets (λ s, _pending_renames s !! target) in
     match found with
     | None => throw Out_of_range
     | Some info =>
         (* the lock/unlock comes first: it creates the destination on demand *)
         let! lr := store_lock (ri_pool info) (ri_to info) STORE_LOCK_WRITE 8 in
         if negb (is_locked (lr_status lr)) then throw Logic_exception
         else
           let! rc := store_unlock (ri_pool info) (lr_key_handle lr) UNLOCK_FLAGS_NONE in
           if negb (bool_decide (rc = S_OK)) then throw Logic_exception
           else
             let! rc := store_swap_keys (ri_pool info) (ri_from info) (ri_to info) in
             if negb (bool_decide (rc = S_OK)) then throw Logic_exception
             else
               let! rc := store_erase (ri_pool info) (ri_from info) in
               if negb (bool_decide (rc = S_OK)) then throw Logic_exception
               else
                 modify (λ s, set_renames (delete target (_pending_renames s)) s) ;;!
                 (* now make available in the index *)
                 add_index_key (ri_pool info) (ri_to info)
     end)
    catch_out_of_range
    (λ _, ret tt).

(** *** Responses *)

(** [respond1]: the response object, not yet posted. Fields a handler does
    not assign are shown as 0. *)
Definition respond1 (msg_ : Message_IO_request) (status_ : status_t) : Message_IO_response :=
  {| rsp_request_id := io_request_id msg_; rsp_status := status_;
     rsp_addr := 0; rsp_key := 0; rsp_data := No_data |}.

(** [respond2]: [respond1] and [post_response]. *)
Definition respond2 (handler_ : handler_t) (msg_ : Message_IO_request) (status_ : status_t)
  : M Shard unit :=
  emit (EvPostResponse handler_ (respond1 msg_ status_)).

Definition with_addr_key (r : Message_IO_response) (a k : Z) (d : IO_data)
  : Message_IO_response :=
  {| rsp_request_id := rsp_request_id r; rsp_status := rsp_status r;
     rsp_addr := a; rsp_key := k; rsp_data := d |}.

(** [~locked_key()]: unlock unless responsibility has been released. *)
Definition locked_key_destructor (pool : pool_t) (lock_handle : key_t) (released : bool)
  : M Shard unit :=
  if released then ret tt
  else store_unlock pool lock_handle UNLOCK_FLAGS_NONE ;;! ret tt.

(** *** PUT_ADVANCE *)

Definition io_response_put_advance (handler : handler_t) (msg : Message_IO_request)
  : M Shard unit :=
  assert_ (0 <? io_pool_id msg) ;;!
  if flag_set (io_flags msg) (FLAGS_DONT_STOMP K) then
    respond2 handler msg E_INVAL
  else
    let actual_key := io_skey msg in
    let k := ("___pending_" +:+ actual_key)%string in
    assert_ (0 <? io_value_len msg) ;;!
    let! lr := store_lock (io_pool_id msg) k STORE_LOCK_WRITE (io_value_len msg) in
    let target := lr_value lr in
    let target_len := lr_value_len lr in
    let key_handle := lr_key_handle lr in
    let status :=
      if negb (is_locked (lr_status lr)) || bool_decide (key_handle = KEY_NONE)
      then E_FAIL else S_OK in
    (* locked_key lk(...) lives until the end of this block *)
    let status := if negb (target_len =? io_value_len msg) then E_INVAL else status in
    if negb (bool_decide (status = S_OK)) then
      respond2 handler msg status ;;!
      locked_key_destructor (io_pool_id msg) key_handle false
    else
      let pool_id := io_pool_id msg in
      let! r :=
        try_catch
          (let! key := make_memory_registered handler target target_len in
           (* lk.release() is evaluated for the call that follows *)
           add_locked_value_exclusive pool_id key_handle target target_len key ;;!
           add_pending_rename pool_id target k actual_key ;;!
           ret (key, true, S_OK))
          catch_std_exception
          (* only the registration throws, and it comes before lk.release() *)
          (λ _, ret (0, false, E_FAIL)) in
      let '(key, released, status) := r in
      emit (EvPostSendBuffer handler (with_addr_key (respond1 msg status) target key No_data)) ;;!
      locked_key_destructor pool_id key_handle released.

(** *** GET_LOCATE *)

Definition io_response_get_locate (handler : handler_t) (msg : Message_IO_request)
  : M Shard unit :=
  assert_ (0 <? io_pool_id msg) ;;!
  let k := io_skey msg in
  let! lr := store_lock (io_pool_id msg) k STORE_LOCK_READ 0 in
  let target := lr_value lr in
  let target_len := lr_value_len lr in
  let key_handle := lr_key_handle lr in
  let status := if negb (is_locked (lr_status lr)) then E_FAIL else S_OK in
  let status := if bool_decide (key_handle = KEY_NONE) then E_FAIL else status in
  if negb (bool_decide (status = S_OK)) then
    respond2 handler msg status
  else
    (* locked_key lk(...) lives until the end of this block *)
    assert_ (negb (target =? 0)) ;;!
    let pool_id := io_pool_id msg in
    let! r :=
      try_catch
        (let! key := make_memory_registered handler target target_len in
         add_locked_value_shared pool_id key_handle target target_len key ;;!
         ret (key, true, S_OK))
        catch_std_exception
        (λ _, ret (0, false, E_FAIL)) in
    let '(key, released, status) := r in
    emit (EvPostSendBuffer handler
            (with_addr_key (respond1 msg status) target key (Data_len_without_data target_len))) ;;!
    locked_key_destructor pool_id key_handle released.

(** *** GET_RELEASE *)

Definition io_response_get_release (handler : handler_t) (msg : Message_IO_request)
  : M Shard unit :=
  let target := io_addr msg in
  let! status :=
    try_catch
      (release_locked_value_shared target ;;! ret S_OK)
      catch_Logic_exception
      (λ _, ret E_INVAL) in
  respond2 handler msg status.

(** *** PUT_LOCATE *)

Definition io_response_put_locate (handler : handler_t) (msg : Message_IO_request)
  : M Shard unit :=
  assert_ (0 <? io_pool_id msg) ;;!
  if flag_set (io_flags msg) (FLAGS_DONT_STOMP K) then
    respond2 handler msg E_INVAL
  else
    let actual_key := io_skey msg in
    let k := ("___pending_" +:+ actual_key)%string in
    assert_ (0 <? io_value_len msg) ;;!
    let! lr := store_lock (io_pool_id msg) k STORE_LOCK_WRITE (io_value_len msg) in
    let target := lr_value lr in
    let target_len := lr_value_len lr in
    let key_handle := lr_key_handle lr in
    let status := if negb (is_locked (lr_status lr)) then E_FAIL else S_OK in
    let status := if bool_decide (key_handle = KEY_NONE) then E_INVAL else status in
    if negb (bool_decide (status = S_OK)) then
      respond2 handler msg status
    else
      (* locked_key lk(...) lives until the end of this block *)
      assert_ (negb (target =? 0)) ;;!
      let pool_id := io_pool_id msg in
      let! r :=
        try_catch
          (let! key := make_memory_registered handler target target_len in
           add_locked_value_exclusive pool_id key_handle target target_len key ;;!
           add_pending_rename pool_id target k actual_key ;;!
           ret (key, true, S_OK))
          catch_std_exception
          (λ _, ret (0, false, E_FAIL)) in
      let '(key, released, status) := r in
      emit (EvPostSendBuffer handler (with_addr_key (respond1 msg status) target key No_data)) ;;!
      locked_key_destructor pool_id key_handle released.

(** *** PUT_RELEASE *)

Definition io_response_put_release (handler : handler_t) (msg : Message_IO_request)
  : M Shard unit :=
  let target := io_addr msg in
  let! status :=
    try_catch
      (release_locked_value_exclusive target ;;!
       release_pending_rename target ;;!
       ret S_OK)
      catch_Logic_exception
      (λ _, ret E_INVAL) in
  respond2 handler msg status.

(** *** GET *)

Definition io_response_get (handler : handler_t) (msg : Message_IO_request)
  : M Shard unit :=
  if io_is_scbe msg then
    respond2 handler msg S_OK
  else
    let k := io_skey msg in
    let! lr := store_lock (io_pool_id msg) k STORE_LOCK_READ 0 in
    let rc := lr_status lr in
    let key_handle := lr_key_handle lr in
    let iov_base := lr_value lr in
    let iov_len := lr_value_len lr in
    if negb (is_locked rc) || bool_decide (key_handle = KEY_NONE) then
      respond2 handler msg rc
    else
      (* locked_key lk(...) lives until the end of this block *)
      assert_ (negb (iov_len =? 0)) ;;!
      assert_ (negb (iov_base =? 0)) ;;!
      let is_direct := io_is_direct msg in
      if negb is_direct && (iov_len <? TWO_STAGE_THRESHOLD K) then
        (* value can fit in message buffer: copy *)
        let response := with_addr_key (respond1 msg S_OK) 0 0 (Copied_data iov_base iov_len) in
        store_unlock (io_pool_id msg) key_handle UNLOCK_FLAGS_FLUSH ;;!
        emit (EvPostResponse handler response)
      else
        let client_side_value_len := io_value_len msg in
        (* check if client has allocated sufficient space *)
        if client_side_value_len <? iov_len then
          store_unlock (io_pool_id msg) key_handle UNLOCK_FLAGS_NONE ;;!
          respond2 handler msg E_INSUFFICIENT_SPACE
        else
          let! released :=
            try_catch
              (let! desc := make_memory_registered handler iov_base iov_len in
               let response :=
                 with_addr_key (respond1 msg S_OK) 0 0 (Data_len_without_data iov_len) in
               (* register clean up task for value *)
               add_locked_value_shared (io_pool_id msg) key_handle iov_base iov_len desc ;;!
               (if negb is_direct &&
                   (iov_len <=? u64 (IO_buffer_size K - base_message_size K))
                then
                  (* post both buffers together in same response packet *)
                  emit (EvPostResponse2 handler response iov_base iov_len)
                else
                  (* client should have used GET_LOCATE *)
                  respond2 handler msg E_TOO_LARGE) ;;!
               ret true)
              catch_std_exception
              (λ _, respond2 handler msg E_FAIL ;;! ret false) in
          locked_key_destructor (io_pool_id msg) key_handle released.

(** *** Pool requests *)

Definition handler_pool_manager (h : handler_t) (s : Shard) : option Pool_manager :=
  pool_manager <$> _handlers s !! h.

Definition set_pool_manager (pm : Pool_manager) (c : Connection_handler) : Connection_handler :=
  {| pool_manager := pm; pending_msgs := pending_msgs c;
     freed_buffers := freed_buffers c; pending_actions := pending_actions c |}.

(** Apply a pool-manager operation to the pool manager of [handler]. *)
Definition update_pool_manager (handler : handler_t) (f : Pool_manager → Pool_manager)
  : M Shard unit :=
  modify (λ s, set_handlers
                 (alter (λ c, set_pool_manager (f (pool_manager c)) c) handler (_handlers s)) s).

(** [handler->pool_manager()]; the handler is one of [_handlers]. *)
Definition get_pool_manager (handler : handler_t) : M Shard Pool_manager :=
  let! pm := gets (handler_pool_manager handler) in
  match pm with
  | Some pm => ret pm
  | None => throw Assertion_failure
  end.

(** [conditional_bootstrap_ado_process]: the ADO coordinator is outside this
    development; the call is recorded. It neither reads nor writes the
    response or the pool manager. *)
Definition conditional_bootstrap_ado_process (handler : handler_t) (pool : pool_t)
    (name : string) : M Shard unit :=
  emit (EvBootstrapAdo handler pool name).

Fixpoint register_regions (handler : handler_t) (regions : list SG.iovec) : M Shard unit :=
  match regions with
  | [] => ret tt
  | r :: rest =>
      handler_ondemand_register handler (SG.iov_base r) (SG.iov_len r) ;;!
      register_regions handler rest
  end.

(** The [OP_CREATE] arm of the switch; the value is the response as it stands
    at the end of the arm. *)
Definition pool_request_OP_CREATE (handler : handler_t) (msg : Message_pool_request)
    (response : Message_pool_response) : M Shard Message_pool_response :=
  let pool_name := pl_pool_name msg in
  let! pool_mgr := get_pool_manager handler in
  let! r :=
    match check_for_open_pool pool_name pool_mgr with
    | Some pool =>
        if flag_set (pl_flags msg) (ADO_FLAG_CREATE_ONLY K) then
          ret (pool, {| prsp_status := E_FAIL; prsp_pool_id := Some (POOL_ERROR K) |})
        else
          update_pool_manager handler (add_reference pool) ;;!
          ret (pool, response)
    | None =>
        let! pool := store_create_pool pool_name (pl_pool_size msg) (pl_flags msg)
                                       (pl_expected_object_count msg) in
        let! response' :=
          if pool =? POOL_ERROR K then
            ret {| prsp_status := POOL_ERROR_as_status K; prsp_pool_id := Some 0 |}
          else
            (* register pool handle *)
            update_pool_manager handler
              (register_pool pool_name pool (pl_expected_object_count msg)
                             (pl_pool_size msg) (pl_flags msg)) ;;!
            ret {| prsp_status := S_OK; prsp_pool_id := Some pool |} in
        (* check for ability to pre-register memory with RDMA stack *)
        let! regions := store_get_pool_regions pool in
        (if bool_decide (regions.1 = S_OK)
         then register_regions handler regions.2
         else ret tt) ;;!
        ret (pool, response')
    end in
  let '(pool, response) := r in
  let! ado_enabled := gets _ado_enabled in
  (if negb (pool =? 0) && ado_enabled
   then conditional_bootstrap_ado_process handler pool pool_name
   else ret tt) ;;!
  ret response.

(** The [OP_OPEN] arm of the switch. *)
Definition pool_request_OP_OPEN (handler : handler_t) (msg : Message_pool_request)
    (response : Message_pool_response) : M Shard Message_pool_response :=
  let pool_name := pl_pool_name msg in
  let! pool_mgr := get_pool_manager handler in
  let! r :=
    match check_for_open_pool pool_name pool_mgr with
    | Some pool =>
        (* pool exists, increment reference *)
        update_pool_manager handler (add_reference pool) ;;!
        ret (pool, {| prsp_status := prsp_status response; prsp_pool_id := Some pool |})
    | None =>
        (* pool does not exist yet *)
        let! pool := store_open_pool pool_name in
        if pool =? POOL_ERROR K then
          ret (pool, {| prsp_status := E_INVAL; prsp_pool_id := Some 0 |})
        else
          (* register pool handle *)
          update_pool_manager handler (register_pool pool_name pool 0 0 (pl_flags msg)) ;;!
          ret (pool, {| prsp_status := prsp_status response; prsp_pool_id := Some pool |})
    end in
  let '(pool, response) := r in
  let! ado_enabled := gets _ado_enabled in
  (if negb (pool =? POOL_ERROR K) && ado_enabled
   then conditional_bootstrap_ado_process handler pool pool_name
   else ret tt) ;;!
  ret response.

(** [Shard::process_message_pool_request], for the operations [OP_CREATE] and
    [OP_OPEN]. The response buffer is allocated first, outside the [try].
    None of the calls made inside the [try] throws an exception that its
    [catch] would handle. *)
Definition process_message_pool_request (handler : handler_t) (msg : Message_pool_request)
  : M Shard unit :=
  assert_ (pool_op_nonzero (pl_op msg)) ;;!
  (* allocate response buffer *)
  handler_allocate_send handler ;;!
  let response := {| prsp_status := S_OK; prsp_pool_id := None |} in
  let! response :=
    try_catch
      (match pl_op msg with
       | OP_CREATE => pool_request_OP_CREATE handler msg response
       | OP_OPEN => pool_request_OP_OPEN handler msg response
       end)
      catch_std_exception
      (λ _, ret response) in
  (* finally, send response *)
  emit (EvPostPoolResponse handler response).

(** *** ADO requests *)

(** The lambda [error_func] of [process_ado_request]. *)
Definition ado_error_func (handler : handler_t) (msg : Message_ado_request)
    (status : status_t) (message : string) : M Shard unit :=
  handler_allocate_send handler ;;!
  emit (EvPostAdoResponse handler
          {| arsp_request_id := ado_request_id msg; arsp_status := status;
             arsp_payload := [Ado_message message] |}).

(** [catch (const Exception &)] followed by [catch (const std::exception &)]. *)
Definition catch_Exception_or_std (e : exn) : bool :=
  negb (bool_decide (e = Assertion_failure)).

(** The message of the refusal when ADO is not enabled, as the
    [ostringstream] makes it. *)
Definition ado_not_enabled_message (mgr : bool) (load_count : nat) : string :=
  "ADO!NOT_ENABLED mgr '" +:+ (if mgr then "present" else "missing")
    +:+ "' load count " +:+ pretty load_count.

(** [Shard::process_ado_request]. A failed [assert(ado)] aborts the process;
    no [catch] handles it. Registering the work request and sending it to
    the ADO are recorded as one call. *)
Definition process_ado_request (handler : handler_t) (msg : Message_ado_request)
  : M Shard unit :=
  try_catch
    (let! ado_enabled := gets _ado_enabled in
     if negb ado_enabled then
       let! mgr := gets _i_ado_mgr in
       let! plugins := gets _ado_plugins in
       ado_error_func handler msg E_INVAL (ado_not_enabled_message mgr (length plugins))
     else if flag_set (ado_flags msg) (ADO_FLAG_DETACHED K) then
       (* not valid for plain invoke_ado *)
       ado_error_func handler msg E_INVAL "ADO!INVALID_ARGS"
     else
       let value_len := ado_ondemand_val_len msg in
       (* handle ADO_FLAG_CREATE_ONLY - no invocation to ADO is made *)
       if flag_set (ado_flags msg) (ADO_FLAG_CREATE_ONLY K) then
         let key := ado_key msg in
         let! rc := store_get_attribute_VALUE_LEN (ado_pool_id msg) key in
         if negb (bool_decide (rc = E_KEY_NOT_FOUND)) then
           ado_error_func handler msg E_ALREADY_EXISTS "ADO!ALREADY_EXISTS"
         else
           let locktype :=
             if flag_set (ado_flags msg) (ADO_FLAG_READ_ONLY K)
             then STORE_LOCK_READ else STORE_LOCK_WRITE in
           let! lr := store_lock (ado_pool_id msg) (ado_key msg) locktype value_len in
           if below_S_OK (lr_status lr) then
             ado_error_func handler msg E_LOCKED ("ADO!ALREADY_LOCKED(" +:+ ado_key msg +:+ ")")
           else
             (* zero memory *)
             do_pmem_memset (lr_value lr) 0 (lr_value_len lr) ;;!
             (* unlock key-value pair because we are not invoking ADO *)
             let! rc := store_unlock (ado_pool_id msg) (lr_key_handle lr) UNLOCK_FLAGS_NONE in
             if negb (bool_decide (rc = S_OK)) then throw Logic_exception
             else
               (* copy value address into response *)
               handler_allocate_send handler ;;!
               emit (EvPostAdoResponse handler
                       {| arsp_request_id := ado_request_id msg; arsp_status := S_OK;
                          arsp_payload := [Ado_value_address (lr_value lr)] |})
       else
         (* ADO should already be running *)
         let! proxies := gets _ado_pool_map in
         assert_ (bool_decide (ado_pool_id msg ∈ proxies)) ;;!
         (* if this is associated with a key-value pair, we have to lock *)
         if (0 <? String.length (ado_key msg))%nat then
           let locktype :=
             if flag_set (ado_flags msg) (ADO_FLAG_READ_ONLY K)
             then STORE_LOCK_READ else STORE_LOCK_WRITE in
           let! lr := store_lock (ado_pool_id msg) (ado_key msg) locktype value_len in
           if below_S_OK (lr_status lr) then
             ado_error_func handler msg E_LOCKED ("ADO!ALREADY_LOCKED(" +:+ ado_key msg +:+ ")")
           else if bool_decide (lr_key_handle lr = KEY_NONE) then throw Logic_exception
           else
             (* register outstanding work, send the work request *)
             emit (EvSendWorkRequest handler (ado_pool_id msg) (ado_key msg) (lr_key_handle lr))
         else
           emit (EvSendWorkRequest handler (ado_pool_id msg) (ado_key msg) KEY_NONE))
    catch_Exception_or_std
    (λ _, ret tt).

(** *** The session part of [Shard::main_loop] *)

Definition set_pending_actions (l : list Z) (c : Connection_handler) : Connection_handler :=
  {| pool_manager := pool_manager c; pending_msgs := pending_msgs c;
     freed_buffers := freed_buffers c; pending_actions := l |}.

(** [handler->free_buffer(handler->pop_pending_msg())] *)
Definition pop_and_free (c : Connection_handler) : Connection_handler :=
  match pending_msgs c with
  | [] => c
  | m :: rest =>
      {| pool_manager := pool_manager c; pending_msgs := rest;
         freed_buffers := freed_buffers c ++ [m]; pending_actions := pending_actions c |}
  end.

(** [handler->peek_pending_msg()] *)
Definition peek_pending_msg (handler : handler_t) (s : Shard) : option Message :=
  match _handlers s !! handler with
  | Some c => head (pending_msgs c)
  | None => None
  end.

(** [handler->get_pending_action(action)] *)
Definition get_pending_action (handler : handler_t) : M Shard (option Z) :=
  λ s, match _handlers s !! handler with
       | Some c =>
           match pending_actions c with
           | a :: rest =>
               (Ok (Some a), set_handlers (<[handler := set_pending_actions rest c]> (_handlers s)) s)
           | [] => (Ok None, s)
           end
       | None => (Ok None, s)
       end.

(** "process ALL deferred actions": the only action is
    ACTION_RELEASE_VALUE_LOCK_EXCLUSIVE. [get_pending_iter] counts the
    actions taken so far, for the assertion of the loop. [fuel] bounds the
    iterations; one more than the number of queued actions is enough. *)
Fixpoint process_deferred_actions (fuel : nat) (get_pending_iter : Z) (handler : handler_t)
  : M Shard unit :=
  match fuel with
  | O => ret tt
  | S fuel' =>
      let! action := get_pending_action handler in
      match action with
      | None => ret tt
      | Some parm =>
          assert_ (get_pending_iter <? 1000) ;;!
          release_locked_value_exclusive parm ;;!
          release_pending_rename parm ;;!
          process_deferred_actions fuel' (get_pending_iter + 1) handler
      end
  end.

End Shard.

Arguments Shard B T : clear implicits.

(** ** A backend and a transport to run the handlers on *)

Module MapStore.

(** One key-value pair: where its value lives, the value's bytes, and who
    holds it. *)
Record slot := Slot {
  s_addr : Z;
  s_data : list Z;
  s_readers : nat;
  s_writer : bool
}.

Record store := Store {
  slots : gmap (Z * string) slot;
  holders : gmap Z (Z * string * lock_type_t);
  next_handle : Z;
  next_addr : Z;
  fresh_byte : Z;
  pool_ids : gmap string Z;
  next_pool : Z
}.

Definition set_slots (m : gmap (Z * string) slot) (b : store) : store :=
  Store m (holders b) (next_handle b) (next_addr b) (fresh_byte b) (pool_ids b) (next_pool b).

(** Grant a lock on an existing pair under a fresh key handle. *)
Definition grant (pool : pool_t) (key : string) (ty : lock_type_t) (sl sl' : slot)
    (st : status_t) (b : store) : lock_result * store :=
  (Lock_result st (s_addr sl) (Z.of_nat (length (s_data sl))) (Key_handle (next_handle b)),
   Store (<[(pool, key) := sl']> (slots b))
         (<[next_handle b := (pool, key, ty)]> (holders b))
         (next_handle b + 1) (next_addr b) (fresh_byte b) (pool_ids b) (next_pool b)).

(** Modelled from the spec: the backend's [lock]. A shared lock is granted
    unless a writer holds the pair, an exclusive lock only when nobody holds
    it; each grant has a key handle of its own; [lock(write)] on an absent key
    creates a slot of the requested length, whose content is whatever the
    allocator left there ([fresh_byte]). A refused lock leaves the reference
    parameters alone: no target, the length as passed in, no key handle. *)
Definition lock (pool : pool_t) (key : string) (ty : lock_type_t) (len : Z) (b : store)
  : lock_result * store :=
  match slots b !! (pool, key), ty with
  | Some sl, STORE_LOCK_READ =>
      if s_writer sl then (Lock_result E_LOCKED 0 len KEY_NONE, b)
      else grant pool key ty sl
             (Slot (s_addr sl) (s_data sl) (S (s_readers sl)) false) S_OK b
  | Some sl, STORE_LOCK_WRITE =>
      if s_writer sl || negb (s_readers sl =? 0)%nat
      then (Lock_result E_LOCKED 0 len KEY_NONE, b)
      else grant pool key ty sl (Slot (s_addr sl) (s_data sl) O true) S_OK b
  | None, STORE_LOCK_WRITE =>
      let sl := Slot (next_addr b) (replicate (Z.to_nat len) (fresh_byte b)) O true in
      let '(r, b') := grant pool key ty sl sl S_OK_CREATED b in
      (r, Store (slots b') (holders b') (next_handle b')
                (next_addr b + Z.max len 1) (fresh_byte b) (pool_ids b) (next_pool b))
  | None, STORE_LOCK_READ => (Lock_result E_KEY_NOT_FOUND 0 len KEY_NONE, b)
  | _, STORE_LOCK_NONE => (Lock_result E_INVAL 0 len KEY_NONE, b)
  end.

(** Modelled from the spec: the backend's [unlock]; a key handle is invalid
    after it. An unknown handle is an error. *)
Definition unlock (pool : pool_t) (h : key_t) (flags : unlock_flags_t) (b : store)
  : status_t * store :=
  match h with
  | KEY_NONE => (E_INVAL, b)
  | Key_handle h =>
      match holders b !! h with
      | Some (p, key, ty) =>
          let release sl :=
            match ty with
            | STORE_LOCK_READ => Slot (s_addr sl) (s_data sl) (pred (s_readers sl)) (s_writer sl)
            | _ => Slot (s_addr sl) (s_data sl) (s_readers sl) false
            end in
          (S_OK, Store (alter release (p, key) (slots b)) (delete h (holders b))
                       (next_handle b) (next_addr b) (fresh_byte b) (pool_ids b) (next_pool b))
      | None => (E_INVAL, b)
      end
  end.

Definition get_attribute_VALUE_LEN (pool : pool_t) (key : string) (b : store)
  : status_t * store :=
  match slots b !! (pool, key) with
  | Some _ => (S_OK, b)
  | None => (E_KEY_NOT_FOUND, b)
  end.

Definition is_held (sl : slot) : bool := s_writer sl || negb (s_readers sl =? 0)%nat.

(** Modelled from the spec: [swap_keys] exchanges the values of two keys. *)
Definition swap_keys (pool : pool_t) (from to : string) (b : store) : status_t * store :=
  match slots b !! (pool, from), slots b !! (pool, to) with
  | Some f, Some t =>
      if is_held f || is_held t then (E_LOCKED, b)
      else (S_OK, set_slots (<[(pool, from) := t]> (<[(pool, to) := f]> (slots b))) b)
  | _, _ => (E_KEY_NOT_FOUND, b)
  end.

Definition erase (pool : pool_t) (key : string) (b : store) : status_t * store :=
  match slots b !! (pool, key) with
  | Some sl =>
      if is_held sl then (E_LOCKED, b)
      else (S_OK, set_slots (delete (pool, key) (slots b)) b)
  | None => (E_KEY_NOT_FOUND, b)
  end.

(** Pool handles start at 1; 0 is the error handle. *)
Definition create_pool (name : string) (size flags count : Z) (b : store) : pool_t * store :=
  match pool_ids b !! name with
  | Some p => (p, b)
  | None =>
      (next_pool b,
       Store (slots b) (holders b) (next_handle b) (next_addr b) (fresh_byte b)
             (<[name := next_pool b]> (pool_ids b)) (next_pool b + 1))
  end.

Definition open_pool (name : string) (b : store) : pool_t * store :=
  match pool_ids b !! name with
  | Some p => (p, b)
  | None => (0, b)
  end.

Definition get_pool_regions (pool : pool_t) (b : store) : (status_t * list SG.iovec) * store :=
  ((E_NOT_SUPPORTED, []), b).

(** [pmem_memset(dest, c, n, 0)] on the value that starts at [dest]. *)
Definition memset_slot (dest c n : Z) (sl : slot) : slot :=
  if s_addr sl =? dest
  then Slot (s_addr sl) (replicate (Z.to_nat n) c ++ drop (Z.to_nat n) (s_data sl))
            (s_readers sl) (s_writer sl)
  else sl.

Definition memset (dest c n : Z) (b : store) : store :=
  set_slots (memset_slot dest c n <$> slots b) b.

(** The bytes stored under a key. *)
Definition value_of (pool : pool_t) (key : string) (b : store) : option (list Z) :=
  s_data <$> slots b !! (pool, key).

(** An empty store; fresh memory is filled with [0xAA]. *)
Definition empty : store :=
  Store ∅ ∅ 1 0x7f0000000000 0xAA ∅ 1.

End MapStore.

#[global] Instance MapStore_IKVStore : IKVStore MapStore.store := {
  kv_lock := MapStore.lock;
  kv_unlock := MapStore.unlock;
  kv_get_attribute_VALUE_LEN := MapStore.get_attribute_VALUE_LEN;
  kv_swap_keys := MapStore.swap_keys;
  kv_erase := MapStore.erase;
  kv_create_pool := MapStore.create_pool;
  kv_open_pool := MapStore.open_pool;
  kv_get_pool_regions := MapStore.get_pool_regions;
  pmem_memset := MapStore.memset
}.

Module Fabric.

(** Modelled from the spec: a transport that hands out send buffers while it
    has some and registers memory unless it is told to fail. The remote key
    of a registration is made from a counter. *)
Record transport := Transport {
  send_buffers : nat;
  registration_fails : bool;
  next_key : Z
}.

Definition memory_register (h : handler_t) (base n : Z) (t : transport)
  : option Z * transport :=
  if registration_fails t then (None, t)
  else (Some (next_key t), Transport (send_buffers t) false (next_key t + 1)).

Definition allocate_send (h : handler_t) (t : transport) : bool * transport :=
  (negb (send_buffers t =? 0)%nat, t).

Definition ondemand_register (h : handler_t) (base n : Z) (t : transport) : transport := t.

End Fabric.

#[global] Instance Fabric_Connection_base : Connection_base Fabric.transport := {
  memory_register := Fabric.memory_register;
  allocate_send := Fabric.allocate_send;
  ondemand_register := Fabric.ondemand_register
}.

(** ** Concrete configurations used in the examples *)

(** Values for the constants of the missing headers, for the examples only. *)
Definition example_constants : constants :=
  {| TWO_STAGE_THRESHOLD := 64;
     IO_buffer_size := 256;
     base_message_size := 32;
     FLAGS_DONT_STOMP := 8;
     ADO_FLAG_CREATE_ONLY := 2;
     ADO_FLAG_READ_ONLY := 4;
     ADO_FLAG_DETACHED := 16;
     POOL_ERROR := 0;
     POOL_ERROR_status := S_OK |}.

Definition empty_pool_manager : Pool_manager := {| open_pool_set := ∅; name_map := ∅ |}.

Definition new_handler (msgs : list Message) : Connection_handler :=
  {| pool_manager := empty_pool_manager; pending_msgs := msgs;
     freed_buffers := []; pending_actions := [] |}.

(** A shard with nothing locked and no ADO proxy; with [ado], the ADO
    manager is there and one plugin is loaded. *)
Definition initial_shard {B T} (b : B) (t : T) (ado : bool) (hs : list Connection_handler)
  : Shard B T :=
  {| _i_kvstore := b; _transport := t; _ado_enabled := ado;
     _i_ado_mgr := ado; _ado_plugins := if ado then ["plugin"%string] else [];
     _ado_pool_map := ∅; _handlers := hs;
     _locked_values_shared := ∅; _locked_values_exclusive := ∅;
     _pending_renames := ∅; _trace := [] |}.

(** The shard after ADO proxies have been started for [pools]. *)
Definition with_ado_proxies {B T} (pools : gset Z) (s : Shard B T) : Shard B T :=
  {| _i_kvstore := _i_kvstore s; _transport := _transport s; _ado_enabled := _ado_enabled s;
     _i_ado_mgr := _i_ado_mgr s; _ado_plugins := _ado_plugins s;
     _ado_pool_map := pools; _handlers := _handlers s;
     _locked_values_shared := _locked_values_shared s;
     _locked_values_exclusive := _locked_values_exclusive s;
     _pending_renames := _pending_renames s; _trace := _trace s |}.

Definition example_shard : Shard MapStore.store Fabric.transport :=
  initial_shard MapStore.empty (Fabric.Transport 4 false 100) true [new_handler []].

Definition io_request (op : IO_op) (id : Z) (key : string) (value_len addr : Z)
  : Message_IO_request :=
  {| io_op := op; io_request_id := id; io_pool_id := 1; io_flags := 0; io_skey := key;
     io_value_len := value_len; io_addr := addr; io_is_direct := false; io_is_scbe := false |}.

(** Run [c] and continue from the state it leaves, whatever its result. *)
Definition run {St A} (c : M St A) (s : St) : St := (c s).2.

(** ** Observations on states and traces *)

(** The events [c] adds to the trace when it is run from [s]. *)
Definition new_events {B T A} (c : M (Shard B T) A) (s : Shard B T) : list event :=
  drop (length (_trace s)) (_trace (run c s)).

Definition is_lock_event (e : event) : bool :=
  match e with EvLock _ _ _ _ => true | _ => false end.

Definition is_unlock_event (e : event) : bool :=
  match e with EvUnlock _ _ _ => true | _ => false end.

(** Posting an IO response, by any of the three ways of posting. *)
Definition is_post_event (e : event) : bool :=
  match e with
  | EvPostResponse _ _ | EvPostSendBuffer _ _ | EvPostResponse2 _ _ _ _ => true
  | _ => false
  end.

Definition count_events (p : event → bool) (tr : list event) : nat :=
  length (filter (λ e, p e = true) tr).

(** Position of the first event that satisfies [p]. *)
Fixpoint first_index (p : event → bool) (tr : list event) : option nat :=
  match tr with
  | [] => None
  | e :: rest => if p e then Some O else S <$> first_index p rest
  end.

(** An unlock occurs in [tr], and no response is posted before it. *)
Definition unlock_before_post (tr : list event) : bool :=
  match first_index is_unlock_event tr, first_index is_post_event tr with
  | Some i, Some j => (i <? j)%nat
  | Some _, None => true
  | None, _ => false
  end.

(** The status of the last IO response posted in [tr]. *)
Definition posted_status (tr : list event) : option status_t :=
  match filter (λ e, is_post_event e = true) tr with
  | [] => None
  | l =>
      match last l with
      | Some (EvPostResponse _ r) | Some (EvPostSendBuffer _ r)
      | Some (EvPostResponse2 _ r _ _) => Some (rsp_status r)
      | _ => None
      end
  end.

(** What the main loop owns of a session: the pending messages and the
    buffers already freed. *)
Definition session_queue {B T} (h : handler_t) (s : Shard B T)
  : option (list Message * list Message) :=
  (λ c, (pending_msgs c, freed_buffers c)) <$> _handlers s !! h.

(** *** States the shard can be in *)

(** [_locked_values_exclusive] and [_pending_renames] are written by
    PUT_ADVANCE, PUT_LOCATE, PUT_RELEASE and the deferred release only; every
    other piece of the shard leaves both alone ([step_other]). A handler that
    fails an assertion aborts the process and has no successor state. *)
Inductive step {B T} `{!IKVStore B} `{!Connection_base T} (K : constants)
  : Shard B T → Shard B T → Prop :=
| step_put_advance h msg s s' :
    io_response_put_advance K h msg s = (Ok tt, s') → step K s s'
| step_put_locate h msg s s' :
    io_response_put_locate K h msg s = (Ok tt, s') → step K s s'
| step_put_release h msg s s' :
    io_response_put_release h msg s = (Ok tt, s') → step K s s'
| step_deferred n i h s s' :
    process_deferred_actions n i h s = (Ok tt, s') → step K s s'
| step_other s s' :
    _locked_values_exclusive s' = _locked_values_exclusive s →
    _pending_renames s' = _pending_renames s →
    step K s s'.

Inductive reachable {B T} `{!IKVStore B} `{!Connection_base T} (K : constants)
  : Shard B T → Prop :=
| reachable_initial b t ado hs : reachable K (initial_shard b t ado hs)
| reachable_step s s' : reachable K s → step K s s' → reachable K s'.

(** Every exclusively locked target is held once and has its rename pending. *)
Definition exclusive_inv {B T} (s : Shard B T) : Prop :=
  ∀ target li, _locked_values_exclusive s !! target = Some li →
    li_count li = 1 ∧ is_Some (_pending_renames s !! target).

(** *** Concrete states for the examples *)

Definition store_with (key : string) (data : list Z) : MapStore.store :=
  MapStore.Store {[ (1, key) := MapStore.Slot 0x7f0000000000 data O false ]}
                 ∅ 1 0x7f0000100000 0xAA {[ "P"%string := 1 ]} 2.

(** Pool 1 holds ["k"], 16 bytes long, and nobody has it locked. *)
Definition shard_with_key : Shard MapStore.store Fabric.transport :=
  initial_shard (store_with "k" (replicate 16 7)) (Fabric.Transport 4 false 100) true
                [new_handler []].

(** As [shard_with_key], with a transport that fails to register memory. *)
Definition shard_registration_fails : Shard MapStore.store Fabric.transport :=
  initial_shard (store_with "k" (replicate 16 7)) (Fabric.Transport 4 true 100) true
                [new_handler []].

(** Pool 1 holds a left-over sentinel ["___pending_k"] of 50 bytes. *)
Definition shard_with_pending_slot : Shard MapStore.store Fabric.transport :=
  initial_shard (store_with "___pending_k" (replicate 50 7)) (Fabric.Transport 4 false 100)
                true [new_handler []].

(** Pool 1 holds ["big"], 1000 bytes long. *)
Definition shard_with_big_value : Shard MapStore.store Fabric.transport :=
  initial_shard (store_with "big" (replicate (Z.to_nat 1000) 7)) (Fabric.Transport 4 false 100)
                true [new_handler []].

(** The session has pool ["P"] open, with handle 1 and one reference. *)
Definition shard_with_open_pool : Shard MapStore.store Fabric.transport :=
  initial_shard (store_with "k" (replicate 16 7)) (Fabric.Transport 4 false 100) false
    [ {| pool_manager := register_pool "P" 1 0 0 0 empty_pool_manager;
         pending_msgs := []; freed_buffers := []; pending_actions := [] |} ].

Definition pool_request (op : pool_op) (flags : Z) (name : string) : Message_pool_request :=
  {| pl_op := op; pl_flags := flags; pl_pool_name := name;
     pl_pool_size := 16 * SG.MiB; pl_expected_object_count := 100 |}.

Definition ado_request (id flags : Z) (key : string) (len : Z) : Message_ado_request :=
  {| ado_request_id := id; ado_pool_id := 1; ado_flags := flags; ado_key := key;
     ado_ondemand_val_len := len |}.

(** *** The three locate/advance handlers, side by side *)

Inductive locate_op := Put_locate | Put_advance | Get_locate.

#[global] Instance locate_op_eq_dec : EqDecision locate_op.
Proof. solve_decision. Defined.

Definition locate_handler {B T} `{!IKVStore B} `{!Connection_base T} (K : constants)
    (op : locate_op) : handler_t → Message_IO_request → M (Shard B T) unit :=
  match op with
  | Put_locate => io_response_put_locate K
  | Put_advance => io_response_put_advance K
  | Get_locate => io_response_get_locate
  end.

(** The key, lock type and length each of them passes to the backend's lock. *)
Definition locate_key (op : locate_op) (msg : Message_IO_request) : string :=
  match op with
  | Get_locate => io_skey msg
  | _ => ("___pending_" +:+ io_skey msg)%string
  end.

Definition locate_lock_type (op : locate_op) : lock_type_t :=
  match op with
  | Get_locate => STORE_LOCK_READ
  | _ => STORE_LOCK_WRITE
  end.

Definition locate_lock_len (op : locate_op) (msg : Message_IO_request) : Z :=
  match op with
  | Get_locate => 0
  | _ => io_value_len msg
  end.

(** The data part of their response. *)
Definition locate_data (op : locate_op) (lr : lock_result) : IO_data :=
  match op with
  | Get_locate => Data_len_without_data (lr_value_len lr)
  | _ => No_data
  end.

(** Where [store_with] puts its value. *)
Definition example_target : Z := 0x7f0000000000.

Definition get_locate_k (id : Z) : M (Shard MapStore.store Fabric.transport) unit :=
  io_response_get_locate 0%nat (io_request OP_GET_LOCATE id "k" 0 0).

Definition get_release_k (id : Z) : M (Shard MapStore.store Fabric.transport) unit :=
  io_response_get_release 0%nat (io_request OP_GET_RELEASE id "" 0 example_target).

(** Two readers locate ["k"]; then both release it. *)
Definition two_readers_located : Shard MapStore.store Fabric.transport :=
  run (get_locate_k 2) (run (get_locate_k 1) shard_with_key).

Definition two_readers_released : Shard MapStore.store Fabric.transport :=
  run (get_release_k 4) (run (get_release_k 3) two_readers_located).

(** A writer has located ["k"] (16 bytes) in an empty pool. *)
Definition one_writer_located : Shard MapStore.store Fabric.transport :=
  run (io_response_put_locate example_constants 0%nat (io_request OP_PUT_LOCATE 1 "k" 16 0))
      example_shard.

(** *** Session queues *)

(** The queues of all sessions, in the order of [_handlers]. *)
Definition queues {B T} (s : Shard B T) : list (list Message * list Message) :=
  (λ c, (pending_msgs c, freed_buffers c)) <$> _handlers s.

(** A computation leaves the observation [P] of the state as it was,
    however it ends. *)
Definition preserves {St A X} (P : St → X) (c : M St A) : Prop :=
  ∀ s, P (c s).2 = P s.

(** What [pop_and_free] does to the queues of a session. *)
Definition pop_queue (q : list Message * list Message) : list Message * list Message :=
  match q.1 with
  | [] => q
  | m :: rest => (rest, q.2 ++ [m])
  end.

(** The requests whose handler takes the send buffer for the response
    before it does anything else. *)
Definition send_buffer_first (m : Message) : bool :=
  match m with
  | MSG_TYPE_IO_REQUEST _ => true
  | MSG_TYPE_POOL_REQUEST (inl _) => true
  | MSG_TYPE_POOL_REQUEST (inr m) => pool_op_more_nonzero (plm_op m)
  | _ => false
  end.

(** The events a pool request on an open pool adds: the send buffer, the
    ADO bootstrap if [ado] holds, the response. *)
Definition open_pool_events (ado : bool) (handler : handler_t) (pool : pool_t) (name : string)
    (response : Message_pool_response) : list event :=
  [EvAllocateSend handler] ++
  (if ado then [EvBootstrapAdo handler pool name] else []) ++
  [EvPostPoolResponse handler response].

(** ** Scatter-gather resolution: notions for stating its properties *)

(** The sum of the lengths of some regions. *)
Fixpoint sum_iov_len (regions : list SG.iovec) : Z :=
  match regions with
  | [] => 0
  | r :: rest => SG.iov_len r + sum_iov_len rest
  end.

(** The base addresses do not decrease along the vector. *)
Fixpoint sorted_by_base (v : list SG.iovec) : bool :=
  match v with
  | [] => true
  | e :: rest =>
      match rest with
      | [] => true
      | e' :: _ => (SG.iov_base e <=? SG.iov_base e') && sorted_by_base rest
      end
  end.

(** Every byte of the element lies within region [r]. *)
Definition element_within (r : SG.iovec) (e : SG.locate_element) : Prop :=
  ∀ a, SG.addr e ≤ a < SG.addr e + SG.len e →
       SG.iov_base r ≤ a < SG.iov_base r + SG.iov_len r.

(** ** The shard beyond the lock registries *)

(** Further operations of [component::IKVStore], as the handlers below call
    them: [put], [flush_pool_memory], [count], [get_attribute] with the
    attribute given by number, [close_pool] and [delete_pool], which may
    throw ([None]), and [allocate_pool_memory]. [kv_bytes p n] reads the [n]
    bytes at address [p] of the pool memory, for the checksum that INFO
    computes over a locked value; [pool_memcpy] is a [memcpy] into pool
    memory, an operation on [B] like [pmem_memset]. *)
Class IKVStore_more (B : Type) := {
  kv_put : pool_t → string → list Z → Z → Z → B → status_t * B;
  kv_flush_pool_memory : pool_t → Z → Z → B → status_t * B;
  kv_count : pool_t → B → Z;
  kv_get_attribute : pool_t → Z → string → B → (status_t * list Z) * B;
  kv_close_pool : pool_t → B → status_t * B;
  kv_delete_pool : string → B → option status_t * B;
  kv_allocate_pool_memory : pool_t → Z → Z → B → (status_t * Z) * B;
  kv_bytes : Z → Z → B → list Z;
  pool_memcpy : Z → list Z → B → B
}.

(** [protocol::Message_INFO_response]: status and value; a completed search
    task puts its result and the matched position into the value. *)
Inductive INFO_value :=
| Info_numeric (v : Z)
| Info_result (result : string) (position : Z).

Record Message_INFO_response := {
  irsp_status : status_t;
  irsp_value : option INFO_value
}.

(** The type numbers of INFO requests and the attribute numbers they share
    the field with, declared in headers that are not among the sources. *)
Record info_constants := Info_constants {
  INFO_TYPE_FIND_KEY : Z;
  INFO_TYPE_GET_STATS : Z;
  Attribute_COUNT : Z;
  Attribute_VALUE_LEN : Z;
  Attribute_CRC32 : Z
}.

(** [round_up(n, m)]: the next multiple of [m] at or above [n]. *)
Definition round_up (n m : Z) : Z := (n + m - 1) / m * m.

(** The calls of the handlers below on their collaborators, among the calls
    of the handlers above. *)
Inductive xevent :=
| Ev (e : event)
| EvPut (pool : pool_t) (key : string) (value : list Z) (value_len flags : Z)
| EvFlushPoolMemory (pool : pool_t) (addr len : Z)
| EvRemoveIndexKey (pool : pool_t) (key : string)
| EvCount (pool : pool_t)
| EvGetAttributeOf (pool : pool_t) (attr : Z) (key : string)
| EvClosePool (pool : pool_t)
| EvDeletePool (name : string)
| EvAllocatePoolMemory (pool : pool_t) (size alignment : Z)
| EvMemcpy (dest : Z) (value : list Z)
| EvAdoPoolClosed (pool : pool_t)
| EvAdoSendOpEvent (pool : pool_t)
| EvPostLocate (h : handler_t) (r : Message_IO_response) (sg : list SG.locate_element)
| EvPostInfo (h : handler_t) (r : Message_INFO_response)
| EvPostStats (h : handler_t) (status : status_t)
| EvDoWork (h : handler_t).

(** One entry of [_spaces_shared]: [sp_mr] stands for the [memory_registered]
    object the entry owns (its remote key). *)
Record space_rec := Space_rec {
  sp_mr : Z;
  sp_count : Z
}.

(** A background task, [Key_find_task], whose class is declared in a header
    that is not among the sources: the constructor may throw ([None]);
    [do_work] advances the task and says whether there is more to do. *)
Class Shard_task (Tk : Type) := {
  new_key_find_task : string → Z → handler_t → pool_t → option Tk;
  do_work : Tk → status_t * Tk;
  task_handler : Tk → handler_t;
  get_result : Tk → string;
  matched_position : Tk → Z
}.

Section ShardX.

Context {B T Tk : Type} `{!IKVStore B} `{!IKVStore_more B} `{!Connection_base T}
        `{!Shard_task Tk}.
Variable K : constants.
Variable KI : info_constants.

(** The shard with the members the handlers above do not use. Modelled from
    the spec as to their types, which the missing [shard.h] declares:
    [_spaces_shared] maps a range, the pair of its bounds, to its entry;
    [_index_map] is null ([None]) or holds the pools that have an index;
    [_tasks] is the list of running tasks. *)
Record ShardX := {
  shard : Shard B T;
  _spaces_shared : gmap (Z * Z) space_rec;
  _index_map : option (gset Z);
  _tasks : list Tk;
  _xtrace : list xevent
}.

Definition set_shard (s : Shard B T) (x : ShardX) : ShardX :=
  {| shard := s; _spaces_shared := _spaces_shared x; _index_map := _index_map x;
     _tasks := _tasks x; _xtrace := _xtrace x |}.

Definition set_spaces (m : gmap (Z * Z) space_rec) (x : ShardX) : ShardX :=
  {| shard := shard x; _spaces_shared := m; _index_map := _index_map x;
     _tasks := _tasks x; _xtrace := _xtrace x |}.

Definition set_tasks (l : list Tk) (x : ShardX) : ShardX :=
  {| shard := shard x; _spaces_shared := _spaces_shared x; _index_map := _index_map x;
     _tasks := l; _xtrace := _xtrace x |}.

Definition set_index_map (im : option (gset Z)) (x : ShardX) : ShardX :=
  {| shard := shard x; _spaces_shared := _spaces_shared x; _index_map := im;
     _tasks := _tasks x; _xtrace := _xtrace x |}.

Definition xlog (evs : list xevent) (x : ShardX) : ShardX :=
  {| shard := shard x; _spaces_shared := _spaces_shared x; _index_map := _index_map x;
     _tasks := _tasks x; _xtrace := _xtrace x ++ evs |}.

(** Run a piece of the shard above; the calls it makes are entered into the
    trace in their order. *)
Definition lift {A} (c : M (Shard B T) A) : M ShardX A :=
  λ x, let '(r, s') := c (shard x) in
       (r, xlog (Ev <$> drop (length (_trace (shard x))) (_trace s')) (set_shard s' x)).

Definition xemit (e : xevent) : M ShardX unit := modify (xlog [e]).

(** Run one of the further operations of the backend on its state. *)
Definition on_kvstore_more {A} (e : xevent) (op : B → A * B) : M ShardX A :=
  λ x, let '(a, b) := op (_i_kvstore (shard x)) in
       (Ok a, xlog [e] (set_shard (set_kvstore b (shard x)) x)).

Definition store_put (pool : pool_t) (key : string) (value : list Z) (value_len flags : Z)
  : M ShardX status_t :=
  on_kvstore_more (EvPut pool key value value_len flags) (kv_put pool key value value_len flags).

Definition store_flush_pool_memory (pool : pool_t) (addr len : Z) : M ShardX status_t :=
  on_kvstore_more (EvFlushPoolMemory pool addr len) (kv_flush_pool_memory pool addr len).

Definition store_count (pool : pool_t) : M ShardX Z :=
  on_kvstore_more (EvCount pool) (λ b, (kv_count pool b, b)).

Definition store_get_attribute (pool : pool_t) (attr : Z) (key : string)
  : M ShardX (status_t * list Z) :=
  on_kvstore_more (EvGetAttributeOf pool attr key) (kv_get_attribute pool attr key).

Definition store_close_pool (pool : pool_t) : M ShardX status_t :=
  on_kvstore_more (EvClosePool pool) (kv_close_pool pool).

Definition store_allocate_pool_memory (pool : pool_t) (size alignment : Z)
  : M ShardX (status_t * Z) :=
  on_kvstore_more (EvAllocatePoolMemory pool size alignment)
                  (kv_allocate_pool_memory pool size alignment).

Definition do_memcpy (dest : Z) (value : list Z) : M ShardX unit :=
  on_kvstore_more (EvMemcpy dest value) (λ b, (tt, pool_memcpy dest value b)).

Definition store_delete_pool (name : string) : M ShardX status_t :=
  let! r := on_kvstore_more (EvDeletePool name) (kv_delete_pool name) in
  match r with
  | Some status => ret status
  | None => throw Std_exception
  end.

(** The index subsystem is outside this development; the call is recorded. *)
Definition remove_index_key (pool : pool_t) (key : string) : M ShardX unit :=
  xemit (EvRemoveIndexKey pool key).

(** *** The registry of located spaces *)

(** [emplace] does not touch an entry that is already there, so the
    registration of a second LOCATE of the range is dropped; the count of
    the entry found or made is then incremented. *)
Definition emplace_space (range_ : Z * Z) (mr : Z) (m : gmap (Z * Z) space_rec)
  : gmap (Z * Z) space_rec :=
  let entry := match m !! range_ with Some i => i | None => Space_rec mr 0 end in
  <[range_ := Space_rec (sp_mr entry) (sp_count entry + 1)]> m.

Definition add_space_shared (range_ : Z * Z) (mr : Z) : M ShardX unit :=
  modify (λ x, set_spaces (emplace_space range_ mr (_spaces_shared x)) x).

Definition release_space_shared (range_ : Z * Z) : M ShardX unit :=
  let! found := gets (λ x, _spaces_shared x !! range_) in
  match found with
  | None => throw Logic_exception
  | Some i =>
      let count := sp_count i - 1 in
      if count =? 0 then
        modify (λ x, set_spaces (delete range_ (_spaces_shared x)) x)
      else
        modify (λ x, set_spaces (<[range_ := Space_rec (sp_mr i) count]> (_spaces_shared x)) x)
  end.

(** *** LOCATE, RELEASE and RELEASE_WITH_FLUSH *)

(** [msg->get_offset()] and [msg->get_size()] are passed next to the
    message. A handler that calls [offset_to_sg_list] has a result only if
    that call returns: [None] stands for a call that runs on or
    dereferences an iterator it must not. *)
Definition io_response_locate (fuel : nat) (handler : handler_t) (msg : Message_IO_request)
    (offset size : Z) : ShardX → option (result unit * ShardX) :=
  λ x,
  let t_first := offset in
  let t_second := u64 (offset + size) in
  match lift (store_get_pool_regions (io_pool_id msg)) x with
  | (Throw e, x1) => Some (Throw e, x1)
  | (Ok (status, regions), x1) =>
      if bool_decide (status = S_OK) then
        let rb := SG.region_breaks regions in
        match SG.offset_to_sg_list fuel t_first t_second rb with
        | SG.Returned sgr =>
            Some
              ((let! r :=
                  try_catch
                    ((* Register the entire range *)
                     let! key := lift (make_memory_registered handler (SG.mr_low sgr)
                                         (u64 (SG.mr_high sgr - SG.mr_low sgr))) in
                     (* register deregister task for space *)
                     add_space_shared (t_first, u64 (t_second - SG.excess_length sgr)) key ;;!
                     ret (key, status))
                    catch_std_exception
                    (λ _, ret (0, E_FAIL)) in
                let '(key, status) := r in
                (* respond, with the scatter-gather list as "data" *)
                if bool_decide (status = S_OK) then
                  xemit (EvPostLocate handler (with_addr_key (respond1 msg status) 0 key No_data)
                                      (SG.sg_list sgr))
                else
                  lift (respond2 handler msg status)) x1)
        | SG.AssertFailed => Some (Throw Assertion_failure, x1)
        | SG.OutOfFuel | SG.BadDeref => None
        end
      else Some (lift (respond2 handler msg status) x1)
  end.

Definition io_response_release (handler : handler_t) (msg : Message_IO_request)
    (offset size : Z) : M ShardX unit :=
  let t := (offset, u64 (offset + size)) in
  let! status :=
    try_catch
      (release_space_shared t ;;! ret S_OK)
      catch_Logic_exception
      (λ _, ret E_INVAL) in
  lift (respond2 handler msg status).

(** The loop over [sgr.sg_list]: the status of the first flush that is not
    S_OK is kept. *)
Fixpoint flush_elements (pool : pool_t) (sg : list SG.locate_element) (status : status_t)
  : M ShardX status_t :=
  match sg with
  | [] => ret status
  | e :: rest =>
      let! s := store_flush_pool_memory pool (SG.addr e) (SG.len e) in
      flush_elements pool rest (if bool_decide (status = S_OK) then s else status)
  end.

Definition io_response_release_with_flush (fuel : nat) (handler : handler_t)
    (msg : Message_IO_request) (offset size : Z) : ShardX → option (result unit * ShardX) :=
  λ x,
  let t_first := offset in
  let t_second := u64 (offset + size) in
  match lift (store_get_pool_regions (io_pool_id msg)) x with
  | (Throw e, x1) => Some (Throw e, x1)
  | (Ok (status, regions), x1) =>
      if bool_decide (status = S_OK) then
        let rb := SG.region_breaks regions in
        match SG.offset_to_sg_list fuel t_first t_second rb with
        | SG.Returned sgr =>
            Some
              ((let! status :=
                  try_catch
                    (let! status := flush_elements (io_pool_id msg) (SG.sg_list sgr) status in
                     release_space_shared (t_first, t_second) ;;!
                     ret status)
                    catch_Logic_exception
                    (λ _, ret E_INVAL) in
                lift (respond2 handler msg status)) x1)
        | SG.AssertFailed => Some (Throw Assertion_failure, x1)
        | SG.OutOfFuel | SG.BadDeref => None
        end
      else Some (lift (respond2 handler msg status) x1)
  end.

(** *** PUT and ERASE *)

(** [msg->value()] is passed next to the message. *)
Definition io_response_put (handler : handler_t) (msg : Message_IO_request) (value : list Z)
  : M ShardX unit :=
  let! status :=
    if io_is_scbe msg then
      (* short-circuit backend *)
      ret S_OK
    else
      let k := io_skey msg in
      let! status := store_put (io_pool_id msg) k value (io_value_len msg) (io_flags msg) in
      lift (add_index_key (io_pool_id msg) k) ;;!
      ret status in
  lift (respond2 handler msg status).

Definition io_response_erase (handler : handler_t) (msg : Message_IO_request) : M ShardX unit :=
  let k := io_skey msg in
  let! status := lift (store_erase (io_pool_id msg) k) in
  (if bool_decide (status = S_OK) then remove_index_key (io_pool_id msg) k else ret tt) ;;!
  lift (respond2 handler msg status).

(** *** The switch on the operation of an IO request *)

(** [Shard::process_configure] makes or removes the index of a pool. The
    index components it loads are outside this development: it is given as
    what it does to the two members it works on, [_index_map] and the
    backend, and its status or exception. *)
Variable process_configure :
  Message_IO_request → option (gset Z) → B → result status_t * (option (gset Z) * B).

Definition run_process_configure (msg : Message_IO_request) : M ShardX status_t :=
  λ x, let '(r, (im, b)) := process_configure msg (_index_map x) (_i_kvstore (shard x)) in
       (r, set_index_map im (set_shard (set_kvstore b (shard x)) x)).

Definition io_response_configure (handler : handler_t) (msg : Message_IO_request)
  : M ShardX unit :=
  let! status := run_process_configure msg in
  lift (respond2 handler msg status).

(** [Shard::process_message_IO_request]: the send buffer is taken first;
    the handler of the function-try-block throws on what it catches. *)
Definition process_message_IO_request (fuel : nat) (handler : handler_t) (rq : IO_request_body)
  : ShardX → option (result unit * ShardX) :=
  λ x,
  let msg := rq_msg rq in
  match lift (handler_allocate_send handler) x with
  | (Throw e, x1) => Some (Throw e, x1)
  | (Ok _, x1) =>
      match io_op msg with
      | OP_PUT_LOCATE => Some (lift (io_response_put_locate K handler msg) x1)
      | OP_PUT_RELEASE => Some (lift (io_response_put_release handler msg) x1)
      | OP_GET_LOCATE => Some (lift (io_response_get_locate handler msg) x1)
      | OP_GET_RELEASE => Some (lift (io_response_get_release handler msg) x1)
      | OP_LOCATE => io_response_locate fuel handler msg (rq_offset rq) (rq_size rq) x1
      | OP_RELEASE => Some (io_response_release handler msg (rq_offset rq) (rq_size rq) x1)
      | OP_RELEASE_WITH_FLUSH =>
          io_response_release_with_flush fuel handler msg (rq_offset rq) (rq_size rq) x1
      | OP_PUT => Some (io_response_put handler msg (rq_value rq) x1)
      | OP_GET => Some (lift (io_response_get K handler msg) x1)
      | OP_ERASE => Some (io_response_erase handler msg x1)
      | OP_CONFIGURE => Some (io_response_configure handler msg x1)
      | OP_INVALID => Some (Throw Protocol_exception, x1)
      end
  end.

End ShardX.

Arguments ShardX B T Tk : clear implicits.

(** ** One response for each request *)

(** [c] either returns, having posted exactly one IO response, or fails an
    assertion before it has posted any. *)
Definition replies_once {B T} (c : M (Shard B T) unit) (s : Shard B T) : Prop :=
  ∃ evs, _trace (run c s) = _trace s ++ evs ∧
    match (c s).1 with
    | Ok _ => count_events is_post_event evs = 1%nat
    | Throw e => e = Assertion_failure ∧ count_events is_post_event evs = 0%nat
    end.

(** Posting an IO response, among all calls. *)
Definition is_xpost_event (e : xevent) : bool :=
  match e with
  | Ev e => is_post_event e
  | EvPostLocate _ _ _ => true
  | _ => false
  end.

Definition count_xevents (p : xevent → bool) (tr : list xevent) : nat :=
  length (filter (λ e, p e = true) tr).

(** ** Closing and deleting pools, INFO requests and background tasks *)

(** Modelled from the spec: the rest of the pool manager's operations.
    [release_pool_reference] answers whether the count has reached zero;
    the pool then leaves the table and the name index. *)
Definition is_pool_open (pool : pool_t) (pm : Pool_manager) : bool :=
  bool_decide (is_Some (open_pool_set pm !! pool)).

Definition pool_name (pool : pool_t) (pm : Pool_manager) : string :=
  match open_pool_set pm !! pool with
  | Some r => pr_name r
  | None => ""
  end.

Definition release_pool_reference (pool : pool_t) (pm : Pool_manager) : bool * Pool_manager :=
  match open_pool_set pm !! pool with
  | Some r =>
      if pr_refcount r =? 1 then
        (true, {| open_pool_set := delete pool (open_pool_set pm);
                  name_map := delete (pr_name r) (name_map pm) |})
      else
        (false, {| open_pool_set :=
                     <[pool := Pool_record (pr_name r) (pr_refcount r - 1) (pr_expected_count r)
                                           (pr_size r) (pr_flags r)]> (open_pool_set pm);
                   name_map := name_map pm |})
  | None => (false, pm)
  end.

Definition with_status (status : status_t) (r : Message_pool_response)
  : Message_pool_response :=
  {| prsp_status := status; prsp_pool_id := prsp_pool_id r |}.

(** Posting an ADO response, and sending a work request to the ADO. *)
Definition is_ado_post (e : xevent) : bool :=
  match e with
  | Ev (EvPostAdoResponse _ _) => true
  | _ => false
  end.

Definition is_work_request (e : xevent) : bool :=
  match e with
  | Ev (EvSendWorkRequest _ _ _ _) => true
  | _ => false
  end.

(** Posting an INFO response or the statistics. *)
Definition is_info_post (e : xevent) : bool :=
  match e with
  | EvPostInfo _ _ | EvPostStats _ _ => true
  | _ => false
  end.

Section ShardX_more.

Context {B T Tk : Type} `{!IKVStore B} `{!IKVStore_more B} `{!Connection_base T}
        `{!Shard_task Tk}.
Variable K : constants.
Variable KI : info_constants.

Local Abbreviation ShardX := (ShardX B T Tk).

(** *** Pool requests: OP_CLOSE and OP_DELETE *)

(** The [OP_CLOSE] arm of the switch. The ADO coordinator is outside this
    development; what the arm asks of it is recorded. *)
Definition pool_request_OP_CLOSE (handler : handler_t) (msg : Message_pool_request_more)
    (response : Message_pool_response) : M ShardX Message_pool_response :=
  let! pool_mgr := lift (get_pool_manager handler) in
  if negb (is_pool_open (plm_pool_id msg) pool_mgr) then
    ret (with_status E_INVAL response)
  else
    (* release pool reference, if its zero, we can close pool for real *)
    lift (update_pool_manager handler (λ pm, (release_pool_reference (plm_pool_id msg) pm).2)) ;;!
    if (release_pool_reference (plm_pool_id msg) pool_mgr).1 then
      let! ado_enabled := gets (λ x, _ado_enabled (shard x)) in
      (* close ADO process on pool close *)
      (if ado_enabled then xemit (EvAdoPoolClosed (plm_pool_id msg)) else ret tt) ;;!
      let! rc := store_close_pool (plm_pool_id msg) in
      ret (with_status rc response)
    else
      ret (with_status S_OK response).

(** The [OP_DELETE] arm of the switch. When [delete_pool] throws in the
    deletion by name, the arm ends and the handler's [catch] goes on with
    the response as it stands. *)
Definition pool_request_OP_DELETE (handler : handler_t) (msg : Message_pool_request_more)
    (response : Message_pool_response) : M ShardX Message_pool_response :=
  let! pool_mgr := lift (get_pool_manager handler) in
  (* msg->pool_id may be invalid *)
  if (0 <? plm_pool_id msg) && is_pool_open (plm_pool_id msg) pool_mgr then
    if bool_decide (pool_reference_count (plm_pool_id msg) pool_mgr = Some 1) then
      let pool_name := pool_name (plm_pool_id msg) pool_mgr in
      lift (update_pool_manager handler
              (λ pm, (release_pool_reference (plm_pool_id msg) pm).2)) ;;!
      if negb (release_pool_reference (plm_pool_id msg) pool_mgr).1 then
        throw Logic_exception
      else
        let! ado_enabled := gets (λ x, _ado_enabled (shard x)) in
        (* notify ADO if needed *)
        if ado_enabled then
          xemit (EvAdoSendOpEvent (plm_pool_id msg)) ;;!
          ret response
        else
          (* close and delete pool *)
          store_close_pool (plm_pool_id msg) ;;!
          let! status :=
            try_catch (store_delete_pool pool_name) catch_std_exception (λ _, ret E_FAIL) in
          ret (with_status status response)
    else
      ret (with_status E_BUSY response)
  else
    (* try delete by pool name *)
    let response := {| prsp_status := prsp_status response; prsp_pool_id := Some 0 |} in
    (* check if pool is still open; return error if it is *)
    match check_for_open_pool (plm_pool_name msg) pool_mgr with
    | Some _ => ret (with_status E_ALREADY_OPEN response)
    | None =>
        try_catch
          (let! status := store_delete_pool (plm_pool_name msg) in
           ret (with_status status response))
          catch_std_exception
          (λ _, ret response)
    end.

(** [Shard::process_message_pool_request], for the operations other than
    [OP_CREATE] and [OP_OPEN]: the exception of the [default] arm is caught
    by the handler's own [catch], which only logs it. *)
Definition process_message_pool_request_more (handler : handler_t)
    (msg : Message_pool_request_more) : M ShardX unit :=
  assert_ (pool_op_more_nonzero (plm_op msg)) ;;!
  (* allocate response buffer *)
  lift (handler_allocate_send handler) ;;!
  let response := {| prsp_status := S_OK; prsp_pool_id := None |} in
  let! response :=
    try_catch
      (match plm_op msg with
       | OP_CLOSE => pool_request_OP_CLOSE handler msg response
       | OP_DELETE => pool_request_OP_DELETE handler msg response
       | OP_other _ => throw Protocol_exception
       end)
      catch_std_exception
      (λ _, ret response) in
  (* finally, send response *)
  lift (emit (EvPostPoolResponse handler response)).

(** *** INFO requests *)

(** [crc32(0, p, len)] of zlib, over the [len] bytes at [p]. *)
Variable crc32 : list Z → Z.

Definition post_info (handler : handler_t) (status : status_t) (value : option INFO_value)
  : M ShardX unit :=
  xemit (EvPostInfo handler {| irsp_status := status; irsp_value := value |}).

(** [hr == S_OK && v.size() == 1] *)
Definition one_value (hr : status_t) (v : list Z) : option Z :=
  match v with
  | [v0] => if bool_decide (hr = S_OK) then Some v0 else None
  | _ => None
  end.

Definition process_info_request (handler : handler_t) (msg : Message_INFO_request)
  : M ShardX unit :=
  if info_type msg =? INFO_TYPE_FIND_KEY KI then
    let refuse : M ShardX unit :=
      lift (handler_allocate_send handler) ;;! post_info handler E_INVAL None in
    let! index_map := gets _index_map in
    match index_map with
    | None =>
        (* index does not exist *)
        refuse
    | Some indexed =>
        try_catch
          ((* _index_map->at(msg->pool_id()) *)
           (if bool_decide (info_pool_id msg ∈ indexed) then ret tt else throw Out_of_range) ;;!
           match new_key_find_task (info_key msg) (info_offset msg) handler
                                   (info_pool_id msg) with
           | Some task =>
               (* add_task_list *)
               modify (λ x, set_tasks (_tasks x ++ [task]) x)
           | None => throw Std_exception
           end)
          catch_std_exception
          (λ _, refuse)
        (* response is not issued straight away *)
    end
  else
    lift (handler_allocate_send handler) ;;!
    (* stats request handler *)
    (if info_type msg =? INFO_TYPE_GET_STATS KI
     then xemit (EvPostStats handler S_OK) else ret tt) ;;!
    (* info requests *)
    let! r :=
      if info_type msg =? Attribute_COUNT KI then
        let! n := store_count (info_pool_id msg) in
        ret (S_OK, Some (Info_numeric n))
      else if info_type msg =? Attribute_VALUE_LEN KI then
        let! a := store_get_attribute (info_pool_id msg) (Attribute_VALUE_LEN KI)
                                      (info_key msg) in
        ret (a.1, Some (Info_numeric (default 0 (one_value a.1 a.2))))
      else
        let! a := store_get_attribute (info_pool_id msg) (info_type msg) (info_key msg) in
        match one_value a.1 a.2 with
        | Some v0 => ret (a.1, Some (Info_numeric v0))
        | None =>
            (* crc32 we can do here also *)
            if info_type msg =? Attribute_CRC32 KI then
              let! lr := lift (store_lock (info_pool_id msg) (info_key msg) STORE_LOCK_READ 0) in
              if negb (is_locked (lr_status lr)) || bool_decide (lr_key_handle lr = KEY_NONE)
              then ret (E_FAIL, Some (Info_numeric 0))
              else
                (* locked_key lk(...) lives until the end of this block;
                   uInt(p_len) keeps the low 32 bits of the length *)
                let! bytes := gets (λ x, kv_bytes (lr_value lr) (lr_value_len lr mod 2 ^ 32)
                                                  (_i_kvstore (shard x))) in
                let crc := crc32 bytes mod 2 ^ 32 in
                lift (locked_key_destructor (info_pool_id msg) (lr_key_handle lr) false) ;;!
                ret (S_OK, Some (Info_numeric crc))
            else
              ret (E_FAIL, Some (Info_numeric 0))
        end in
    post_info handler r.1 r.2.

(** *** Background tasks *)

(** One pass of the loop of [process_tasks], from the task at position
    [length before]: the answer is whether a task has completed, which
    ends the pass ([goto retry]). [do_work] changes the task where it is,
    also when the pass ends in an exception afterwards. *)
Fixpoint process_tasks_pass (before rest : list Tk) : M ShardX bool :=
  match rest with
  | [] => ret false
  | t :: rest' =>
      let '(s, t') := do_work t in
      xemit (EvDoWork (task_handler t)) ;;!
      modify (set_tasks (before ++ t' :: rest')) ;;!
      if negb (bool_decide (s = S_MORE)) then
        let handler := task_handler t' in
        lift (handler_allocate_send handler) ;;!
        let! response :=
          if bool_decide (s = S_OK) then
            ret {| irsp_status := S_OK;
                   irsp_value := Some (Info_result (get_result t') (matched_position t')) |}
          else if bool_decide (s = E_FAIL) then
            ret {| irsp_status := E_FAIL; irsp_value := None |}
          else throw Logic_exception in
        xemit (EvPostInfo handler response) ;;!
        modify (set_tasks (before ++ rest')) ;;!
        ret true
      else
        process_tasks_pass (before ++ [t']) rest'
  end.

(** The passes of one call; [fuel] bounds their number. Each pass but the
    last removes a task, so one more than the number of tasks is enough. *)
Fixpoint process_tasks_loop (fuel : nat) : M ShardX unit :=
  match fuel with
  | O => ret tt
  | S fuel' =>
      let! tasks := gets _tasks in
      let! again := process_tasks_pass [] tasks in
      if again then process_tasks_loop fuel' else ret tt
  end.

Definition process_tasks : M ShardX unit :=
  let! n := gets (λ x, length (_tasks x)) in
  process_tasks_loop (S n).

(** *** PUT_ADO requests *)

(** [IMCAS::ADO_FLAG_NO_OVERWRITE], declared in a header that is not among
    the sources. *)
Variable ADO_FLAG_NO_OVERWRITE : Z.

(** The lambda [error_func] of [process_put_ado_request]: the response is
    made with E_FAIL and then set to E_INVAL. *)
Definition put_ado_error_func (handler : handler_t) (msg : Message_put_ado_request)
    (message : string) : M ShardX unit :=
  lift (handler_allocate_send handler) ;;!
  lift (emit (EvPostAdoResponse handler
                {| arsp_request_id := pa_request_id msg; arsp_status := E_INVAL;
                   arsp_payload := [Ado_message message] |})).

(** [Shard::process_put_ado_request]. The local variables [value],
    [value_len] and [key_handle] are passed on as they stand; [None] says
    that the handler has returned. Registering the work request and sending
    it to the ADO are recorded as one call, as in [process_ado_request]. *)
Definition process_put_ado_request (handler : handler_t) (msg : Message_put_ado_request)
  : M ShardX unit :=
  let locktype := STORE_LOCK_WRITE in
  let! mgr := gets (λ x, _i_ado_mgr (shard x)) in
  if negb mgr then
    put_ado_error_func handler msg "ADO!NOT_ENABLED(put)"
  else
    (* ADO should already be running *)
    let! proxies := gets (λ x, _ado_pool_map (shard x)) in
    if negb (bool_decide (pa_pool_id msg ∈ proxies)) then throw General_exception
    else if pa_value_len msg =? 0 then
      put_ado_error_func handler msg "ADO!ZERO_VALUE_LEN"
    else
      let no_overwrite := flag_set (pa_flags msg) ADO_FLAG_NO_OVERWRITE in
      let detached := flag_set (pa_flags msg) (ADO_FLAG_DETACHED K) in
      (* option ADO_FLAG_NO_OVERWRITE means that we don't copy
         value in if the key-value already exists *)
      let! value_already_exists :=
        if no_overwrite || detached then
          let! rc := lift (store_get_attribute_VALUE_LEN (pa_pool_id msg) (pa_key msg)) in
          ret (negb (bool_decide (rc = E_KEY_NOT_FOUND)))
        else ret false in
      (* if ADO_FLAG_DETACHED and we need to create root value *)
      let! root :=
        if detached && (0 <? pa_root_val_len msg) then
          let! lr := lift (store_lock (pa_pool_id msg) (pa_key msg) locktype
                                      (pa_root_val_len msg)) in
          if below_S_OK (lr_status lr) then
            put_ado_error_func handler msg "ADO!ALREADY_LOCKED" ;;! ret None
          else if bool_decide (lr_key_handle lr = KEY_NONE) then throw Logic_exception
          else ret (Some (lr_value lr, lr_value_len lr, lr_key_handle lr))
        else ret (Some (0, 0, KEY_NONE)) in
      match root with
      | None => ret tt
      | Some (value, value_len, key_handle) =>
          let! written :=
            if detached then
              let size_to_allocate := round_up (pa_value_len msg) 8 in
              (* detached value request, means the value is put but is not
                 assigned to key root ptr *)
              let! a := store_allocate_pool_memory (pa_pool_id msg) size_to_allocate 8 in
              if negb (bool_decide (a.1 = S_OK)) then
                put_ado_error_func handler msg "ADO!OUT_OF_MEMORY" ;;! ret false
              else
                do_memcpy a.2 (pa_value msg) ;;! ret true
            else if value_already_exists && no_overwrite then
              (* do nothing, drop through *)
              ret true
            else
              (* write value passed with invocation message *)
              let! rc := store_put (pa_pool_id msg) (pa_key msg) (pa_value msg)
                                   (pa_value_len msg) 0 in
              if negb (bool_decide (rc = S_OK)) then throw Logic_exception else ret true in
          if negb written then ret tt
          else
            (* now take the lock if not already locked *)
            let! locked :=
              if value =? 0 then
                let! lr := lift (store_lock (pa_pool_id msg) (pa_key msg) locktype value_len) in
                if negb (bool_decide (lr_status lr = S_OK)) then
                  put_ado_error_func handler msg "ADO!ALREADY_LOCKED(key)" ;;! ret None
                else if bool_decide (lr_key_handle lr = KEY_NONE) then throw Logic_exception
                else ret (Some (lr_key_handle lr))
              else ret (Some key_handle) in
            match locked with
            | None => ret tt
            | Some key_handle =>
                (* register outstanding work, send the work request *)
                lift (emit (EvSendWorkRequest handler (pa_pool_id msg) (pa_key msg) key_handle))
            end
      end.

(** *** The session part of [Shard::main_loop] *)

Variable process_configure :
  Message_IO_request → option (gset Z) → B → result status_t * (option (gset Z) * B).

(** The switch on [p_msg->type_id()]. As with the handlers of LOCATE and
    RELEASE_WITH_FLUSH, [None] stands for a handler that does not return. *)
Definition dispatch (fuel : nat) (handler : handler_t) (p_msg : Message)
  : ShardX → option (result unit * ShardX) :=
  λ x,
  match p_msg with
  | MSG_TYPE_IO_REQUEST m =>
      process_message_IO_request K process_configure fuel handler m x
  | MSG_TYPE_ADO_REQUEST m => Some (lift (process_ado_request K handler m) x)
  | MSG_TYPE_PUT_ADO_REQUEST m => Some (process_put_ado_request handler m x)
  | MSG_TYPE_POOL_REQUEST (inl m) =>
      Some (lift (process_message_pool_request K handler m) x)
  | MSG_TYPE_POOL_REQUEST (inr m) => Some (process_message_pool_request_more handler m x)
  | MSG_TYPE_INFO_REQUEST m => Some (process_info_request handler m x)
  | MSG_TYPE_OTHER _ => Some (Throw General_exception, x)
  end.

(** [handler->free_buffer(handler->pop_pending_msg())] *)
Definition pop_pending_msg (handler : handler_t) (x : ShardX) : ShardX :=
  set_shard (set_handlers (alter pop_and_free handler (_handlers (shard x))) (shard x)) x.

(** "collect ONE available message": peek, dispatch, then pop and free. A
    [resource_unavailable] ends the block before the pop; any other exception
    is thrown on. *)
Definition process_pending_msg (fuel : nat) (handler : handler_t)
  : ShardX → option (result unit * ShardX) :=
  λ x,
  match peek_pending_msg handler (shard x) with
  | Some p_msg =>
      match dispatch fuel handler p_msg x with
      | Some (Ok _, x1) => Some (Ok tt, pop_pending_msg handler x1)
      | Some (Throw e, x1) =>
          Some (if catch_resource_unavailable e then Ok tt else Throw e, x1)
      | None => None
      end
  | None => Some (Ok tt, x)
  end.

(** The loop over the deferred actions of [handler], with enough fuel for
    the actions that are queued. *)
Definition deferred_actions_of (handler : handler_t) : M ShardX unit :=
  λ x,
  let n := match _handlers (shard x) !! handler with
           | Some c => length (pending_actions c)
           | None => O
           end in
  lift (process_deferred_actions (S n) 0 handler) x.

(** One pass of the loop over [_handlers], as far as deferred actions and
    inbound messages go: for each handler in turn, drain its deferred actions
    and look at one pending message. [handler->tick()] and the closing of
    a session, which come first in the body of the loop, belong to the
    connection layer and are left out. *)
Definition service_handler (fuel : nat) (handler : handler_t)
  : ShardX → option (result unit * ShardX) :=
  λ x,
  match deferred_actions_of handler x with
  | (Ok _, x1) => process_pending_msg fuel handler x1
  | (Throw e, x1) => Some (Throw e, x1)
  end.

Fixpoint service_handlers (fuel : nat) (handlers : list handler_t)
  : ShardX → option (result unit * ShardX) :=
  λ x,
  match handlers with
  | [] => Some (Ok tt, x)
  | h :: rest =>
      match service_handler fuel h x with
      | Some (Ok _, x1) => service_handlers fuel rest x1
      | Some (Throw e, x1) => Some (Throw e, x1)
      | None => None
      end
  end.

(** [assert(_handlers.size() < 1000)], then the iteration of the handlers. *)
Definition tick_sessions (fuel : nat) : ShardX → option (result unit * ShardX) :=
  λ x,
  let n := length (_handlers (shard x)) in
  if (n <? 1000)%nat then service_handlers fuel (seq 0 n) x
  else Some (Throw Assertion_failure, x).

(** The state in which a tick that began in [x] looks at the pending
    messages of session [h]: the sessions before [h] have been served and
    the deferred actions of [h] processed. [None]: the tick does not get
    there. *)
Definition tick_reaches (fuel : nat) (h : handler_t) (x : ShardX) : option ShardX :=
  match service_handlers fuel (seq 0 h) x with
  | Some (Ok _, x1) =>
      match deferred_actions_of h x1 with
      | (Ok _, x2) => Some x2
      | (Throw _, _) => None
      end
  | _ => None
  end.

End ShardX_more.

(** ** A backend with mapped regions and a search task, for the examples *)

Module RegionStore.

(** [MapStore] together with the regions its one pool is mapped at. *)
Record store := Store {
  kv : MapStore.store;
  regions : list SG.iovec
}.

Definition on_kv {A} (op : MapStore.store → A * MapStore.store) (b : store) : A * store :=
  let '(a, m) := op (kv b) in (a, Store m (regions b)).

(** Modelled from the spec: [put] stores the value under the key, in place
    of what was there, unless the pair is held. *)
Definition put (pool : pool_t) (key : string) (value : list Z) (value_len flags : Z)
    (b : store) : status_t * store :=
  let m := kv b in
  match MapStore.slots m !! (pool, key) with
  | Some sl =>
      if MapStore.is_held sl then (E_LOCKED, b)
      else (S_OK, Store (MapStore.set_slots
                           (<[(pool, key) := MapStore.Slot (MapStore.s_addr sl) value O false]>
                              (MapStore.slots m)) m) (regions b))
  | None =>
      (S_OK,
       Store (MapStore.Store
                (<[(pool, key) := MapStore.Slot (MapStore.next_addr m) value O false]>
                   (MapStore.slots m))
                (MapStore.holders m) (MapStore.next_handle m)
                (MapStore.next_addr m + Z.max value_len 1) (MapStore.fresh_byte m)
                (MapStore.pool_ids m) (MapStore.next_pool m))
             (regions b))
  end.

(** The number of pairs of the pool. *)
Definition count (pool : pool_t) (b : store) : Z :=
  Z.of_nat (length (filter (λ e, e.1.1 = pool) (map_to_list (MapStore.slots (kv b))))).

(** The first [n] bytes of the value that lives at [p]. *)
Definition bytes (p n : Z) (b : store) : list Z :=
  match filter (λ e, MapStore.s_addr e.2 = p) (map_to_list (MapStore.slots (kv b))) with
  | e :: _ => take (Z.to_nat n) (MapStore.s_data e.2)
  | [] => []
  end.

Definition delete_pool (name : string) (b : store) : option status_t * store :=
  match MapStore.pool_ids (kv b) !! name with
  | Some _ => (Some S_OK, b)
  | None => (Some E_INVAL, b)
  end.

End RegionStore.

#[global] Instance RegionStore_IKVStore : IKVStore RegionStore.store | 10 := {
  kv_lock pool key ty len := RegionStore.on_kv (MapStore.lock pool key ty len);
  kv_unlock pool h flags := RegionStore.on_kv (MapStore.unlock pool h flags);
  kv_get_attribute_VALUE_LEN pool key :=
    RegionStore.on_kv (MapStore.get_attribute_VALUE_LEN pool key);
  kv_swap_keys pool from to := RegionStore.on_kv (MapStore.swap_keys pool from to);
  kv_erase pool key := RegionStore.on_kv (MapStore.erase pool key);
  kv_create_pool name size flags count :=
    RegionStore.on_kv (MapStore.create_pool name size flags count);
  kv_open_pool name := RegionStore.on_kv (MapStore.open_pool name);
  kv_get_pool_regions pool b := ((S_OK, RegionStore.regions b), b);
  pmem_memset dest c n b :=
    RegionStore.Store (MapStore.memset dest c n (RegionStore.kv b)) (RegionStore.regions b)
}.

#[global] Instance RegionStore_IKVStore_more : IKVStore_more RegionStore.store := {
  kv_put := RegionStore.put;
  kv_flush_pool_memory pool addr len b := (S_OK, b);
  kv_count := RegionStore.count;
  kv_get_attribute pool attr key b := ((E_NOT_SUPPORTED, []), b);
  kv_close_pool pool b := (S_OK, b);
  kv_delete_pool := RegionStore.delete_pool;
  kv_allocate_pool_memory pool size alignment b := ((E_INSUFFICIENT_SPACE, 0), b);
  kv_bytes := RegionStore.bytes;
  pool_memcpy dest value b := b
}.

(** Modelled from the spec: a search task that answers S_MORE until it has
    used up its steps and S_OK then. *)
Record find_task := Find_task {
  ft_handler : handler_t;
  ft_steps : nat;
  ft_expression : string;
  ft_position : Z
}.

#[global] Instance find_task_Shard_task : Shard_task find_task := {
  new_key_find_task expr offset handler pool := Some (Find_task handler 1 expr offset);
  do_work t :=
    match ft_steps t with
    | O => (S_OK, t)
    | S n => (S_MORE, Find_task (ft_handler t) n (ft_expression t) (ft_position t))
    end;
  task_handler := ft_handler;
  get_result := ft_expression;
  matched_position := ft_position
}.

Definition example_info_constants : info_constants :=
  {| INFO_TYPE_FIND_KEY := 0xF0; INFO_TYPE_GET_STATS := 0xF1;
     Attribute_COUNT := 1; Attribute_VALUE_LEN := 2; Attribute_CRC32 := 4 |}.

Abbreviation example_ShardX := (ShardX RegionStore.store Fabric.transport find_task)
  (only parsing).

(** A shard over the two example regions, with the key "k" stored, one
    session, and nothing located; with [ado], pool 1 has an ADO proxy. *)
Definition example_shardx (buffers : nat) (registration_fails ado : bool)
    (pm : Pool_manager) (tasks : list find_task) : example_ShardX :=
  {| shard := with_ado_proxies (if ado then {[ 1 ]} else ∅)
                (initial_shard
                   (RegionStore.Store (store_with "k" [1; 2; 3; 4]) SG.two_regions)
                   (Fabric.Transport buffers registration_fails 100) ado
                   [{| pool_manager := pm; pending_msgs := [];
                       freed_buffers := []; pending_actions := [] |}]);
     _spaces_shared := ∅;
     _index_map := None;
     _tasks := tasks;
     _xtrace := [] |}.

(** A session's table with the pool "p" open under handle 1, held [n] times. *)
Definition pool_manager_with (n : Z) : Pool_manager :=
  {| open_pool_set := {[ 1 := Pool_record "p" n 0 0 0 ]}; name_map := {[ "p" := 1 ]} |}.

Definition pool_request_more (op : pool_op_more) (pool : pool_t) (name : string)
  : Message_pool_request_more :=
  {| plm_op := op; plm_pool_id := pool; plm_pool_name := name |}.

Definition info_request (type : Z) (key : string) : Message_INFO_request :=
  {| info_type := type; info_pool_id := 1; info_key := key; info_offset := 0 |}.

(** A stand-in for [process_configure] and for zlib's [crc32] in the
    examples. *)
Definition configure_not_implemented (msg : Message_IO_request) (im : option (gset Z))
    (b : RegionStore.store) : result status_t * (option (gset Z) * RegionStore.store) :=
  (Ok E_NOT_IMPL, (im, b)).

Definition sum_bytes (l : list Z) : Z := foldr Z.add 0 l.

(** The session part of the main loop over the example backend. *)
Definition example_dispatch (h : handler_t) (m : Message)
  : example_ShardX → option (result unit * example_ShardX) :=
  dispatch example_constants example_info_constants sum_bytes 32 configure_not_implemented
           0 h m.

Definition example_service_handlers (l : list handler_t)
  : example_ShardX → option (result unit * example_ShardX) :=
  service_handlers example_constants example_info_constants sum_bytes 32
                   configure_not_implemented 0 l.

Definition example_tick : example_ShardX → option (result unit * example_ShardX) :=
  tick_sessions example_constants example_info_constants sum_bytes 32
                configure_not_implemented 0.

Definition example_tick_reaches (h : handler_t) : example_ShardX → option example_ShardX :=
  tick_reaches example_constants example_info_constants sum_bytes 32
               configure_not_implemented 0 h.

(** A shard whose only session has the messages [msgs] pending, over a
    transport with [buffers] send buffers. *)
Definition shard_with_pending (buffers : nat) (ado : bool) (msgs : list Message)
  : example_ShardX :=
  {| shard := initial_shard
                (RegionStore.Store (store_with "k" [1; 2; 3; 4]) SG.two_regions)
                (Fabric.Transport buffers false 100) ado [new_handler msgs];
     _spaces_shared := ∅;
     _index_map := None;
     _tasks := [];
     _xtrace := [] |}.

Definition pool_open_P : Message := MSG_TYPE_POOL_REQUEST (inl (pool_request OP_OPEN 0 "P")).

(** A POOL OPEN request is pending while the transport is out of send
    buffers. *)
Definition shard_no_send_buffers : example_ShardX := shard_with_pending 0 false [pool_open_P].

(** The transport has got [n] send buffers. *)
Definition with_send_buffers (n : nat) (x : example_ShardX) : example_ShardX :=
  set_shard (set_transport (Fabric.Transport n false 100) (shard x)) x.

(** The state a tick leaves, or the state it began in if it does not
    return. *)
Definition after_tick (x : example_ShardX) : example_ShardX :=
  match example_tick x with
  | Some (_, x') => x'
  | None => x
  end.

(** * Properties *)

(** ** Machine integers *)

Lemma u64_range z : 0 ≤ u64 z < 2 ^ 64.
Proof. unfold u64. apply Z.mod_pos_bound. lia. Qed.

Lemma u64_small z : 0 ≤ z < 2 ^ 64 → u64 z = z.
Proof. intros. unfold u64. apply Z.mod_small. lia. Qed.

Lemma u64_congr a b k : a = b + k * 2 ^ 64 → u64 a = u64 b.
Proof. intros ->. unfold u64. apply Z_mod_plus_full. Qed.

Lemma u64_unfold z : u64 z = z - 2 ^ 64 * (z / 2 ^ 64).
Proof. unfold u64. apply Z.mod_eq. lia. Qed.

(** ** Scatter-gather offset resolution *)

Section SG_properties.

Import SG.

(** The loop leaves through its exit test only: if the two iterators differ
    when it is entered, no amount of fuel makes it finish. *)
Lemma sg_loop_stuck fuel v it_begin it_end begin_off lo hi sg :
  it_begin ≠ it_end →
  ∃ o, sg_loop fuel v it_begin it_end begin_off lo hi sg = inl o ∧ not_returned o.
Proof.
  intros Hne. revert begin_off lo hi sg.
  induction fuel as [|fuel IH]; intros begin_off lo hi sg; simpl.
  - destruct (Nat.eqb_spec it_begin it_end); [done | by eexists].
  - destruct (Nat.eqb_spec it_begin it_end); [done |].
    destruct (v !! it_begin) as [e|]; [| by eexists].
    destruct (iov_base e =? 0); [by eexists | apply IH].
Qed.

(** With equal iterators the loop body is never run. *)
Lemma sg_loop_skip fuel v it begin_off lo hi sg :
  sg_loop fuel v it it begin_off lo hi sg = inr (begin_off, lo, hi, sg).
Proof. destruct fuel; simpl; by rewrite Nat.eqb_refl. Qed.

(** The length of the one element: the requested size less the excess,
    in 64-bit arithmetic. *)
Lemma single_element_length base p t_first t_second x :
  u64 (u64 (base + u64 (t_second - p) - x) - u64 (base + u64 (t_first - p)))
  = u64 (u64 (t_second - t_first) - x).
Proof.
  rewrite !(u64_unfold (t_second - p)), !(u64_unfold (t_first - p)),
          (u64_unfold (t_second - t_first)).
  rewrite (u64_unfold (base + _ - x)), (u64_unfold (base + _)).
  set (q1 := (t_second - p) / 2 ^ 64). set (q2 := (t_first - p) / 2 ^ 64).
  set (q3 := (t_second - t_first) / 2 ^ 64).
  set (q4 := _ / 2 ^ 64). set (q5 := _ / 2 ^ 64).
  apply (u64_congr _ _ (q3 - q1 + q2 - q4 + q5)). lia.
Qed.

(** Whatever the regions and the range, a list that is returned has exactly
    one element, and the call returns only when both searches end at the
    same region: more than one region is never covered. *)
Lemma offset_to_sg_list_single fuel t_first t_second rb r :
  offset_to_sg_list fuel t_first t_second rb = Returned r →
  upper_bound rb t_first = upper_bound rb t_second ∧
  ∃ e, sg_list r = [e] ∧ len e = u64 (u64 (t_second - t_first) - excess_length r).
Proof.
  unfold offset_to_sg_list.
  destruct (decide (upper_bound rb t_first = upper_bound rb t_second)) as [Heq|Hne].
  - rewrite <- Heq, sg_loop_skip.
    destruct (rb !! upper_bound rb t_first) as [e|]; [| done].
    destruct (iov_base e =? 0); [done |].
    intros [= <-]. split; [done |]. eexists. split; [done |].
    simpl. apply single_element_length.
  - destruct (sg_loop_stuck fuel rb _ _ (u64 (t_first - prev_break rb (upper_bound rb t_first)))
                UINT64_MAX 0 [] Hne) as [o [-> Ho]].
    intros ->. done.
Qed.

(** Both searches compare the offset with the regions' base addresses, so
    offsets below the first base address always resolve to the first
    region, wherever they lie. *)
Lemma upper_bound_below_bases fuel v value first len :
  (∀ e, e ∈ v → value < iov_base e) →
  (first + len ≤ length v)%nat →
  upper_bound_loop fuel v value first len = first.
Proof.
  intros Hlt. revert first len.
  induction fuel as [|fuel IH]; intros first len Hlen; simpl; [done |].
  destruct (Nat.eqb_spec len 0); [done |].
  destruct (v !! (first + Nat.div2 len)%nat) as [m|] eqn:Hm; [| done].
  unfold comp.
  assert (value < iov_base m) as Hv.
  { apply Hlt. by eapply list_elem_of_lookup_2. }
  destruct (Z.ltb_spec value (iov_base m)); [| lia].
  apply IH.
  assert (Nat.div2 len ≤ len)%nat by (apply Nat.div2_decr; lia). lia.
Qed.

(** Entering the loop with different iterators at a dereferenceable region
    never ends: each round leaves both iterators as they were. *)
Lemma sg_loop_diverges fuel v it_begin it_end e begin_off lo hi sg :
  it_begin ≠ it_end →
  v !! it_begin = Some e →
  iov_base e ≠ 0 →
  sg_loop fuel v it_begin it_end begin_off lo hi sg = inl OutOfFuel.
Proof.
  intros Hne He Hbase. revert begin_off lo hi sg.
  induction fuel as [|fuel IH]; intros begin_off lo hi sg; simpl.
  - by destruct (Nat.eqb_spec it_begin it_end).
  - destruct (Nat.eqb_spec it_begin it_end); [done |].
    rewrite He. destruct (Z.eqb_spec (iov_base e) 0); [done | apply IH].
Qed.

(** Two regions mapped at low addresses: LOCATE(0, 0x2000) makes the two
    searches end at different regions, and the call does not return. *)
Example locate_sg_diverges fuel :
  locate_sg fuel [Iovec 0x1000 0x1000; Iovec 0x3000 0x1000] 0 0x2000 = OutOfFuel.
Proof.
  unfold locate_sg, offset_to_sg_list.
  change (upper_bound _ 0) with 0%nat.
  change (upper_bound _ (u64 (0 + 0x2000))) with 1%nat.
  by erewrite sg_loop_diverges.
Qed.

(** A range that lies wholly inside the second region is resolved against
    the first: the element starts beyond the end of the first region, in
    no region at all, and its length has wrapped around. *)
Example locate_sg_inside_second_region fuel :
  locate_sg fuel two_regions (8 * MiB + 4096) 4096
  = Returned (Sg_result [Locate_element (0x10000000000 + 8 * MiB + 4096) (2 ^ 64 - 4096)]
                (0x10000000000 + 8 * MiB + 4096) (0x10000000000 + 8 * MiB) 8192)
  ∧ ¬ in_region two_regions (0x10000000000 + 8 * MiB + 4096).
Proof.
  split.
  - by destruct fuel.
  - intros (r & Hr & Hin). unfold two_regions in Hr.
    rewrite !elem_of_cons in Hr. destruct Hr as [-> | [-> | Hr]].
    + simpl in Hin. unfold MiB in Hin. lia.
    + simpl in Hin. unfold MiB in Hin. lia.
    + by apply elem_of_nil in Hr.
Qed.

(** C1. LOCATE(offset = 0, size = 16 MiB) over a pool of two 8 MiB regions:
    the offset-to-scatter-gather translation returns a single element, the
    first region alone, and reports the second region's 8 MiB as excess
    length; it does not emit one element per spanned region. *)
Theorem C1_locate_across_two_regions fuel :
  SG.locate_sg fuel SG.two_regions 0 (16 * SG.MiB)
  = SG.Returned (SG.Sg_result [SG.Locate_element 0x10000000000 (8 * SG.MiB)]
                   0x10000000000 (0x10000000000 + 8 * SG.MiB) (8 * SG.MiB)).
Proof. by destruct fuel. Qed.

End SG_properties.

(** ** The IO handlers *)

Section Handler_properties.

Context {B T : Type} `{!IKVStore B} `{!Connection_base T}.
Variable K : constants.
Implicit Types s : Shard B T.

(** Unfold the monad and the calls on the collaborators. *)
Ltac run_monad :=
  unfold locked_key_destructor, respond2,
         add_locked_value_shared, add_locked_value_exclusive,
         make_memory_registered, store_lock, store_unlock, on_kvstore,
         emit, assert_, try_catch, bind, ret, throw, gets, modify; simpl.

(** Name what the collaborators answer. *)
Ltac env_cases :=
  repeat (simpl;
          match goal with
          | |- context [kv_unlock ?p ?h ?f ?b] =>
              let rc := fresh "rc" in
              let b' := fresh "b" in
              destruct (kv_unlock p h f b) as [rc b'] eqn:?
          end); simpl.




(** *** PUT_ADVANCE and PUT_LOCATE on a slot of another length; the
    shared registry under GET_LOCATE and GET_RELEASE *)

(** PUT_ADVANCE checks the length of the slot it has locked against the
    length the client announced, and fails the request on a mismatch. *)
Lemma put_advance_length_mismatch s handler msg lr b' :
  0 < io_pool_id msg →
  flag_set (io_flags msg) (FLAGS_DONT_STOMP K) = false →
  0 < io_value_len msg →
  kv_lock (io_pool_id msg) ("___pending_" +:+ io_skey msg) STORE_LOCK_WRITE
          (io_value_len msg) (_i_kvstore s) = (lr, b') →
  lr_value_len lr ≠ io_value_len msg →
  ∃ s', io_response_put_advance K handler msg s = (Ok tt, s') ∧
        _trace s' = _trace s ++
          [ EvLock (io_pool_id msg) ("___pending_" +:+ io_skey msg) STORE_LOCK_WRITE
                   (io_value_len msg);
            EvPostResponse handler (respond1 msg E_INVAL);
            EvUnlock (io_pool_id msg) (lr_key_handle lr) UNLOCK_FLAGS_NONE ] ∧
        _locked_values_exclusive s' = _locked_values_exclusive s ∧
        _pending_renames s' = _pending_renames s.
Proof.
  intros Hpool Hflag Hlen Hlock Hdiff.
  unfold io_response_put_advance. rewrite Hflag. run_monad.
  destruct (Z.ltb_spec 0 (io_pool_id msg)); [| lia]. simpl.
  destruct (Z.ltb_spec 0 (io_value_len msg)); [| lia]. simpl.
  rewrite Hlock. simpl.
  destruct (Z.eqb_spec (lr_value_len lr) (io_value_len msg)); [done |]. simpl.
  env_cases.
  eexists. split; [reflexivity |]. simpl. by rewrite <- !app_assoc.
Qed.

(** PUT_LOCATE has no such check: whatever length the locked slot has, the
    request succeeds and both records are entered, with the slot's length. *)
Lemma put_locate_any_length s handler msg lr b' key t' :
  0 < io_pool_id msg →
  flag_set (io_flags msg) (FLAGS_DONT_STOMP K) = false →
  0 < io_value_len msg →
  kv_lock (io_pool_id msg) ("___pending_" +:+ io_skey msg) STORE_LOCK_WRITE
          (io_value_len msg) (_i_kvstore s) = (lr, b') →
  is_locked (lr_status lr) = true →
  lr_key_handle lr ≠ KEY_NONE →
  lr_value lr ≠ 0 →
  memory_register handler (lr_value lr) (lr_value_len lr) (_transport s) = (Some key, t') →
  _locked_values_exclusive s !! lr_value lr = None →
  _pending_renames s !! lr_value lr = None →
  ∃ s', io_response_put_locate K handler msg s = (Ok tt, s') ∧
        _trace s' = _trace s ++
          [ EvLock (io_pool_id msg) ("___pending_" +:+ io_skey msg) STORE_LOCK_WRITE
                   (io_value_len msg);
            EvRegister handler (lr_value lr) (lr_value_len lr);
            EvPostSendBuffer handler
              (with_addr_key (respond1 msg S_OK) (lr_value lr) key No_data) ] ∧
        _locked_values_exclusive s' !! lr_value lr
          = Some (Lock_info (io_pool_id msg) (lr_key_handle lr) (lr_value_len lr) key 1) ∧
        _pending_renames s' !! lr_value lr
          = Some (Rename_info (io_pool_id msg) ("___pending_" +:+ io_skey msg) (io_skey msg)).
Proof.
  intros Hpool Hflag Hlen Hlock Hlocked Hkey Hbase Hreg Hexcl Hren.
  unfold io_response_put_locate, add_pending_rename. rewrite Hflag. run_monad.
  destruct (Z.ltb_spec 0 (io_pool_id msg)); [| lia]. simpl.
  destruct (Z.ltb_spec 0 (io_value_len msg)); [| lia]. simpl.
  rewrite Hlock. simpl. rewrite Hlocked. simpl.
  rewrite (bool_decide_eq_false_2 (lr_key_handle lr = KEY_NONE)) by done. simpl.
  destruct (Z.eqb_spec (lr_value lr) 0); [done |]. simpl.
  rewrite Hreg. simpl. rewrite Hren. simpl.
  eexists. split; [reflexivity |]. simpl.
  split; [by rewrite <- !app_assoc |].
  unfold emplace_locked. rewrite Hexcl, !lookup_insert_eq. done.
Qed.

(** GET_LOCATE of a value whose address is in the shared-lock registry
    already: the registry entry only has its reference count incremented,
    and keeps the key handle it had; but the backend has been asked for
    another lock, whose key handle is not recorded anywhere. *)
Lemma get_locate_known_address s handler msg lr b' key t' li :
  0 < io_pool_id msg →
  kv_lock (io_pool_id msg) (io_skey msg) STORE_LOCK_READ 0 (_i_kvstore s) = (lr, b') →
  is_locked (lr_status lr) = true →
  lr_key_handle lr ≠ KEY_NONE →
  lr_value lr ≠ 0 →
  memory_register handler (lr_value lr) (lr_value_len lr) (_transport s) = (Some key, t') →
  _locked_values_shared s !! lr_value lr = Some li →
  ∃ s', io_response_get_locate handler msg s = (Ok tt, s') ∧
        _trace s' = _trace s ++
          [ EvLock (io_pool_id msg) (io_skey msg) STORE_LOCK_READ 0;
            EvRegister handler (lr_value lr) (lr_value_len lr);
            EvPostSendBuffer handler
              (with_addr_key (respond1 msg S_OK) (lr_value lr) key
                 (Data_len_without_data (lr_value_len lr))) ] ∧
        _locked_values_shared s'
          = <[lr_value lr := Lock_info (li_pool li) (li_key li) (li_length li) (li_mr li)
                                       (li_count li + 1)]> (_locked_values_shared s).
Proof.
  intros Hpool Hlock Hlocked Hkey Hbase Hreg Hli.
  unfold io_response_get_locate. run_monad.
  destruct (Z.ltb_spec 0 (io_pool_id msg)); [| lia]. simpl.
  rewrite Hlock. simpl. rewrite Hlocked. simpl.
  rewrite (bool_decide_eq_false_2 (lr_key_handle lr = KEY_NONE)) by done. simpl.
  destruct (Z.eqb_spec (lr_value lr) 0); [done |]. simpl.
  rewrite Hreg. simpl.
  eexists. split; [reflexivity |]. simpl.
  split; [by rewrite <- !app_assoc |].
  unfold emplace_locked. by rewrite Hli.
Qed.

(** GET_RELEASE asks the backend to unlock only when the reference count
    is 1, with the one key handle the entry holds; the entry then goes. *)
Lemma get_release_last s handler msg li :
  _locked_values_shared s !! io_addr msg = Some li →
  li_count li = 1 →
  ∃ s', io_response_get_release handler msg s = (Ok tt, s') ∧
        _trace s' = _trace s ++
          [ EvUnlock (li_pool li) (li_key li) UNLOCK_FLAGS_FLUSH;
            EvPostResponse handler (respond1 msg S_OK) ] ∧
        _locked_values_shared s' = delete (io_addr msg) (_locked_values_shared s).
Proof.
  intros Hli Hone. unfold io_response_get_release, release_locked_value_shared.
  run_monad. rewrite Hli, Hone. simpl. env_cases.
  eexists. split; [reflexivity |]. simpl. by rewrite <- !app_assoc.
Qed.

Lemma get_release_more s handler msg li :
  _locked_values_shared s !! io_addr msg = Some li →
  li_count li ≠ 1 →
  ∃ s', io_response_get_release handler msg s = (Ok tt, s') ∧
        _trace s' = _trace s ++ [EvPostResponse handler (respond1 msg S_OK)] ∧
        _locked_values_shared s'
          = <[io_addr msg := decrement li]> (_locked_values_shared s).
Proof.
  intros Hli Hmore. unfold io_response_get_release, release_locked_value_shared.
  run_monad. rewrite Hli. destruct (Z.eqb_spec (li_count li) 1); [done |]. simpl.
  eexists. split; [reflexivity |]. by simpl.
Qed.

(** *** Pool requests that name a pool the session has open *)

Ltac run_pool :=
  unfold process_message_pool_request, pool_request_OP_CREATE, pool_request_OP_OPEN,
         get_pool_manager, update_pool_manager, conditional_bootstrap_ado_process,
         handler_allocate_send, handler_pool_manager,
         emit, assert_, try_catch, bind, ret, throw, gets, modify; simpl.

(** POOL CREATE with the create-only flag: the request fails with E_FAIL
    and POOL_ERROR as pool id; the pool manager is not touched. *)
Lemma pool_create_only_over_open_pool s handler msg c pool t' :
  _handlers s !! handler = Some c →
  check_for_open_pool (pl_pool_name msg) (pool_manager c) = Some pool →
  pl_op msg = OP_CREATE →
  flag_set (pl_flags msg) (ADO_FLAG_CREATE_ONLY K) = true →
  allocate_send handler (_transport s) = (true, t') →
  ∃ s', process_message_pool_request K handler msg s = (Ok tt, s') ∧
        _trace s' = _trace s ++
          open_pool_events (negb (pool =? 0) && _ado_enabled s) handler pool
            (pl_pool_name msg)
            {| prsp_status := E_FAIL; prsp_pool_id := Some (POOL_ERROR K) |} ∧
        _handlers s' = _handlers s.
Proof.
  intros Hc Hopen Hop Hflag Halloc. run_pool.
  rewrite Hop. simpl. rewrite Halloc. simpl. rewrite Hc. simpl. rewrite Hopen, Hflag. simpl.
  unfold open_pool_events.
  destruct (negb (pool =? 0) && _ado_enabled s); simpl;
    (eexists; split; [reflexivity |]; simpl; by rewrite <- !app_assoc).
Qed.

(** POOL CREATE without the flag: one more reference to the pool, status
    S_OK, and a response whose pool id has not been assigned. *)
Lemma pool_create_over_open_pool s handler msg c pool t' :
  _handlers s !! handler = Some c →
  check_for_open_pool (pl_pool_name msg) (pool_manager c) = Some pool →
  pl_op msg = OP_CREATE →
  flag_set (pl_flags msg) (ADO_FLAG_CREATE_ONLY K) = false →
  allocate_send handler (_transport s) = (true, t') →
  ∃ s', process_message_pool_request K handler msg s = (Ok tt, s') ∧
        _trace s' = _trace s ++
          open_pool_events (negb (pool =? 0) && _ado_enabled s) handler pool
            (pl_pool_name msg)
            {| prsp_status := S_OK; prsp_pool_id := None |} ∧
        handler_pool_manager handler s' = Some (add_reference pool (pool_manager c)).
Proof.
  intros Hc Hopen Hop Hflag Halloc. run_pool.
  rewrite Hop. simpl. rewrite Halloc. simpl. rewrite Hc. simpl. rewrite Hopen, Hflag. simpl.
  unfold open_pool_events.
  destruct (negb (pool =? 0) && _ado_enabled s); simpl;
    (eexists; split; [reflexivity |]; simpl; split; [by rewrite <- !app_assoc |];
     by rewrite list_lookup_alter_eq, Hc).
Qed.

(** POOL OPEN: one more reference, the backend pool is not opened again
    (there is no call of the backend at all), and the response carries the
    pool's handle. *)
Lemma pool_open_of_open_pool s handler msg c pool t' :
  _handlers s !! handler = Some c →
  check_for_open_pool (pl_pool_name msg) (pool_manager c) = Some pool →
  pl_op msg = OP_OPEN →
  allocate_send handler (_transport s) = (true, t') →
  ∃ s', process_message_pool_request K handler msg s = (Ok tt, s') ∧
        _trace s' = _trace s ++
          open_pool_events (negb (pool =? POOL_ERROR K) && _ado_enabled s) handler pool
            (pl_pool_name msg)
            {| prsp_status := S_OK; prsp_pool_id := Some pool |} ∧
        handler_pool_manager handler s' = Some (add_reference pool (pool_manager c)) ∧
        _i_kvstore s' = _i_kvstore s.
Proof.
  intros Hc Hopen Hop Halloc. run_pool.
  rewrite Hop. simpl. rewrite Halloc. simpl. rewrite Hc. simpl. rewrite Hopen. simpl.
  unfold open_pool_events.
  destruct (negb (pool =? POOL_ERROR K) && _ado_enabled s); simpl;
    (eexists; split; [reflexivity |]; simpl; split; [by rewrite <- !app_assoc |];
     by rewrite list_lookup_alter_eq, Hc).
Qed.

(** [add_reference] increments the reference count of the pool. *)
Lemma add_reference_count pool pm n :
  pool_reference_count pool pm = Some n →
  pool_reference_count pool (add_reference pool pm) = Some (n + 1).
Proof.
  unfold pool_reference_count, add_reference. simpl.
  rewrite lookup_alter_eq. destruct (open_pool_set pm !! pool) as [r|]; [| done].
  simpl. by intros [= ->].
Qed.

End Handler_properties.

(** ** The exclusive-lock registry and the pending renames *)

Section Registry_properties.

Context {B T : Type} `{!IKVStore B} `{!Connection_base T}.
Variable K : constants.
Implicit Types s : Shard B T.

Ltac run_monad :=
  unfold locked_key_destructor, respond2, add_index_key,
         add_locked_value_shared, add_locked_value_exclusive,
         make_memory_registered, store_lock, store_unlock, store_swap_keys,
         store_erase, on_kvstore,
         emit, assert_, try_catch, bind, ret, throw, gets, modify; simpl.

(** Name what the collaborators answer, one call at a time. *)
Ltac env_case :=
  simpl;
  match goal with
  | |- context [kv_unlock ?p ?h ?f ?b] =>
      let rc := fresh "rc" in let b' := fresh "b" in
      destruct (kv_unlock p h f b) as [rc b'] eqn:?
  | |- context [kv_lock ?p ?k ?t ?l ?b] =>
      let lr := fresh "lr" in let b' := fresh "b" in
      destruct (kv_lock p k t l b) as [lr b'] eqn:?
  | |- context [kv_swap_keys ?p ?f ?t ?b] =>
      let rc := fresh "rc" in let b' := fresh "b" in
      destruct (kv_swap_keys p f t b) as [rc b'] eqn:?
  | |- context [kv_erase ?p ?k ?b] =>
      let rc := fresh "rc" in let b' := fresh "b" in
      destruct (kv_erase p k b) as [rc b'] eqn:?
  | |- context [memory_register ?h ?a ?n ?t] =>
      let r := fresh "r" in let t' := fresh "t" in
      destruct (memory_register h a n t) as [[r|] t'] eqn:?
  end; simpl.

Ltac rpr_finish :=
  eexists _, _, _; split; [reflexivity |];
  split; [by auto |];
  split; [simpl; rewrite <- ?app_assoc; simpl; reflexivity |];
  split; [by repeat constructor |];
  split; [done |]; split; [done |];
  split; [by auto |]; done.

(** What [release_locked_value_exclusive] does, by the state of the entry. *)
Lemma release_locked_value_exclusive_absent target s :
  _locked_values_exclusive s !! target = None →
  release_locked_value_exclusive target s = (Throw Logic_exception, s).
Proof. intros Habs. unfold release_locked_value_exclusive. run_monad. by rewrite Habs. Qed.

Lemma release_locked_value_exclusive_last target s li :
  _locked_values_exclusive s !! target = Some li →
  li_count li = 1 →
  ∃ s', release_locked_value_exclusive target s = (Ok tt, s') ∧
        _trace s' = _trace s ++ [EvUnlock (li_pool li) (li_key li) UNLOCK_FLAGS_FLUSH] ∧
        _locked_values_exclusive s' = delete target (_locked_values_exclusive s) ∧
        _locked_values_shared s' = _locked_values_shared s ∧
        _pending_renames s' = _pending_renames s.
Proof.
  intros Hli Hone. unfold release_locked_value_exclusive. run_monad.
  rewrite Hli, Hone. simpl. env_case.
  eexists. split; [reflexivity |]. by simpl.
Qed.

Lemma release_locked_value_exclusive_more target s li :
  _locked_values_exclusive s !! target = Some li →
  li_count li ≠ 1 →
  release_locked_value_exclusive target s
  = (Ok tt, set_exclusive (<[target := decrement li]> (_locked_values_exclusive s)) s).
Proof.
  intros Hli Hmore. unfold release_locked_value_exclusive. run_monad.
  rewrite Hli. by destruct (Z.eqb_spec (li_count li) 1).
Qed.

(** [release_pending_rename] ends normally or with a [Logic_exception];
    it writes neither lock registry; the rename of [target] is either
    still pending afterwards or has been carried out; without a pending
    rename it does nothing at all. *)
Lemma release_pending_rename_spec target s :
  ∃ r s' evs, release_pending_rename target s = (r, s') ∧
    (r = Ok tt ∨ r = Throw Logic_exception) ∧
    _trace s' = _trace s ++ evs ∧
    Forall (λ e, is_post_event e = false) evs ∧
    _locked_values_exclusive s' = _locked_values_exclusive s ∧
    _locked_values_shared s' = _locked_values_shared s ∧
    (_pending_renames s' = _pending_renames s ∨
     r = Ok tt ∧ _pending_renames s' = delete target (_pending_renames s)) ∧
    (_pending_renames s !! target = None → s' = s ∧ r = Ok tt).
Proof.
  unfold release_pending_rename. run_monad.
  destruct (_pending_renames s !! target) as [info|] eqn:Hinfo; simpl.
  2:{ exists (Ok tt), s, []. rewrite app_nil_r. repeat split; auto. }
  env_case. destruct (is_locked (lr_status lr)); simpl; [| rpr_finish].
  env_case. destruct (bool_decide (rc = S_OK)); simpl; [| rpr_finish].
  env_case. destruct (bool_decide (rc0 = S_OK)); simpl; [| rpr_finish].
  env_case. destruct (bool_decide (rc1 = S_OK)); simpl; [| rpr_finish].
  rpr_finish.
Qed.

(** *** The invariant of the exclusive registry *)

Lemma exclusive_inv_ext s s' :
  _locked_values_exclusive s' = _locked_values_exclusive s →
  _pending_renames s' = _pending_renames s →
  exclusive_inv s → exclusive_inv s'.
Proof. unfold exclusive_inv. intros -> ->. done. Qed.

Lemma exclusive_inv_initial (b : B) (t : T) ado hs :
  exclusive_inv (initial_shard b t ado hs).
Proof. intros target li. simpl. by rewrite lookup_empty. Qed.

(** A target without a pending rename is not exclusively locked. *)
Lemma exclusive_inv_not_locked s target :
  exclusive_inv s →
  _pending_renames s !! target = None →
  _locked_values_exclusive s !! target = None.
Proof.
  intros Hinv Hnone.
  destruct (_locked_values_exclusive s !! target) as [li|] eqn:Hli; [| done].
  destruct (Hinv _ _ Hli) as [_ [ri Hri]]. congruence.
Qed.

(** Entering a fresh exclusive lock together with its rename. *)
Lemma exclusive_inv_add s s' target fresh ri :
  exclusive_inv s →
  _pending_renames s !! target = None →
  li_count fresh = 0 →
  _locked_values_exclusive s' = emplace_locked target fresh (_locked_values_exclusive s) →
  _pending_renames s' = <[target := ri]> (_pending_renames s) →
  exclusive_inv s'.
Proof.
  intros Hinv Hnone Hzero Hexcl Hren t li. rewrite Hexcl, Hren.
  unfold emplace_locked.
  rewrite (exclusive_inv_not_locked s target Hinv Hnone).
  destruct (decide (target = t)) as [<-|Hne].
  - rewrite !lookup_insert_eq. intros [= <-]. simpl. split; [lia | eauto].
  - rewrite !lookup_insert_ne by done. apply Hinv.
Qed.

(** Releasing the exclusive lock of a target and then its pending rename,
    as PUT_RELEASE and the deferred action do. *)
Lemma exclusive_inv_release target s r s' :
  exclusive_inv s →
  (release_locked_value_exclusive target ;;! release_pending_rename target) s = (r, s') →
  exclusive_inv s'.
Proof.
  intros Hinv. unfold bind at 1.
  destruct (_locked_values_exclusive s !! target) as [li|] eqn:Hli.
  - destruct (Hinv _ _ Hli) as [Hone _].
    destruct (release_locked_value_exclusive_last target s li Hli Hone)
      as (s1 & -> & _ & Hexcl & _ & Hren).
    destruct (release_pending_rename_spec target s1)
      as (r2 & s2 & evs & -> & _ & _ & _ & Hexcl2 & _ & Hren2 & _).
    intros [= <- <-]. intros t li'. rewrite Hexcl2, Hexcl.
    destruct (decide (target = t)) as [<-|Hne]; [by rewrite lookup_delete_eq |].
    rewrite lookup_delete_ne by done. intros Ht.
    destruct (Hinv _ _ Ht) as [? Hsome]. split; [done |].
    destruct Hren2 as [-> | [_ ->]]; rewrite ?Hren, ?lookup_delete_ne; done.
  - rewrite release_locked_value_exclusive_absent by done. by intros [= <- <-].
Qed.

Lemma release_both_then {A} (x : A) target s :
  (release_locked_value_exclusive target ;;! release_pending_rename target ;;! ret x) s
  = match (release_locked_value_exclusive target ;;! release_pending_rename target) s with
    | (Ok _, s') => (Ok x, s')
    | (Throw e, s') => (Throw e, s')
    end.
Proof.
  unfold bind, ret.
  destruct (release_locked_value_exclusive target s) as [[[]|e] s1]; [| done].
  by destruct (release_pending_rename target s1) as [[[]|e] s2].
Qed.

Lemma exclusive_inv_put_release handler msg s r s' :
  exclusive_inv s →
  io_response_put_release handler msg s = (r, s') →
  exclusive_inv s'.
Proof.
  intros Hinv. unfold io_response_put_release.
  unfold bind at 1. unfold try_catch. rewrite release_both_then.
  destruct ((release_locked_value_exclusive (io_addr msg) ;;!
             release_pending_rename (io_addr msg)) s) as [[[]|e] s1] eqn:Hrel;
    apply (exclusive_inv_release _ _ _ _ Hinv) in Hrel.
  - run_monad. intros [= <- <-]. by eapply exclusive_inv_ext.
  - destruct (catch_Logic_exception e); run_monad; intros [= <- <-];
      by eapply exclusive_inv_ext.
Qed.

Lemma exclusive_inv_deferred fuel iter handler s r s' :
  exclusive_inv s →
  process_deferred_actions fuel iter handler s = (r, s') →
  exclusive_inv s'.
Proof.
  revert iter s. induction fuel as [|fuel IH]; intros iter s Hinv; simpl.
  - run_monad. by intros [= <- <-].
  - unfold bind at 1. unfold get_pending_action.
    destruct (_handlers s !! handler) as [c|]; [| run_monad; by intros [= <- <-]].
    destruct (pending_actions c) as [|parm rest]; [run_monad; by intros [= <- <-] |].
    set (s0 := set_handlers _ s).
    assert (exclusive_inv s0) as Hinv0 by (by eapply exclusive_inv_ext).
    unfold bind at 1, assert_.
    destruct (iter <? 1000); [| by intros [= <- <-]]. unfold ret at 1.
    pose proof (release_both_then tt parm s0) as Hboth.
    destruct ((release_locked_value_exclusive parm ;;! release_pending_rename parm) s0)
      as [[[]|e] s1] eqn:Hrel;
      apply (exclusive_inv_release _ _ _ _ Hinv0) in Hrel.
    + unfold bind in Hboth |- *. unfold ret in Hboth.
      destruct (release_locked_value_exclusive parm s0) as [[[]|e] s2]; [| done].
      destruct (release_pending_rename parm s2) as [[[]|e] s3]; [| done].
      injection Hboth as ->. by apply IH.
    + unfold bind in Hboth |- *. unfold ret in Hboth.
      destruct (release_locked_value_exclusive parm s0) as [[[]|e'] s2].
      * destruct (release_pending_rename parm s2) as [[[]|e'] s3]; [done |].
        injection Hboth as -> ->. by intros [= <- <-].
      * injection Hboth as -> ->. by intros [= <- <-].
Qed.

Ltac inv_unchanged Hinv :=
  intros [= <-]; eapply exclusive_inv_ext; [| | exact Hinv]; done.

Lemma exclusive_inv_put_locate handler msg s s' :
  exclusive_inv s →
  io_response_put_locate K handler msg s = (Ok tt, s') →
  exclusive_inv s'.
Proof.
  intros Hinv. unfold io_response_put_locate, add_pending_rename. run_monad.
  destruct (0 <? io_pool_id msg); simpl; [| done].
  destruct (flag_set _ _); simpl; [inv_unchanged Hinv |].
  destruct (0 <? io_value_len msg); simpl; [| done].
  env_case.
  destruct (is_locked (lr_status lr)), (bool_decide (lr_key_handle lr = KEY_NONE));
    simpl; try inv_unchanged Hinv.
  destruct (lr_value lr =? 0); simpl; [done |].
  env_case.
  - destruct (bool_decide (_pending_renames s !! lr_value lr = None)) eqn:Hfree; simpl.
    + apply bool_decide_eq_true in Hfree. intros [= <-].
      eapply (exclusive_inv_add s); [done | exact Hfree | | reflexivity | reflexivity]. done.
    + done.
  - env_case. inv_unchanged Hinv.
Qed.

Lemma exclusive_inv_put_advance handler msg s s' :
  exclusive_inv s →
  io_response_put_advance K handler msg s = (Ok tt, s') →
  exclusive_inv s'.
Proof.
  intros Hinv. unfold io_response_put_advance, add_pending_rename. run_monad.
  destruct (0 <? io_pool_id msg); simpl; [| done].
  destruct (flag_set _ _); simpl; [inv_unchanged Hinv |].
  destruct (0 <? io_value_len msg); simpl; [| done].
  env_case.
  destruct (negb (lr_value_len lr =? io_value_len msg)),
           (negb (is_locked (lr_status lr)) || bool_decide (lr_key_handle lr = KEY_NONE));
    simpl; try (env_case; inv_unchanged Hinv).
  env_case.
  - destruct (bool_decide (_pending_renames s !! lr_value lr = None)) eqn:Hfree; simpl.
    + apply bool_decide_eq_true in Hfree. intros [= <-].
      eapply (exclusive_inv_add s); [done | exact Hfree | | reflexivity | reflexivity]. done.
    + done.
  - env_case. inv_unchanged Hinv.
Qed.

(** In every state the shard can reach, an exclusively locked target is
    held exactly once and still has its rename pending. *)
Lemma reachable_exclusive_inv s : reachable K s → exclusive_inv s.
Proof.
  induction 1 as [b t ado hs | s s' Hreach IH Hstep].
  - apply exclusive_inv_initial.
  - destruct Hstep as [h msg s s' Hrun | h msg s s' Hrun | h msg s s' Hrun
                      | n h s s' Hrun | s s' Hexcl Hren].
    + by eapply exclusive_inv_put_advance.
    + by eapply exclusive_inv_put_locate.
    + by eapply exclusive_inv_put_release.
    + by eapply exclusive_inv_deferred.
    + by eapply exclusive_inv_ext.
Qed.


End Registry_properties.

(** ** The session part of the main loop *)

Section Preservation.

Context {St X : Type} (P : St → X).

Lemma preserves_ret {A} (a : A) : preserves P (ret a).
Proof. by intros s. Qed.

Lemma preserves_throw {A} e : preserves P (@throw St A e).
Proof. by intros s. Qed.

Lemma preserves_gets {A} (f : St → A) : preserves P (gets f).
Proof. by intros s. Qed.

Lemma preserves_modify f : (∀ s, P (f s) = P s) → preserves P (modify f).
Proof. intros Hf s. apply Hf. Qed.

Lemma preserves_assert b : preserves P (assert_ b).
Proof. intros s. by destruct b. Qed.

Lemma preserves_bind {A C} (c : M St A) (k : A → M St C) :
  preserves P c → (∀ a, preserves P (k a)) → preserves P (bind c k).
Proof.
  intros Hc Hk s. unfold bind. specialize (Hc s).
  destruct (c s) as [[a|e] s1]; simpl in *; [| done].
  by rewrite Hk.
Qed.

Lemma preserves_try_catch {A} (c : M St A) catches h :
  preserves P c → (∀ e, preserves P (h e)) → preserves P (try_catch c catches h).
Proof.
  intros Hc Hh s. unfold try_catch. specialize (Hc s).
  destruct (c s) as [[a|e] s1]; simpl in *; [done |].
  destruct (catches e); [| done]. by rewrite Hh.
Qed.

End Preservation.

Section Main_loop_properties.

Context {B T Tk : Type} `{!IKVStore B} `{!IKVStore_more B} `{!Connection_base T}
        `{!Shard_task Tk}.
Variable K : constants.
Variable KI : info_constants.
Variable crc32 : list Z → Z.
Variable ADO_FLAG_NO_OVERWRITE : Z.
Variable process_configure :
  Message_IO_request → option (gset Z) → B → result status_t * (option (gset Z) * B).
Implicit Types s : Shard B T.
Implicit Types x : ShardX B T Tk.

(** The sessions' queues of pending messages and freed buffers belong to
    the main loop: no handler touches them. *)
Local Abbreviation Q := (@queues B T).
Local Abbreviation XQ := (λ x : ShardX B T Tk, queues (shard x)).

Local Abbreviation dispatch_msg :=
  (dispatch K KI crc32 ADO_FLAG_NO_OVERWRITE process_configure).
Local Abbreviation pending_msg_step :=
  (process_pending_msg K KI crc32 ADO_FLAG_NO_OVERWRITE process_configure).
Local Abbreviation serve :=
  (service_handler K KI crc32 ADO_FLAG_NO_OVERWRITE process_configure).
Local Abbreviation serve_all :=
  (service_handlers K KI crc32 ADO_FLAG_NO_OVERWRITE process_configure).
Local Abbreviation tick :=
  (tick_sessions K KI crc32 ADO_FLAG_NO_OVERWRITE process_configure).
Local Abbreviation reaches :=
  (tick_reaches K KI crc32 ADO_FLAG_NO_OVERWRITE process_configure).

Lemma session_queue_queues h s : session_queue h s = queues s !! h.
Proof. unfold session_queue, queues. by rewrite list_lookup_fmap. Qed.

Lemma preserves_run {St X A} (P : St → X) (c : M St A) st r st1 :
  preserves P c → c st = (r, st1) → P st1 = P st.
Proof. intros Hc Hrun. specialize (Hc st). by rewrite Hrun in Hc. Qed.

Lemma preserves_run_some {St X A} (P : St → X) (c : M St A) st r st1 :
  preserves P c → Some (c st) = Some (r, st1) → P st1 = P st.
Proof. intros Hc Hrun. apply (preserves_run P c st r); [done | congruence]. Qed.

Lemma preserves_on_kvstore {A} e (op : B → A * B) : preserves Q (on_kvstore e op).
Proof. intros s. unfold on_kvstore. by destruct (op (_i_kvstore s)). Qed.

Lemma preserves_emit e : preserves Q (emit e).
Proof. by intros s. Qed.

Lemma preserves_allocate_send h : preserves Q (handler_allocate_send h).
Proof.
  intros s. unfold handler_allocate_send.
  by destruct (allocate_send h (_transport s)) as [[] t].
Qed.

Lemma preserves_memory_registered h base n : preserves Q (make_memory_registered h base n).
Proof.
  intros s. unfold make_memory_registered.
  by destruct (memory_register h base n (_transport s)) as [[key|] t].
Qed.

Lemma preserves_ondemand_register h base n :
  preserves Q (handler_ondemand_register h base n).
Proof. by intros s. Qed.

Lemma preserves_update_pool_manager h f : preserves Q (update_pool_manager h f).
Proof.
  apply preserves_modify. intros s. unfold queues. simpl.
  apply list_eq. intros i. rewrite !list_lookup_fmap.
  destruct (decide (i = h)) as [->|Hne].
  - rewrite list_lookup_alter_eq. by rewrite <- option_fmap_compose.
  - by rewrite list_lookup_alter_ne.
Qed.

Lemma preserves_lift {A} (c : M (Shard B T) A) : preserves Q c → preserves XQ (lift c).
Proof.
  intros Hc x. unfold lift. specialize (Hc (shard x)).
  destruct (c (shard x)) as [r s1]. simpl in *. done.
Qed.

Lemma preserves_on_kvstore_more {A} e (op : B → A * B) : preserves XQ (on_kvstore_more e op).
Proof. intros x. unfold on_kvstore_more. by destruct (op (_i_kvstore (shard x))). Qed.

Lemma preserves_xemit e : preserves XQ (xemit e).
Proof. by intros x. Qed.

Lemma preserves_process_configure msg :
  preserves XQ (run_process_configure process_configure msg).
Proof.
  intros x. unfold run_process_configure.
  by destruct (process_configure msg (_index_map x) (_i_kvstore (shard x))) as [r [im b]].
Qed.

Create HintDb preserves.

Hint Resolve preserves_ret preserves_throw preserves_gets preserves_assert
  preserves_on_kvstore preserves_emit preserves_allocate_send preserves_memory_registered
  preserves_ondemand_register preserves_update_pool_manager
  preserves_on_kvstore_more preserves_xemit preserves_process_configure : preserves.

Ltac preserves_step :=
  first
    [ solve [eauto with preserves]
    | apply preserves_modify; solve [done]
    | apply preserves_lift
    | apply preserves_bind; [| intros ?]
    | apply preserves_try_catch; [| intros ?]
    | match goal with
      | |- preserves _ (if ?b then _ else _) => destruct b
      | |- preserves _ (match ?x with _ => _ end) => destruct x
      | |- preserves _ (let '(_, _) := ?x in _) => destruct x
      end ].

Ltac solve_preserves := repeat preserves_step.

Lemma preserves_register_regions h regions : preserves Q (register_regions h regions).
Proof. induction regions; simpl; solve_preserves. Qed.

Lemma release_locked_value_exclusive_queues target :
  preserves Q (release_locked_value_exclusive target).
Proof.
  unfold release_locked_value_exclusive, store_unlock. solve_preserves.
Qed.

Lemma release_pending_rename_queues target :
  preserves Q (release_pending_rename target).
Proof.
  unfold release_pending_rename, store_lock, store_unlock, store_swap_keys,
         store_erase, add_index_key.
  solve_preserves.
Qed.

Lemma process_ado_request_queues h m : preserves Q (process_ado_request K h m).
Proof.
  unfold process_ado_request, ado_error_func, store_get_attribute_VALUE_LEN,
         store_lock, store_unlock, do_pmem_memset.
  solve_preserves.
Qed.

Lemma process_message_pool_request_queues h m :
  preserves Q (process_message_pool_request K h m).
Proof.
  unfold process_message_pool_request, pool_request_OP_CREATE, pool_request_OP_OPEN,
         get_pool_manager, store_create_pool, store_open_pool, store_get_pool_regions,
         conditional_bootstrap_ado_process.
  pose proof preserves_register_regions.
  solve_preserves.
Qed.

(** The handlers of the IO requests. *)
Lemma respond2_queues h msg status : preserves Q (respond2 h msg status).
Proof. unfold respond2. solve_preserves. Qed.

Lemma base_io_handlers_queues h msg :
  preserves Q (io_response_put_locate K h msg) ∧
  preserves Q (io_response_put_release h msg) ∧
  preserves Q (io_response_get_locate h msg) ∧
  preserves Q (io_response_get_release h msg) ∧
  preserves Q (io_response_get K h msg).
Proof.
  pose proof respond2_queues.
  pose proof release_locked_value_exclusive_queues.
  pose proof release_pending_rename_queues.
  repeat split.
  - unfold io_response_put_locate, add_pending_rename, add_locked_value_exclusive,
           locked_key_destructor, store_lock, store_unlock.
    solve_preserves.
  - unfold io_response_put_release. solve_preserves.
  - unfold io_response_get_locate, add_locked_value_shared,
           locked_key_destructor, store_lock, store_unlock.
    solve_preserves.
  - unfold io_response_get_release, release_locked_value_shared, store_unlock.
    solve_preserves.
  - unfold io_response_get, add_locked_value_shared,
           locked_key_destructor, store_lock, store_unlock.
    solve_preserves.
Qed.

Lemma release_space_shared_queues range_ : preserves XQ (release_space_shared range_).
Proof. unfold release_space_shared. solve_preserves. Qed.

Lemma flush_elements_queues pool sg status : preserves XQ (flush_elements pool sg status).
Proof.
  revert status. induction sg as [|e sg IH]; intros status; simpl;
    unfold store_flush_pool_memory; solve_preserves.
Qed.

Lemma io_response_locate_queues fuel h msg offset size x r x1 :
  io_response_locate fuel h msg offset size x = Some (r, x1) →
  queues (shard x1) = queues (shard x).
Proof.
  pose proof respond2_queues.
  unfold io_response_locate.
  pose proof (preserves_lift _ (preserves_on_kvstore (EvGetPoolRegions (io_pool_id msg))
                                  (kv_get_pool_regions (io_pool_id msg))) x) as Hx.
  unfold store_get_pool_regions.
  destruct (lift (on_kvstore _ _) x) as [[[status regions]|e] xa]; simpl in Hx;
    [| intros ?; by simplify_eq/=].
  rewrite <- Hx. destruct (bool_decide (status = S_OK)).
  - destruct (SG.offset_to_sg_list _ _ _ _); [| done | done | intros ?; by simplify_eq/=].
    apply (preserves_run_some XQ).
    unfold add_space_shared. solve_preserves.
  - apply (preserves_run_some XQ). solve_preserves.
Qed.

Lemma io_response_release_with_flush_queues fuel h msg offset size x r x1 :
  io_response_release_with_flush fuel h msg offset size x = Some (r, x1) →
  queues (shard x1) = queues (shard x).
Proof.
  pose proof respond2_queues.
  pose proof flush_elements_queues.
  pose proof release_space_shared_queues.
  unfold io_response_release_with_flush.
  pose proof (preserves_lift _ (preserves_on_kvstore (EvGetPoolRegions (io_pool_id msg))
                                  (kv_get_pool_regions (io_pool_id msg))) x) as Hx.
  unfold store_get_pool_regions.
  destruct (lift (on_kvstore _ _) x) as [[[status regions]|e] xa]; simpl in Hx;
    [| intros ?; by simplify_eq/=].
  rewrite <- Hx. destruct (bool_decide (status = S_OK)).
  - destruct (SG.offset_to_sg_list _ _ _ _); [| done | done | intros ?; by simplify_eq/=].
    apply (preserves_run_some XQ). solve_preserves.
  - apply (preserves_run_some XQ). solve_preserves.
Qed.

Lemma process_message_IO_request_queues fuel h rq x r x1 :
  process_message_IO_request K process_configure fuel h rq x = Some (r, x1) →
  queues (shard x1) = queues (shard x).
Proof.
  pose proof respond2_queues.
  pose proof release_space_shared_queues.
  destruct (base_io_handlers_queues h (rq_msg rq)) as (? & ? & ? & ? & ?).
  unfold process_message_IO_request.
  pose proof (preserves_lift _ (preserves_allocate_send h) x) as Hx.
  destruct (lift (handler_allocate_send h) x) as [[[]|e] xa]; simpl in Hx;
    [| intros ?; by simplify_eq/=].
  rewrite <- Hx.
  destruct (io_op (rq_msg rq));
    try apply (preserves_run_some XQ);
    try apply io_response_locate_queues;
    try apply io_response_release_with_flush_queues;
    try (intros ?; by simplify_eq/=).
  - solve_preserves.
  - solve_preserves.
  - solve_preserves.
  - solve_preserves.
  - unfold io_response_release. solve_preserves.
  - unfold io_response_put, store_put, add_index_key. solve_preserves.
  - solve_preserves.
  - unfold io_response_erase, store_erase, remove_index_key. solve_preserves.
  - unfold io_response_configure. solve_preserves.
Qed.

Lemma process_message_pool_request_more_queues h m :
  preserves XQ (process_message_pool_request_more h m).
Proof.
  unfold process_message_pool_request_more, pool_request_OP_CLOSE, pool_request_OP_DELETE,
         get_pool_manager, store_close_pool, store_delete_pool.
  solve_preserves.
Qed.

Lemma process_info_request_queues h m : preserves XQ (process_info_request KI crc32 h m).
Proof.
  unfold process_info_request, post_info, store_count, store_get_attribute,
         locked_key_destructor, store_lock, store_unlock.
  solve_preserves.
Qed.

Lemma process_put_ado_request_queues h m :
  preserves XQ (process_put_ado_request K ADO_FLAG_NO_OVERWRITE h m).
Proof.
  unfold process_put_ado_request, put_ado_error_func, store_allocate_pool_memory,
         do_memcpy, store_put, store_get_attribute_VALUE_LEN, store_lock.
  solve_preserves.
Qed.

(** No handler touches a queue of pending messages or freed buffers. *)
Lemma dispatch_queues fuel h m x r x1 :
  dispatch_msg fuel h m x = Some (r, x1) → queues (shard x1) = queues (shard x).
Proof.
  destruct m as [m|m|m|[m|m]|m|?]; simpl.
  - apply process_message_IO_request_queues.
  - apply (preserves_run_some XQ).
    apply preserves_lift, process_ado_request_queues.
  - apply (preserves_run_some XQ).
    apply process_put_ado_request_queues.
  - apply (preserves_run_some XQ).
    apply preserves_lift, process_message_pool_request_queues.
  - apply (preserves_run_some XQ).
    apply process_message_pool_request_more_queues.
  - apply (preserves_run_some XQ).
    apply process_info_request_queues.
  - by intros [= <- <-].
Qed.

Lemma get_pending_action_queues h : preserves Q (get_pending_action h).
Proof.
  intros s. unfold get_pending_action.
  destruct (_handlers s !! h) as [c|] eqn:Hc; [| done].
  destruct (pending_actions c) as [|a rest]; [done |]. simpl.
  unfold queues. simpl. rewrite list_fmap_insert. simpl.
  apply list_insert_id. by rewrite list_lookup_fmap, Hc.
Qed.

Lemma process_deferred_actions_queues fuel iter h :
  preserves Q (process_deferred_actions fuel iter h).
Proof.
  revert iter. induction fuel as [|fuel IH]; intros iter; simpl; [apply preserves_ret |].
  pose proof get_pending_action_queues.
  pose proof release_locked_value_exclusive_queues.
  pose proof release_pending_rename_queues.
  solve_preserves.
Qed.

Lemma deferred_actions_of_queues h : preserves XQ (deferred_actions_of h).
Proof.
  intros x. unfold deferred_actions_of.
  apply (preserves_lift _ (process_deferred_actions_queues _ _ _)).
Qed.

Lemma queues_pop h x :
  queues (shard (pop_pending_msg h x)) = alter pop_queue h (queues (shard x)).
Proof.
  unfold queues. simpl. apply list_eq. intros i. rewrite list_lookup_fmap.
  destruct (decide (h = i)) as [<-|Hne].
  - rewrite !list_lookup_alter_eq, list_lookup_fmap.
    destruct (_handlers (shard x) !! h) as [c|]; [| done]. simpl. f_equal.
    unfold pop_and_free, pop_queue. simpl.
    destruct (pending_msgs c) eqn:Hp; simpl; by rewrite ?Hp.
  - by rewrite !list_lookup_alter_ne, list_lookup_fmap.
Qed.

Lemma peek_queues h s :
  peek_pending_msg h s = (session_queue h s) ≫= (λ q, head q.1).
Proof.
  unfold peek_pending_msg, session_queue.
  by destruct (_handlers s !! h).
Qed.

(** One look at the pending messages of session [h], whose queues are [q]. *)
Lemma process_pending_msg_spec fuel h x q :
  session_queue h (shard x) = Some q →
  pending_msg_step fuel h x =
    match head q.1 with
    | None => Some (Ok tt, x)
    | Some m =>
        match dispatch_msg fuel h m x with
        | Some (Ok _, x1) => Some (Ok tt, pop_pending_msg h x1)
        | Some (Throw e, x1) =>
            Some (if catch_resource_unavailable e then Ok tt else Throw e, x1)
        | None => None
        end
    end.
Proof.
  intros Hq. unfold process_pending_msg. rewrite peek_queues, Hq. simpl.
  by destruct (head q.1).
Qed.

(** A look at session [h] leaves the queues of the other sessions alone. *)
Lemma process_pending_msg_frame fuel h x r x1 h' :
  pending_msg_step fuel h x = Some (r, x1) →
  h' ≠ h →
  session_queue h' (shard x1) = session_queue h' (shard x).
Proof.
  unfold process_pending_msg. intros Hrun Hne.
  destruct (peek_pending_msg h (shard x)) as [m|]; [| by simplify_eq/=].
  destruct (dispatch_msg fuel h m x) as [[[[]|e] xb]|] eqn:Hd; [| | done];
    apply dispatch_queues in Hd; simplify_eq.
  - rewrite !session_queue_queues, queues_pop, list_lookup_alter_ne by done.
    by rewrite Hd.
  - by rewrite !session_queue_queues, Hd.
Qed.

Lemma service_handler_frame fuel h x r x1 h' :
  serve fuel h x = Some (r, x1) →
  h' ≠ h →
  session_queue h' (shard x1) = session_queue h' (shard x).
Proof.
  unfold service_handler. intros Hrun Hne.
  pose proof (deferred_actions_of_queues h x) as Hd. simpl in Hd.
  destruct (deferred_actions_of h x) as [[[]|e] xa]; simpl in Hd.
  - rewrite (process_pending_msg_frame _ _ _ _ _ _ Hrun Hne).
    by rewrite !session_queue_queues, Hd.
  - simplify_eq/=. by rewrite !session_queue_queues, Hd.
Qed.

Lemma service_handlers_frame fuel l h :
  ∀ x r x1, serve_all fuel l x = Some (r, x1) →
            h ∉ l →
            session_queue h (shard x1) = session_queue h (shard x).
Proof.
  induction l as [|h0 l IH]; intros x r x1; simpl.
  - by intros [= <- <-].
  - intros Hrun Hnotin. apply not_elem_of_cons in Hnotin as [Hne Hnotin].
    destruct (serve fuel h0 x) as [[[[]|e] xa]|] eqn:Hserve; [| | done].
    + rewrite (IH _ _ _ Hrun Hnotin).
      by apply (service_handler_frame _ _ _ _ _ _ Hserve).
    + simplify_eq/=. by apply (service_handler_frame _ _ _ _ _ _ Hserve).
Qed.

Lemma service_handlers_app fuel l1 l2 x :
  serve_all fuel (l1 ++ l2) x =
    match serve_all fuel l1 x with
    | Some (Ok _, x1) => serve_all fuel l2 x1
    | Some (Throw e, x1) => Some (Throw e, x1)
    | None => None
    end.
Proof.
  revert x. induction l1 as [|h l1 IH]; intros x; simpl; [done |].
  destruct (serve fuel h x) as [[[[]|e] xa]|]; [apply IH | done | done].
Qed.

(** The sessions stay as many as they are. *)
Lemma service_handlers_sessions fuel l :
  ∀ x r x1, serve_all fuel l x = Some (r, x1) →
            length (_handlers (shard x1)) = length (_handlers (shard x)).
Proof.
  assert (∀ x, length (_handlers (shard x)) = length (queues (shard x))) as Hlen.
  { intros x. unfold queues. by rewrite length_fmap. }
  assert (∀ h x r x1, serve fuel h x = Some (r, x1) →
            length (queues (shard x1)) = length (queues (shard x))) as Hserve.
  { intros h x r x1. unfold service_handler.
    pose proof (deferred_actions_of_queues h x) as Hd. simpl in Hd.
    destruct (deferred_actions_of h x) as [[[]|e] xa]; simpl in Hd;
      [| intros ?; simplify_eq/=; by rewrite Hd].
    rewrite <- Hd. unfold process_pending_msg.
    destruct (peek_pending_msg h (shard xa)) as [m|]; [| intros ?; by simplify_eq/=].
    destruct (dispatch_msg fuel h m xa) as [[[[]|e] xb]|] eqn:Hdisp; [| | done];
      apply dispatch_queues in Hdisp; intros ?; simplify_eq.
    - by rewrite queues_pop, length_alter, Hdisp.
    - by rewrite Hdisp. }
  induction l as [|h l IH]; intros x r x1; simpl.
  - by intros [= <- <-].
  - destruct (serve fuel h x) as [[[[]|e] xa]|] eqn:Hrun; [| | done].
    + intros Hrest. rewrite (IH _ _ _ Hrest), !Hlen. by eapply Hserve.
    + intros ?; simplify_eq/=. rewrite !Hlen. by eapply Hserve.
Qed.

(** What a tick does with session [h], whose queues are [q] when the tick
    begins. *)
Lemma tick_session_outcome fuel n x r x' h q :
  serve_all fuel (seq 0 n) x = Some (r, x') →
  (h < n)%nat →
  session_queue h (shard x) = Some q →
  match reaches fuel h x with
  | None => (∃ e, r = Throw e) ∧ session_queue h (shard x') = Some q
  | Some xa =>
      session_queue h (shard xa) = Some q ∧
      match head q.1 with
      | None => session_queue h (shard x') = Some q
      | Some m =>
          match dispatch_msg fuel h m xa with
          | None => False
          | Some (Ok _, xb) =>
              serve_all fuel (seq 0 (S h)) x = Some (Ok tt, pop_pending_msg h xb) ∧
              session_queue h (shard x') = Some (tail q.1, q.2 ++ [m])
          | Some (Throw e, xb) =>
              session_queue h (shard x') = Some q ∧
              if catch_resource_unavailable e
              then serve_all fuel (seq 0 (S h)) x = Some (Ok tt, xb)
              else r = Throw e ∧ x' = xb
          end
      end
  end.
Proof.
  intros Hrun Hlt Hq.
  assert (seq 0 n = seq 0 h ++ [h] ++ seq (S h) (n - S h)) as Hsplit.
  { replace n with (h + (1 + (n - S h)))%nat at 1 by lia.
    rewrite !seq_app. simpl. by rewrite Nat.add_1_r. }
  assert (h ∉ seq 0 h) as Hbefore by (rewrite elem_of_seq; lia).
  assert (h ∉ seq (S h) (n - S h)) as Hafter by (rewrite elem_of_seq; lia).
  rewrite Hsplit, service_handlers_app in Hrun.
  rewrite seq_S, service_handlers_app. simpl (0 + h)%nat.
  unfold tick_reaches.
  destruct (serve_all fuel (seq 0 h) x) as [[[[]|e] x1]|] eqn:Hpre; [| | done].
  2:{ simplify_eq/=. split; [by eexists |].
      by rewrite (service_handlers_frame _ _ _ _ _ _ Hpre Hbefore). }
  assert (session_queue h (shard x1) = Some q) as Hq1
    by (by rewrite (service_handlers_frame _ _ _ _ _ _ Hpre Hbefore)).
  rewrite service_handlers_app in Hrun. simpl in Hrun |- *.
  unfold service_handler in Hrun |- *.
  pose proof (deferred_actions_of_queues h x1) as Hd. simpl in Hd.
  destruct (deferred_actions_of h x1) as [[[]|e] xa]; simpl in Hd.
  2:{ simplify_eq/=. split; [by eexists |]. by rewrite session_queue_queues, Hd,
        <- session_queue_queues. }
  assert (session_queue h (shard xa) = Some q) as Hqa
    by (by rewrite session_queue_queues, Hd, <- session_queue_queues).
  split; [done |].
  rewrite (process_pending_msg_spec _ _ _ _ Hqa) in Hrun |- *.
  destruct (head q.1) as [m|] eqn:Hhead.
  - destruct (dispatch_msg fuel h m xa) as [[[[]|e] xb]|] eqn:Hdisp; [| | done].
    + split; [done |].
      apply dispatch_queues in Hdisp.
      rewrite (service_handlers_frame _ _ _ _ _ _ Hrun Hafter).
      rewrite session_queue_queues, queues_pop, list_lookup_alter_eq, Hdisp,
        <- session_queue_queues, Hqa. simpl.
      unfold pop_queue. destruct q as [[|m' rest] f]; simpl in *; [done |].
      by simplify_eq/=.
    + apply dispatch_queues in Hdisp.
      assert (session_queue h (shard xb) = Some q) as Hqb
        by (by rewrite session_queue_queues, Hdisp, <- session_queue_queues).
      destruct (catch_resource_unavailable e).
      * split; [| done].
        by rewrite (service_handlers_frame _ _ _ _ _ _ Hrun Hafter).
      * by simplify_eq/=.
  - by rewrite (service_handlers_frame _ _ _ _ _ _ Hrun Hafter).
Qed.

(** A tick that does not return has reached a session whose handler does
    not. *)
Lemma service_handlers_stuck fuel n x :
  serve_all fuel (seq 0 n) x = None →
  ∃ h m xa, reaches fuel h x = Some xa ∧
            peek_pending_msg h (shard xa) = Some m ∧
            dispatch_msg fuel h m xa = None.
Proof.
  induction n as [|n IH]; [done |].
  rewrite seq_S, service_handlers_app. simpl (0 + n)%nat.
  destruct (serve_all fuel (seq 0 n) x) as [[[[]|e] x1]|] eqn:Hpre; [| done | by auto].
  simpl. unfold service_handler.
  destruct (deferred_actions_of n x1) as [[[]|e] xa] eqn:Hd; [| done].
  unfold process_pending_msg.
  destruct (peek_pending_msg n (shard xa)) as [m|] eqn:Hpeek; [| done].
  destruct (dispatch_msg fuel n m xa) as [[[[]|e] xb]|] eqn:Hdisp.
  - by simpl.
  - by destruct (catch_resource_unavailable e).
  - intros _. exists n, m, xa. unfold tick_reaches. by rewrite Hpre, Hd.
Qed.

(** The handler of an IO request or of a pool request takes the send buffer
    before anything else; when the transport has none, it throws
    resource-unavailable at once. *)
Lemma dispatch_without_send_buffer fuel h m x t :
  send_buffer_first m = true →
  allocate_send h (_transport (shard x)) = (false, t) →
  ∃ xb, dispatch_msg fuel h m x = Some (Throw Resource_unavailable, xb) ∧
        _xtrace xb = _xtrace x ++ [Ev (EvAllocateSend h)].
Proof.
  intros Hfirst Halloc.
  assert (lift (handler_allocate_send h) x
          = (Throw Resource_unavailable,
             xlog [Ev (EvAllocateSend h)]
               (set_shard (set_transport t (log (EvAllocateSend h) (shard x))) x))) as Hsend.
  { unfold lift, handler_allocate_send. rewrite Halloc. simpl. by rewrite drop_app_length. }
  destruct m as [m|m|m|[m|m]|m|?]; simpl in Hfirst; try done; simpl.
  - unfold process_message_IO_request. rewrite Hsend. by eexists.
  - unfold process_message_pool_request.
    destruct (pl_op m); simpl; unfold lift, bind, assert_, ret, handler_allocate_send; simpl;
      rewrite Halloc; simpl; rewrite drop_app_length; by eexists.
  - unfold process_message_pool_request_more. rewrite Hfirst. unfold bind, assert_, ret.
    rewrite Hsend. by eexists.
Qed.

(** With a thousand sessions or more the tick stops at its assertion. *)
Lemma tick_sessions_too_many fuel x :
  (1000 ≤ length (_handlers (shard x)))%nat →
  tick fuel x = Some (Throw Assertion_failure, x).
Proof.
  intros Hmany. unfold tick_sessions.
  by destruct (Nat.ltb_spec (length (_handlers (shard x))) 1000) as [|_]; [lia |].
Qed.


End Main_loop_properties.

(** ** Create-only ADO requests *)

Section Ado_properties.

Context {T : Type} `{!Connection_base T}.
Variable K : constants.
Implicit Types s : Shard MapStore.store T.

Ltac run_ado :=
  unfold process_ado_request, ado_error_func, handler_allocate_send,
         store_get_attribute_VALUE_LEN, store_lock, store_unlock, do_pmem_memset,
         on_kvstore, emit, try_catch, bind, ret, throw, gets, modify; simpl.

(** The key exists: the request is refused and nothing is done to the
    backend. *)
Lemma create_only_existing s handler msg t1 sl :
  _ado_enabled s = true →
  flag_set (ado_flags msg) (ADO_FLAG_CREATE_ONLY K) = true →
  flag_set (ado_flags msg) (ADO_FLAG_DETACHED K) = false →
  MapStore.slots (_i_kvstore s) !! (ado_pool_id msg, ado_key msg) = Some sl →
  allocate_send handler (_transport s) = (true, t1) →
  ∃ s', process_ado_request K handler msg s = (Ok tt, s') ∧
    _trace s' = _trace s ++
      [ EvGetAttribute (ado_pool_id msg) (ado_key msg);
        EvAllocateSend handler;
        EvPostAdoResponse handler
          {| arsp_request_id := ado_request_id msg; arsp_status := E_ALREADY_EXISTS;
             arsp_payload := [Ado_message "ADO!ALREADY_EXISTS"] |} ] ∧
    _i_kvstore s' = _i_kvstore s.
Proof.
  intros Hado Hcreate Hdet Hsl Halloc. run_ado.
  rewrite Hado, Hdet, Hcreate. simpl.
  unfold MapStore.get_attribute_VALUE_LEN. rewrite Hsl. simpl.
  rewrite Halloc. simpl.
  eexists. split; [reflexivity |]. simpl. by rewrite <- !app_assoc.
Qed.

(** The key is absent: it is created, zero-filled and unlocked. *)
Lemma create_only_absent s handler msg t1 :
  _ado_enabled s = true →
  flag_set (ado_flags msg) (ADO_FLAG_CREATE_ONLY K) = true →
  flag_set (ado_flags msg) (ADO_FLAG_DETACHED K) = false →
  flag_set (ado_flags msg) (ADO_FLAG_READ_ONLY K) = false →
  0 ≤ ado_ondemand_val_len msg →
  MapStore.slots (_i_kvstore s) !! (ado_pool_id msg, ado_key msg) = None →
  allocate_send handler (_transport s) = (true, t1) →
  ∃ s', process_ado_request K handler msg s = (Ok tt, s') ∧
    _trace s' = _trace s ++
      [ EvGetAttribute (ado_pool_id msg) (ado_key msg);
        EvLock (ado_pool_id msg) (ado_key msg) STORE_LOCK_WRITE (ado_ondemand_val_len msg);
        EvMemset (MapStore.next_addr (_i_kvstore s)) 0 (ado_ondemand_val_len msg);
        EvUnlock (ado_pool_id msg) (Key_handle (MapStore.next_handle (_i_kvstore s)))
                 UNLOCK_FLAGS_NONE;
        EvAllocateSend handler;
        EvPostAdoResponse handler
          {| arsp_request_id := ado_request_id msg; arsp_status := S_OK;
             arsp_payload := [Ado_value_address (MapStore.next_addr (_i_kvstore s))] |} ] ∧
    MapStore.slots (_i_kvstore s') !! (ado_pool_id msg, ado_key msg)
      = Some (MapStore.Slot (MapStore.next_addr (_i_kvstore s))
                (replicate (Z.to_nat (ado_ondemand_val_len msg)) 0) O false) ∧
    _transport s' = t1 ∧
    _ado_enabled s' = true.
Proof.
  intros Hado Hcreate Hdet Hro Hlen Habsent Halloc. run_ado.
  rewrite Hado, Hdet, Hcreate, Hro. simpl.
  unfold MapStore.get_attribute_VALUE_LEN. rewrite Habsent. simpl.
  unfold MapStore.lock. rewrite Habsent. simpl.
  rewrite lookup_insert_eq. simpl.
  rewrite Halloc. simpl.
  eexists. split; [reflexivity |]. simpl.
  rewrite length_replicate, Z2Nat.id by done.
  split; [by rewrite <- !app_assoc |]. split; [| done].
  rewrite lookup_alter_eq, lookup_fmap, lookup_insert_eq. simpl.
  unfold MapStore.memset_slot. simpl. rewrite Z.eqb_refl. simpl.
  rewrite drop_ge by (by rewrite length_replicate). by rewrite app_nil_r.
Qed.

(** C9. ADO_REQUEST with the flag CREATE_ONLY, twice for the same key, on a
    shard with ADO enabled and a pool that does not hold the key. The first
    request creates the value with the requested on-demand length, fills it
    with zeros, unlocks it and then answers S_OK with the value's address,
    without any work request to the ADO; the second is answered
    E_ALREADY_EXISTS and leaves the backend, and so the value, untouched. *)
Theorem C9_create_only_twice s handler msg1 msg2 t1 t2 :
  _ado_enabled s = true →
  flag_set (ado_flags msg1) (ADO_FLAG_CREATE_ONLY K) = true →
  flag_set (ado_flags msg1) (ADO_FLAG_DETACHED K) = false →
  flag_set (ado_flags msg1) (ADO_FLAG_READ_ONLY K) = false →
  ado_flags msg2 = ado_flags msg1 →
  ado_pool_id msg2 = ado_pool_id msg1 →
  ado_key msg2 = ado_key msg1 →
  0 ≤ ado_ondemand_val_len msg1 →
  MapStore.slots (_i_kvstore s) !! (ado_pool_id msg1, ado_key msg1) = None →
  allocate_send handler (_transport s) = (true, t1) →
  allocate_send handler t1 = (true, t2) →
  let pool := ado_pool_id msg1 in
  let key := ado_key msg1 in
  let len := ado_ondemand_val_len msg1 in
  let value := MapStore.next_addr (_i_kvstore s) in
  let key_handle := Key_handle (MapStore.next_handle (_i_kvstore s)) in
  ∃ s1 s2,
    process_ado_request K handler msg1 s = (Ok tt, s1) ∧
    _trace s1 = _trace s ++
      [ EvGetAttribute pool key;
        EvLock pool key STORE_LOCK_WRITE len;
        EvMemset value 0 len;
        EvUnlock pool key_handle UNLOCK_FLAGS_NONE;
        EvAllocateSend handler;
        EvPostAdoResponse handler
          {| arsp_request_id := ado_request_id msg1; arsp_status := S_OK;
             arsp_payload := [Ado_value_address value] |} ] ∧
    MapStore.slots (_i_kvstore s1) !! (pool, key)
      = Some (MapStore.Slot value (replicate (Z.to_nat len) 0) O false) ∧
    process_ado_request K handler msg2 s1 = (Ok tt, s2) ∧
    _trace s2 = _trace s1 ++
      [ EvGetAttribute pool key;
        EvAllocateSend handler;
        EvPostAdoResponse handler
          {| arsp_request_id := ado_request_id msg2; arsp_status := E_ALREADY_EXISTS;
             arsp_payload := [Ado_message "ADO!ALREADY_EXISTS"] |} ] ∧
    _i_kvstore s2 = _i_kvstore s1.
Proof.
  intros Hado Hcreate Hdet Hro Hflags Hpool Hkey Hlen Habsent Halloc1 Halloc2. simpl.
  destruct (create_only_absent s handler msg1 t1)
    as (s1 & Hrun1 & Htr1 & Hslot & Htrans & Hado1); try done.
  destruct (create_only_existing s1 handler msg2 t2
              (MapStore.Slot (MapStore.next_addr (_i_kvstore s))
                 (replicate (Z.to_nat (ado_ondemand_val_len msg1)) 0) O false))
    as (s2 & Hrun2 & Htr2 & Hstore); try done.
  - by rewrite Hflags.
  - by rewrite Hflags.
  - by rewrite Hpool, Hkey.
  - by rewrite Htrans.
  - exists s1, s2. rewrite Hpool, Hkey in Htr2. done.
Qed.

End Ado_properties.

(** ** The handlers on concrete states *)






(** C3. Two GET_LOCATEs of the same key, then two GET_RELEASEs of its
    address. The registry holds one entry with reference count 2, but the
    backend has been asked for a read lock twice; when the count is back at
    zero it has been asked to unlock once, and the key is left with one
    reader that nobody will release. *)
Theorem C3_two_readers_two_backend_locks :
  count_events is_lock_event (_trace two_readers_located) = 2%nat ∧
  li_count <$> _locked_values_shared two_readers_located !! example_target = Some 2 ∧
  li_key <$> _locked_values_shared two_readers_located !! example_target
    = Some (Key_handle 1) ∧
  MapStore.holders (_i_kvstore two_readers_located) !! 2 = Some (1, "k"%string, STORE_LOCK_READ) ∧
  _locked_values_shared two_readers_released = ∅ ∧
  filter (λ e, is_unlock_event e = true) (_trace two_readers_released)
    = [EvUnlock 1 (Key_handle 1) UNLOCK_FLAGS_FLUSH] ∧
  MapStore.s_readers <$> MapStore.slots (_i_kvstore two_readers_released) !! (1, "k"%string)
    = Some 1%nat ∧
  MapStore.holders (_i_kvstore two_readers_released) !! 2 = Some (1, "k"%string, STORE_LOCK_READ).
Proof. vm_compute. by repeat split. Qed.

(** C7. PUT_LOCATE of ["k"] announcing 100 bytes, while the sentinel
    ["___pending_k"] exists with a slot of 50 bytes: the request does not
    fail. The reply is S_OK, and an exclusive-lock record (of length 50) and
    a pending rename are inserted. *)
Theorem C7_put_locate_length_mismatch :
  let msg := io_request OP_PUT_LOCATE 3 "k" 100 0 in
  let s' := run (io_response_put_locate example_constants 0%nat msg) shard_with_pending_slot in
  length <$> MapStore.value_of 1 "___pending_k" (_i_kvstore shard_with_pending_slot)
    = Some 50%nat ∧
  new_events (io_response_put_locate example_constants 0%nat msg) shard_with_pending_slot
    = [ EvLock 1 "___pending_k" STORE_LOCK_WRITE 100;
        EvRegister 0%nat example_target 50;
        EvPostSendBuffer 0%nat (with_addr_key (respond1 msg S_OK) example_target 100 No_data) ] ∧
  _locked_values_exclusive s' !! example_target
    = Some (Lock_info 1 (Key_handle 1) 50 100 1) ∧
  _pending_renames s' !! example_target = Some (Rename_info 1 "___pending_k" "k").
Proof. vm_compute. by repeat split. Qed.

(** C8. POOL CREATE, without the create-only flag, of a pool the session
    has open under handle 1: the reference count goes from 1 to 2 and the
    status is S_OK, but the handler never assigns the response's pool id, so
    the existing pool's handle is not returned. POOL OPEN of the same pool
    does assign it. *)
Theorem C8_create_over_open_pool :
  let create := process_message_pool_request example_constants 0%nat
                  (pool_request OP_CREATE 0 "P") in
  let open := process_message_pool_request example_constants 0%nat
                (pool_request OP_OPEN 0 "P") in
  (handler_pool_manager 0%nat shard_with_open_pool ≫= check_for_open_pool "P") = Some 1 ∧
  (handler_pool_manager 0%nat shard_with_open_pool ≫= pool_reference_count 1) = Some 1 ∧
  new_events create shard_with_open_pool
    = [ EvAllocateSend 0%nat;
        EvPostPoolResponse 0%nat {| prsp_status := S_OK; prsp_pool_id := None |} ] ∧
  (handler_pool_manager 0%nat (run create shard_with_open_pool) ≫= pool_reference_count 1)
    = Some 2 ∧
  new_events open shard_with_open_pool
    = [ EvAllocateSend 0%nat;
        EvPostPoolResponse 0%nat {| prsp_status := S_OK; prsp_pool_id := Some 1 |} ].
Proof. vm_compute. by repeat split. Qed.


(** The same request on concrete states: after PUT_LOCATE the release unlocks,
    renames and answers S_OK; released a second time, or never located, the
    address is answered with E_INVAL. *)
Example put_release_then_again :
  let release id := io_response_put_release 0%nat (io_request OP_PUT_RELEASE id "" 0 example_target) in
  new_events (release 2) one_writer_located
    = [ EvUnlock 1 (Key_handle 1) UNLOCK_FLAGS_FLUSH;
        EvLock 1 "k" STORE_LOCK_WRITE 8;
        EvUnlock 1 (Key_handle 2) UNLOCK_FLAGS_NONE;
        EvSwapKeys 1 "___pending_k" "k";
        EvErase 1 "___pending_k";
        EvAddIndexKey 1 "k";
        EvPostResponse 0%nat (respond1 (io_request OP_PUT_RELEASE 2 "" 0 example_target) S_OK) ] ∧
  new_events (release 3) (run (release 2) one_writer_located)
    = [ EvPostResponse 0%nat (respond1 (io_request OP_PUT_RELEASE 3 "" 0 example_target) E_INVAL) ].
Proof. vm_compute. by split. Qed.

Lemma C9_create_only_twice_witness :
  ∃ s1 s2,
    process_ado_request example_constants 0%nat (ado_request 1 2 "new" 4) shard_with_key
      = (Ok tt, s1) ∧
    _trace s1 = _trace shard_with_key ++
      [ EvGetAttribute 1 "new";
        EvLock 1 "new" STORE_LOCK_WRITE 4;
        EvMemset 0x7f0000100000 0 4;
        EvUnlock 1 (Key_handle 1) UNLOCK_FLAGS_NONE;
        EvAllocateSend 0%nat;
        EvPostAdoResponse 0%nat
          {| arsp_request_id := 1; arsp_status := S_OK;
             arsp_payload := [Ado_value_address 0x7f0000100000] |} ] ∧
    MapStore.slots (_i_kvstore s1) !! (1, "new"%string)
      = Some (MapStore.Slot 0x7f0000100000 (replicate (Z.to_nat 4) 0) O false) ∧
    process_ado_request example_constants 0%nat (ado_request 2 2 "new" 4) s1 = (Ok tt, s2) ∧
    _trace s2 = _trace s1 ++
      [ EvGetAttribute 1 "new";
        EvAllocateSend 0%nat;
        EvPostAdoResponse 0%nat
          {| arsp_request_id := 2; arsp_status := E_ALREADY_EXISTS;
             arsp_payload := [Ado_message "ADO!ALREADY_EXISTS"] |} ] ∧
    _i_kvstore s2 = _i_kvstore s1.
Proof.
  apply (C9_create_only_twice example_constants shard_with_key 0%nat
           (ado_request 1 2 "new" 4) (ado_request 2 2 "new" 4)
           (Fabric.Transport 4 false 100) (Fabric.Transport 4 false 100)).
  - reflexivity.
  - reflexivity.
  - reflexivity.
  - reflexivity.
  - reflexivity.
  - reflexivity.
  - reflexivity.
  - simpl. lia.
  - by vm_compute.
  - reflexivity.
  - reflexivity.
Defined.


Example ado_not_enabled_message_text :
  ado_not_enabled_message true 2 = "ADO!NOT_ENABLED mgr 'present' load count 2"%string.
Proof. reflexivity. Qed.

(** The session of [shard_no_send_buffers]: the POOL OPEN request cannot get
    a send buffer, stays pending and unfreed through the tick, and is
    dispatched, answered and freed on a tick on which a buffer is there. *)
Example pool_open_retried :
  let x1 := after_tick shard_no_send_buffers in
  let x2 := after_tick (with_send_buffers 1 x1) in
  example_tick shard_no_send_buffers = Some (Ok tt, x1) ∧
  queues (shard x1) = [([pool_open_P], [])] ∧
  _xtrace x1 = [Ev (EvAllocateSend 0%nat)] ∧
  example_tick (with_send_buffers 1 x1) = Some (Ok tt, x2) ∧
  queues (shard x2) = [([], [pool_open_P])] ∧
  _xtrace x2 = [ Ev (EvAllocateSend 0%nat); Ev (EvAllocateSend 0%nat); Ev (EvOpenPool "P");
                 Ev (EvPostPoolResponse 0%nat
                       {| prsp_status := S_OK; prsp_pool_id := Some 1 |}) ].
Proof. vm_compute. by repeat split. Qed.

(** * Further properties of the shard *)

(** ** Region breaks and the offset search *)

Section SG_more.

Import SG.

Lemma region_breaks_from_lookup regions offset i r :
  regions !! i = Some r →
  region_breaks_from offset regions !! i
  = Some (Iovec (iov_base r) (u64 (offset + sum_iov_len (take (S i) regions)))).
Proof.
  revert offset i. induction regions as [|r0 rest IH]; intros offset i Hr; [done |].
  destruct i as [|i]; simpl in *.
  - injection Hr as ->. do 3 f_equal. lia.
  - rewrite (IH _ _ Hr). do 2 f_equal. unfold u64.
    rewrite Zplus_mod_idemp_l. f_equal. lia.
Qed.

Lemma length_region_breaks_from regions offset :
  length (region_breaks_from offset regions) = length regions.
Proof. revert offset. induction regions; intros; simpl; [done | by rewrite IHregions]. Qed.

(** X1. [region_breaks] keeps the number and the base addresses of the regions,
    and turns the length of the i-th region into the sum of the lengths of
    the regions up to and including it, in 64-bit arithmetic. *)
Theorem region_breaks_cumulative regions :
  length (region_breaks regions) = length regions ∧
  ∀ i r, regions !! i = Some r →
    region_breaks regions !! i
    = Some (Iovec (iov_base r) (u64 (sum_iov_len (take (S i) regions)))).
Proof.
  split; [apply length_region_breaks_from |].
  intros i r Hr. unfold region_breaks. by rewrite (region_breaks_from_lookup _ _ _ _ Hr).
Qed.

Lemma sorted_by_base_head e v e' :
  sorted_by_base (e :: v) = true → e' ∈ v → iov_base e ≤ iov_base e'.
Proof.
  revert e. induction v as [|e1 v IH]; intros e Hs Hin.
  - by apply elem_of_nil in Hin.
  - simpl in Hs. apply andb_prop in Hs as [Hle Hs]. apply Z.leb_le in Hle.
    apply elem_of_cons in Hin as [-> | Hin]; [done |].
    specialize (IH e1 Hs Hin). lia.
Qed.

Lemma sorted_by_base_tail e v : sorted_by_base (e :: v) = true → sorted_by_base v = true.
Proof. destruct v; [done |]. simpl. intros Hs. by apply andb_prop in Hs as [_ Hs]. Qed.

Lemma sorted_by_base_lookup v i j ei ej :
  sorted_by_base v = true → (i ≤ j)%nat →
  v !! i = Some ei → v !! j = Some ej → iov_base ei ≤ iov_base ej.
Proof.
  revert i j. induction v as [|e v IH]; intros i j Hs Hij Hi Hj; [done |].
  destruct i as [|i], j as [|j]; simpl in *; try lia.
  - injection Hi as ->. injection Hj as ->. lia.
  - injection Hi as ->. eapply sorted_by_base_head; [done |].
    by eapply list_elem_of_lookup_2.
  - eapply (IH i j); [by eapply sorted_by_base_tail | lia | done..].
Qed.

(** The invariant of the halving search: everything before [first] is at or
    below the value, everything from [first + len] on is above it. *)
Lemma upper_bound_loop_partition fuel v value first len :
  sorted_by_base v = true →
  (len ≤ fuel)%nat → (first + len ≤ length v)%nat →
  (∀ i e, v !! i = Some e → (i < first)%nat → iov_base e ≤ value) →
  (∀ i e, v !! i = Some e → (first + len ≤ i)%nat → value < iov_base e) →
  let r := upper_bound_loop fuel v value first len in
  (first ≤ r ≤ first + len)%nat ∧
  ∀ i e, v !! i = Some e → ((i < r)%nat ↔ iov_base e ≤ value).
Proof.
  intros Hs. revert first len.
  induction fuel as [|fuel IH]; intros first len Hfuel Hlen Hlo Hhi; simpl.
  - assert (len = 0%nat) as -> by lia. split; [lia |].
    intros i e Hi. split; [by apply Hlo |].
    intros Hle. destruct (decide (i < first)%nat); [done |].
    assert (value < iov_base e) by (apply (Hhi i); [done | lia]). lia.
  - destruct (Nat.eqb_spec len 0) as [-> | Hne].
    { split; [lia |]. intros i e Hi. split; [by apply Hlo |].
      intros Hle. destruct (decide (i < first)%nat); [done |].
      assert (value < iov_base e) by (apply (Hhi i); [done | lia]). lia. }
    assert (Nat.div2 len < len)%nat as Hhalf by (apply Nat.lt_div2; lia).
    assert (2 * Nat.div2 len ≤ len)%nat as Hdouble.
    { pose proof (Nat.div2_odd len) as Hodd. destruct (Nat.odd len); simpl in Hodd; lia. }
    set (half := Nat.div2 len) in *. clearbody half.
    destruct (v !! (first + half)%nat) as [m|] eqn:Hm.
    2: { apply lookup_ge_None in Hm. lia. }
    unfold comp. destruct (Z.ltb_spec value (iov_base m)) as [Hlt | Hge].
    + destruct (IH first half) as [Hr Hpart]; [lia | lia | done | | ].
      { intros i e Hi Hge'. pose proof (sorted_by_base_lookup v _ i m e Hs Hge' Hm Hi). lia. }
      split; [lia | done].
    + destruct (IH (S (first + half)) (len - half - 1)%nat)
        as [Hr Hpart]; [lia | lia | | | ].
      { intros i e Hi Hlt'.
        assert (i ≤ first + half)%nat as Hle by lia.
        pose proof (sorted_by_base_lookup v i _ e m Hs Hle Hi Hm). lia. }
      { intros i e Hi Hge'. apply (Hhi i); [done | lia]. }
      split; [lia | done].
Qed.

(** X2. On breaks whose base addresses do not decrease, the search of
    [offset_to_sg_list] returns the number of regions whose BASE ADDRESS is
    at or below the offset: the regions before the result are exactly those
    whose base address does not exceed it. *)
Theorem upper_bound_sorted v value :
  sorted_by_base v = true →
  (upper_bound v value ≤ length v)%nat ∧
  ∀ i e, v !! i = Some e → ((i < upper_bound v value)%nat ↔ iov_base e ≤ value).
Proof.
  intros Hs. unfold upper_bound.
  destruct (upper_bound_loop_partition (S (length v)) v value 0 (length v) Hs)
    as [Hr Hpart]; [lia | lia | intros; lia | | ].
  { intros i e Hi Hge. apply lookup_lt_Some in Hi. lia. }
  split; [lia | done].
Qed.

(** X3. Whenever the translation returns, both offsets were found at the same
    break; the list has exactly one element, which starts in that break's
    region at the offset less the previous break and is as long as the range
    less the excess; and the range to register is that of this element. *)
Theorem offset_to_sg_list_returned fuel t_first t_second rb r :
  offset_to_sg_list fuel t_first t_second rb = Returned r →
  ∃ e, upper_bound rb t_first = upper_bound rb t_second ∧
       rb !! upper_bound rb t_first = Some e ∧ iov_base e ≠ 0 ∧
       let p := prev_break rb (upper_bound rb t_first) in
       let a := u64 (iov_base e + u64 (t_first - p)) in
       sg_list r = [Locate_element a (u64 (u64 (t_second - t_first) - excess_length r))] ∧
       mr_low r = a ∧
       mr_high r = u64 (iov_base e + u64 (t_second - p) - excess_length r) ∧
       excess_length r
       = (if iov_len e <? u64 (t_second - p) then u64 (u64 (t_second - p) - iov_len e) else 0).
Proof.
  unfold offset_to_sg_list.
  destruct (decide (upper_bound rb t_first = upper_bound rb t_second)) as [Heq|Hne].
  - rewrite <- Heq, sg_loop_skip.
    destruct (rb !! upper_bound rb t_first) as [e|]; [| done].
    destruct (Z.eqb_spec (iov_base e) 0) as [| Hbase]; [done |].
    intros [= <-]. exists e. repeat split; try done; simpl.
    + f_equal. f_equal. apply single_element_length.
    + unfold UINT64_MAX, u64.
      pose proof (Z.mod_pos_bound (iov_base e + (t_first - prev_break rb (upper_bound rb t_first)) mod 2 ^ 64) (2 ^ 64)).
      lia.
    + unfold u64.
      match goal with |- Z.max 0 (?z mod _) = _ =>
        pose proof (Z.mod_pos_bound z (2 ^ 64)) end.
      lia.
  - destruct (sg_loop_stuck fuel rb _ _ (u64 (t_first - prev_break rb (upper_bound rb t_first)))
                UINT64_MAX 0 [] Hne) as [o [-> Ho]].
    intros ->. done.
Qed.

Lemma region_breaks_from_bases offset regions e :
  e ∈ region_breaks_from offset regions → ∃ r, r ∈ regions ∧ iov_base e = iov_base r.
Proof.
  revert offset. induction regions as [|r0 rest IH]; intros offset He; simpl in He.
  - by apply elem_of_nil in He.
  - apply elem_of_cons in He as [-> | He].
    + exists r0. split; [left | done].
    + destruct (IH _ He) as (r & Hr & Hb). exists r. split; [by right | done].
Qed.

(** X4. A range that starts inside the first region, in a pool all of whose
    regions are mapped above the range's end offset, resolves to the first
    region: one element that starts [offset] bytes into it and stops at the
    end of the range or of the region, whichever comes first; what lies
    beyond the region is reported as excess; every byte of the element
    belongs to the region; and the range to register is the element's. *)
Theorem locate_sg_first_region fuel r0 rest offset size :
  (∀ r, r ∈ r0 :: rest → offset + size < iov_base r) →
  0 ≤ offset → 0 ≤ size → offset ≤ iov_len r0 →
  iov_base r0 + iov_len r0 < 2 ^ 64 →
  let excess := Z.max 0 (offset + size - iov_len r0) in
  let e := Locate_element (iov_base r0 + offset) (size - excess) in
  locate_sg fuel (r0 :: rest) offset size
  = Returned (Sg_result [e] (iov_base r0 + offset)
                (iov_base r0 + offset + size - excess) excess)
  ∧ element_within r0 e.
Proof.
  intros Hbases Hoff Hsize Hin Hfit excess e.
  pose proof (Hbases r0 ltac:(left)) as Hb0.
  assert (u64 (offset + size) = offset + size) as Hend.
  { unfold u64. apply Z.mod_small. lia. }
  assert (∀ value, value ≤ offset + size →
            upper_bound (region_breaks (r0 :: rest)) value = 0%nat) as Hub.
  { intros value Hv. apply upper_bound_below_bases; [| lia].
    intros b Hb. apply region_breaks_from_bases in Hb as (r & Hr & ->).
    specialize (Hbases r Hr). lia. }
  split.
  - unfold locate_sg, offset_to_sg_list.
    rewrite Hend, !Hub by lia. rewrite sg_loop_skip. simpl.
    destruct (Z.eqb_spec (iov_base r0) 0) as [| _]; [lia |].
    rewrite !Z.sub_0_r, Hend.
    assert (u64 (0 + iov_len r0) = iov_len r0) as Hlen0.
    { unfold u64. rewrite Z.add_0_l. apply Z.mod_small. lia. }
    assert (u64 offset = offset) as Hoff0.
    { unfold u64. apply Z.mod_small. lia. }
    rewrite Hlen0, Hoff0.
    assert ((if iov_len r0 <? offset + size then u64 (offset + size - iov_len r0) else 0)
            = excess) as ->.
    { subst excess. destruct (Z.ltb_spec (iov_len r0) (offset + size)).
      - unfold u64. rewrite Z.mod_small by lia. lia.
      - lia. }
    assert (0 ≤ excess ≤ size) by (subst excess; lia).
    assert (offset + size - excess ≤ iov_len r0) by (subst excess; lia).
    assert (u64 (iov_base r0 + offset) = iov_base r0 + offset) as ->.
    { unfold u64. apply Z.mod_small. lia. }
    assert (u64 (iov_base r0 + (offset + size) - excess)
            = iov_base r0 + offset + size - excess) as ->.
    { unfold u64. rewrite Z.mod_small by lia. lia. }
    assert (u64 (iov_base r0 + offset + size - excess - (iov_base r0 + offset))
            = size - excess) as ->.
    { unfold u64. rewrite Z.mod_small by lia. lia. }
    subst e. do 2 f_equal; unfold UINT64_MAX; lia.
  - intros a. subst e excess. simpl. lia.
Qed.

(** X24. The translation cannot get past a base address. On breaks whose base
    addresses do not decrease, a range whose first offset lies below the
    base address of some region and whose second offset lies at or above it
    makes the two searches end at different breaks, and the call does not
    return, whatever the fuel: it runs on, or fails at an iterator or an
    assertion. *)
Theorem offset_to_sg_list_stuck_across_base fuel t_first t_second rb e :
  sorted_by_base rb = true →
  e ∈ rb →
  t_first < iov_base e ≤ t_second →
  upper_bound rb t_first ≠ upper_bound rb t_second ∧
  not_returned (offset_to_sg_list fuel t_first t_second rb).
Proof.
  intros Hs He [Hlo Hhi].
  apply list_elem_of_lookup in He as [i Hi].
  assert (∀ value, (i < upper_bound rb value)%nat ↔ iov_base e ≤ value) as Hpart.
  { intros value. unfold upper_bound.
    destruct (upper_bound_loop_partition (S (length rb)) rb value 0 (length rb) Hs)
      as [_ Hpart]; [lia | lia | intros; lia | | by apply Hpart].
    intros j ej Hj Hge. apply lookup_lt_Some in Hj. lia. }
  assert (upper_bound rb t_first ≠ upper_bound rb t_second) as Hne.
  { pose proof (proj2 (Hpart t_second) Hhi).
    assert (¬ (i < upper_bound rb t_first)%nat) by (rewrite Hpart; lia).
    lia. }
  split; [done |]. unfold offset_to_sg_list.
  destruct (sg_loop_stuck fuel rb _ _ (u64 (t_first - prev_break rb (upper_bound rb t_first)))
              UINT64_MAX 0 [] Hne) as [o [-> Ho]].
  done.
Qed.

End SG_more.

(** The two example regions' breaks are sorted; the search for an offset,
    0x100, finds no base address at or below it. *)
Lemma upper_bound_sorted_witness :
  sorted_by_base (SG.region_breaks SG.two_regions) = true ∧
  (SG.upper_bound (SG.region_breaks SG.two_regions) 0x100
   ≤ length (SG.region_breaks SG.two_regions))%nat.
Proof.
  split; [reflexivity |].
  apply (upper_bound_sorted (SG.region_breaks SG.two_regions) 0x100). reflexivity.
Defined.

Lemma offset_to_sg_list_returned_witness :
  ∃ e, SG.region_breaks SG.two_regions !! SG.upper_bound (SG.region_breaks SG.two_regions) 4096
       = Some e ∧ SG.iov_base e ≠ 0.
Proof.
  destruct (offset_to_sg_list_returned 0 4096 8192 (SG.region_breaks SG.two_regions)
              (SG.Sg_result [SG.Locate_element (0x10000000000 + 4096) 4096]
                 (0x10000000000 + 4096) (0x10000000000 + 8192) 0))
    as (e & _ & He & Hbase & _); [reflexivity |].
  by exists e.
Defined.

(** LOCATE(4096, 8 MiB) on the two example regions: the last 4096 bytes lie
    beyond the first region. *)
Lemma locate_sg_first_region_witness :
  SG.locate_sg 0 SG.two_regions 4096 (8 * SG.MiB)
  = SG.Returned (SG.Sg_result [SG.Locate_element (0x10000000000 + 4096) (8 * SG.MiB - 4096)]
                   (0x10000000000 + 4096) (0x10000000000 + 8 * SG.MiB) 4096).
Proof.
  apply (locate_sg_first_region 0 (SG.Iovec 0x10000000000 (8 * SG.MiB))
           [SG.Iovec 0x20000000000 (8 * SG.MiB)] 4096 (8 * SG.MiB)).
  - intros r Hr. rewrite !elem_of_cons in Hr.
    destruct Hr as [-> | [-> | Hr]]; [reflexivity | reflexivity | by apply elem_of_nil in Hr].
  - by vm_compute.
  - by vm_compute.
  - by vm_compute.
  - reflexivity.
Defined.

(** ** The registry of located spaces and the requests by offset *)

Section Space_properties.

Context {B T Tk : Type} `{!IKVStore B} `{!IKVStore_more B} `{!Connection_base T}
        `{!Shard_task Tk}.
Implicit Types x : ShardX B T Tk.

Ltac run_x :=
  unfold add_space_shared, release_space_shared, remove_index_key, xemit,
         store_put, store_flush_pool_memory, on_kvstore_more,
         try_catch, bind, ret, throw, gets, modify; simpl.

(** What a lifted computation does, given what it does on the shard. *)
Lemma lift_run {A} (c : M (Shard B T) A) x r s' evs :
  c (shard x) = (r, s') →
  _trace s' = _trace (shard x) ++ evs →
  lift c x = (r, xlog (Ev <$> evs) (set_shard s' x)).
Proof. intros Hc Htr. unfold lift. by rewrite Hc, Htr, drop_app_length. Qed.

Lemma lift_respond2 handler msg status x :
  lift (respond2 handler msg status) x
  = (Ok tt, xlog [Ev (EvPostResponse handler (respond1 msg status))]
              (set_shard (log (EvPostResponse handler (respond1 msg status)) (shard x)) x)).
Proof. by apply (lift_run _ _ _ _ [EvPostResponse handler (respond1 msg status)]). Qed.

Lemma lift_add_index_key pool key x :
  lift (add_index_key pool key) x
  = (Ok tt, xlog [Ev (EvAddIndexKey pool key)]
              (set_shard (log (EvAddIndexKey pool key) (shard x)) x)).
Proof. by apply (lift_run _ _ _ _ [EvAddIndexKey pool key]). Qed.

Lemma lift_get_pool_regions pool x r b :
  kv_get_pool_regions pool (_i_kvstore (shard x)) = (r, b) →
  lift (store_get_pool_regions pool) x
  = (Ok r, xlog [Ev (EvGetPoolRegions pool)]
             (set_shard (set_kvstore b (log (EvGetPoolRegions pool) (shard x))) x)).
Proof.
  intros Hr. apply (lift_run _ _ _ _ [EvGetPoolRegions pool]); [| done].
  unfold store_get_pool_regions, on_kvstore. by rewrite Hr.
Qed.

Lemma lift_memory_registered handler base n x r t :
  memory_register handler base n (_transport (shard x)) = (r, t) →
  lift (make_memory_registered handler base n) x
  = (match r with Some key => Ok key | None => Throw Std_exception end,
     xlog [Ev (EvRegister handler base n)]
       (set_shard (set_transport t (log (EvRegister handler base n) (shard x))) x)).
Proof.
  intros Hr. apply (lift_run _ _ _ _ [EvRegister handler base n]); [| by destruct r].
  unfold make_memory_registered. rewrite Hr. by destruct r.
Qed.

(** Every entry of the space registry counts at least one holder. *)
Lemma emplace_space_lookup range_ mr m :
  emplace_space range_ mr m !! range_
  = Some (match m !! range_ with
          | Some i => Space_rec (sp_mr i) (sp_count i + 1)
          | None => Space_rec mr 1
          end).
Proof. unfold emplace_space. rewrite lookup_insert_eq. by destruct (m !! range_). Qed.

(** X5. The space registry counts the holders of a range: a range that is not
    registered cannot be released, the attempt throws and changes nothing;
    adding a range and releasing it again leaves the registry as it was,
    whether the range was registered before or not; and neither operation
    ever leaves an entry with no holder. *)
Theorem space_registry_counts range_ mr x :
  (∀ r i, _spaces_shared x !! r = Some i → 1 ≤ sp_count i) →
  (_spaces_shared x !! range_ = None →
   release_space_shared range_ x = (Throw Logic_exception, x)) ∧
  (∃ x1 x2, add_space_shared range_ mr x = (Ok tt, x1) ∧
            release_space_shared range_ x1 = (Ok tt, x2) ∧
            _spaces_shared x2 = _spaces_shared x ∧
            (∀ r i, _spaces_shared x1 !! r = Some i → 1 ≤ sp_count i)) ∧
  (∀ x', release_space_shared range_ x = (Ok tt, x') →
         ∀ r i, _spaces_shared x' !! r = Some i → 1 ≤ sp_count i).
Proof.
  intros Hinv. split; [| split].
  - intros Hnone. run_x. by rewrite Hnone.
  - destruct (_spaces_shared x !! range_) as [i|] eqn:Hi.
    + pose proof (Hinv _ _ Hi).
      eexists _, _. split; [reflexivity |]. run_x.
      rewrite emplace_space_lookup, Hi. simpl.
      destruct (Z.eqb_spec (sp_count i + 1 - 1) 0); [lia |].
      split; [reflexivity |]. simpl. split.
      * unfold emplace_space. rewrite Hi, insert_insert_eq.
        replace (sp_count i + 1 - 1) with (sp_count i) by lia.
        destruct i. by apply insert_id.
      * intros r j. unfold emplace_space. rewrite Hi.
        destruct (decide (range_ = r)) as [<-|Hne].
        -- rewrite lookup_insert_eq. intros [= <-]. simpl. lia.
        -- rewrite lookup_insert_ne by done. apply Hinv.
    + eexists _, _. split; [reflexivity |]. run_x.
      rewrite emplace_space_lookup, Hi. simpl.
      split; [reflexivity |]. simpl. split.
      * unfold emplace_space. rewrite Hi. by rewrite delete_insert_id.
      * intros r j. unfold emplace_space. rewrite Hi.
        destruct (decide (range_ = r)) as [<-|Hne].
        -- rewrite lookup_insert_eq. intros [= <-]. simpl. lia.
        -- rewrite lookup_insert_ne by done. apply Hinv.
  - intros x'. run_x.
    destruct (_spaces_shared x !! range_) as [i|] eqn:Hi; simpl; [| done].
    pose proof (Hinv _ _ Hi).
    destruct (Z.eqb_spec (sp_count i - 1) 0); intros [= <-] r j; simpl.
    + destruct (decide (range_ = r)) as [<-|Hne]; [by rewrite lookup_delete_eq |].
      rewrite lookup_delete_ne by done. apply Hinv.
    + destruct (decide (range_ = r)) as [<-|Hne].
      * rewrite lookup_insert_eq. intros [= <-]. simpl. lia.
      * rewrite lookup_insert_ne by done. apply Hinv.
Qed.

Lemma excess_length_range fuel t_first t_second rb sgr :
  SG.offset_to_sg_list fuel t_first t_second rb = SG.Returned sgr →
  0 ≤ SG.excess_length sgr < 2 ^ 64.
Proof.
  intros (e & _ & _ & _ & _ & _ & _ & ->)%offset_to_sg_list_returned.
  destruct (_ <? _); [apply u64_range | lia].
Qed.



End Space_properties.

(** ** One response for each request *)

Section Reply_properties.

Context {B T : Type} `{!IKVStore B} `{!Connection_base T}.
Variable K : constants.
Implicit Types s : Shard B T.

Ltac run_handler :=
  unfold replies_once, run,
         io_response_get, io_response_get_locate, io_response_get_release,
         io_response_put_locate, io_response_put_release,
         release_locked_value_shared, release_locked_value_exclusive,
         release_pending_rename, add_pending_rename,
         locked_key_destructor, respond2, add_index_key,
         add_locked_value_shared, add_locked_value_exclusive,
         make_memory_registered, store_lock, store_unlock, store_swap_keys,
         store_erase, on_kvstore,
         emit, assert_, try_catch, bind, ret, throw, gets, modify.

Ltac reply_leaf :=
  simpl; rewrite <- ?app_assoc; simpl;
  eexists; (split; [first [reflexivity | symmetry; apply app_nil_r] |]); simpl; try done.

Ltac reply_cases := repeat (simpl; case_match; simplify_eq/=); reply_leaf.

Lemma get_replies_once handler msg s : replies_once (io_response_get K handler msg) s.
Proof. run_handler. reply_cases. Qed.

Lemma get_locate_replies_once handler msg s :
  replies_once (io_response_get_locate handler msg) s.
Proof. run_handler. reply_cases. Qed.

Lemma get_release_replies_once handler msg s :
  replies_once (io_response_get_release handler msg) s.
Proof. run_handler. reply_cases. Qed.

Lemma put_locate_replies_once handler msg s :
  replies_once (io_response_put_locate K handler msg) s.
Proof. run_handler. reply_cases. Qed.

Lemma put_release_replies_once handler msg s :
  replies_once (io_response_put_release handler msg) s.
Proof. run_handler. reply_cases. Qed.

(** X8. GET, GET_LOCATE, GET_RELEASE, PUT_LOCATE and PUT_RELEASE, whatever the
    state of the shard and whatever the backend and the transport answer:
    a handler that returns has posted exactly one response; the only other
    way out is a failed assertion, with nothing posted; no exception is
    thrown. *)
Theorem io_handlers_reply_once handler msg s :
  replies_once (io_response_get K handler msg) s ∧
  replies_once (io_response_get_locate handler msg) s ∧
  replies_once (io_response_get_release handler msg) s ∧
  replies_once (io_response_put_locate K handler msg) s ∧
  replies_once (io_response_put_release handler msg) s.
Proof.
  split; [apply get_replies_once |].
  split; [apply get_locate_replies_once |].
  split; [apply get_release_replies_once |].
  split; [apply put_locate_replies_once | apply put_release_replies_once].
Qed.

End Reply_properties.

(** ** RELEASE_WITH_FLUSH, PUT and ERASE, and the switch on the operation *)

Section Request_properties.

Context {B T Tk : Type} `{!IKVStore B} `{!IKVStore_more B} `{!Connection_base T}
        `{!Shard_task Tk}.
Variable K : constants.
Implicit Types x : ShardX B T Tk.

Ltac run_x :=
  unfold add_space_shared, release_space_shared, remove_index_key, xemit,
         store_put, store_flush_pool_memory, on_kvstore_more,
         try_catch, bind, ret, throw, gets, modify; simpl.



Variable process_configure :
  Message_IO_request → option (gset Z) → B → result status_t * (option (gset Z) * B).

Lemma count_xevents_Ev evs :
  count_xevents is_xpost_event (Ev <$> evs) = count_events is_post_event evs.
Proof.
  unfold count_xevents, count_events.
  induction evs as [|e evs IH]; [done |].
  rewrite fmap_cons, !filter_cons. simpl.
  destruct (decide (is_post_event e = true)); simpl; by rewrite IH.
Qed.

Lemma count_xevents_app p l1 l2 :
  count_xevents p (l1 ++ l2) = (count_xevents p l1 + count_xevents p l2)%nat.
Proof. unfold count_xevents. by rewrite filter_app, length_app. Qed.

(** The calls of a handler of the shard above that is run by the switch. *)
Lemma lift_replies_once (c : M (Shard B T) unit) x r x1 :
  replies_once c (shard x) →
  lift c x = (r, x1) →
  ∃ evs, _xtrace x1 = _xtrace x ++ evs ∧
         count_xevents is_xpost_event evs = match r with Ok _ => 1%nat | Throw _ => 0%nat end.
Proof.
  intros (evs & Htr & Hcount). unfold lift, run in *.
  destruct (c (shard x)) as [r' s'] eqn:Hc. simpl in *.
  intros [= <- <-]. rewrite Htr, drop_app_length. simpl.
  eexists. split; [reflexivity |]. rewrite count_xevents_Ev.
  destruct r' as [[]|e]; [done | by destruct Hcount].
Qed.

(** An operation's events, after those of taking the send buffer. *)
Lemma after_allocate_send handler x (x1 x2 : ShardX B T Tk) evs n :
  _xtrace x1 = _xtrace x ++ [Ev (EvAllocateSend handler)] →
  _xtrace x2 = _xtrace x1 ++ evs →
  count_xevents is_xpost_event evs = n →
  ∃ evs', _xtrace x2 = _xtrace x ++ evs' ∧ count_xevents is_xpost_event evs' = n.
Proof.
  intros H1 H2 Hn. exists ([Ev (EvAllocateSend handler)] ++ evs).
  rewrite H2, H1, <- app_assoc. split; [done |].
  by rewrite count_xevents_app.
Qed.

(** The responses of an IO request whose handler returns or throws. *)
Lemma IO_request_posts fuel handler rq x r x1 :
  process_message_IO_request K process_configure fuel handler rq x = Some (r, x1) →
  ∃ evs, _xtrace x1 = _xtrace x ++ evs ∧
         count_xevents is_xpost_event evs = match r with Ok _ => 1%nat | Throw _ => 0%nat end.
Proof.
  unfold process_message_IO_request.
  destruct (lift (handler_allocate_send handler) x) as [ra xa] eqn:Halloc.
  assert (_xtrace xa = _xtrace x ++ [Ev (EvAllocateSend handler)] ∧
          (ra = Ok tt ∨ ra = Throw Resource_unavailable)) as [Htra Hra].
  { unfold lift, handler_allocate_send in Halloc.
    destruct (allocate_send handler (_transport (shard x))) as [[] t]; simpl in Halloc;
      rewrite drop_app_length in Halloc; injection Halloc as <- <-; auto. }
  destruct Hra as [-> | ->].
  2:{ simpl. intros ?; simplify_eq/=. exists [Ev (EvAllocateSend handler)]. done. }
  simpl. destruct (io_op (rq_msg rq)) eqn:Hop.
  - intros [= Hrun].
    destruct (lift_replies_once _ _ _ _ (put_locate_replies_once K handler _ _) Hrun)
      as (evs & Htr & Hn).
    by eapply after_allocate_send.
  - intros [= Hrun].
    destruct (lift_replies_once _ _ _ _ (put_release_replies_once handler _ _) Hrun)
      as (evs & Htr & Hn).
    by eapply after_allocate_send.
  - intros [= Hrun].
    destruct (lift_replies_once _ _ _ _ (get_locate_replies_once handler _ _) Hrun)
      as (evs & Htr & Hn).
    by eapply after_allocate_send.
  - intros [= Hrun].
    destruct (lift_replies_once _ _ _ _ (get_release_replies_once handler _ _) Hrun)
      as (evs & Htr & Hn).
    by eapply after_allocate_send.
  - (* LOCATE *)
    unfold io_response_locate.
    destruct (kv_get_pool_regions (io_pool_id (rq_msg rq)) (_i_kvstore (shard xa)))
      as [[status regions] b1] eqn:Hregions.
    rewrite (lift_get_pool_regions _ _ _ _ Hregions). simpl.
    case_bool_decide as Hstatus; [subst status |].
    + destruct (SG.offset_to_sg_list _ _ _ _) as [sgr| | |]; [| done | done |].
      * unfold bind at 1. unfold try_catch, bind at 1.
        destruct (memory_register handler (SG.mr_low sgr)
                    (u64 (SG.mr_high sgr - SG.mr_low sgr)) (_transport (shard xa)))
          as [[key|] t1] eqn:Hreg.
        -- rewrite (lift_memory_registered handler _ _ _ (Some key) t1) by exact Hreg.
           run_x. intros ?; simplify_eq/=. simpl. rewrite Htra, <- !app_assoc. simpl.
           eexists. split; [reflexivity | done].
        -- rewrite (lift_memory_registered handler _ _ _ None t1) by exact Hreg.
           simpl. rewrite lift_respond2.
           intros ?; simplify_eq/=. simpl. rewrite Htra, <- !app_assoc. simpl.
           eexists. split; [reflexivity | done].
      * intros ?; simplify_eq/=. simpl. rewrite Htra, <- !app_assoc. simpl.
        eexists. split; [reflexivity | done].
    + rewrite lift_respond2.
      intros ?; simplify_eq/=. simpl. rewrite Htra, <- !app_assoc. simpl.
      eexists. split; [reflexivity | done].
  - (* RELEASE *)
    unfold io_response_release. run_x.
    destruct (_spaces_shared xa !! _) as [i|]; simpl.
    + destruct (sp_count i - 1 =? 0); simpl; rewrite lift_respond2;
        intros ?; simplify_eq/=; simpl; rewrite Htra, <- !app_assoc; simpl;
        (eexists; split; [reflexivity | done]).
    + rewrite lift_respond2.
      intros ?; simplify_eq/=. simpl. rewrite Htra, <- !app_assoc. simpl.
      eexists. split; [reflexivity | done].
  - (* RELEASE_WITH_FLUSH *)
    unfold io_response_release_with_flush.
    destruct (kv_get_pool_regions (io_pool_id (rq_msg rq)) (_i_kvstore (shard xa)))
      as [[status regions] b1] eqn:Hregions.
    rewrite (lift_get_pool_regions _ _ _ _ Hregions). simpl.
    case_bool_decide as Hstatus; [subst status |].
    + destruct (SG.offset_to_sg_list _ _ _ _) as [sgr| | |] eqn:Hsg; [| done | done |].
      * destruct (offset_to_sg_list_returned _ _ _ _ _ Hsg) as (e0 & _ & _ & _ & Hlist & _).
        simpl in Hlist. rewrite Hlist. simpl. run_x.
        destruct (kv_flush_pool_memory _ _ _ _) as [s2 b2]. simpl.
        destruct (_spaces_shared xa !! _) as [i|]; simpl.
        -- destruct (sp_count i - 1 =? 0); simpl; rewrite lift_respond2;
             intros ?; simplify_eq/=; simpl; rewrite Htra, <- !app_assoc; simpl;
             (eexists; split; [reflexivity | done]).
        -- rewrite lift_respond2.
           intros ?; simplify_eq/=. simpl. rewrite Htra, <- !app_assoc. simpl.
           eexists. split; [reflexivity | done].
      * intros ?; simplify_eq/=. simpl. rewrite Htra, <- !app_assoc. simpl.
        eexists. split; [reflexivity | done].
    + rewrite lift_respond2.
      intros ?; simplify_eq/=. simpl. rewrite Htra, <- !app_assoc. simpl.
      eexists. split; [reflexivity | done].
  - (* PUT *)
    unfold io_response_put. run_x.
    destruct (io_is_scbe (rq_msg rq)); simpl.
    + rewrite lift_respond2.
      intros ?; simplify_eq/=. simpl. rewrite Htra, <- !app_assoc. simpl.
      eexists. split; [reflexivity | done].
    + destruct (kv_put _ _ _ _ _ _) as [status b1]. simpl.
      rewrite drop_app_length. simpl. rewrite lift_respond2.
      intros ?; simplify_eq/=. simpl. rewrite Htra, <- !app_assoc. simpl.
      eexists. split; [reflexivity | done].
  - intros [= Hrun].
    destruct (lift_replies_once _ _ _ _ (get_replies_once K handler _ _) Hrun)
      as (evs & Htr & Hn).
    by eapply after_allocate_send.
  - (* ERASE *)
    unfold io_response_erase. run_x.
    destruct (kv_erase (io_pool_id (rq_msg rq)) (io_skey (rq_msg rq)) (_i_kvstore (shard xa)))
      as [status b1] eqn:Herase.
    rewrite (lift_run (store_erase _ _) xa (Ok status)
               (set_kvstore b1 (log (EvErase (io_pool_id (rq_msg rq)) (io_skey (rq_msg rq)))
                                    (shard xa)))
               [EvErase (io_pool_id (rq_msg rq)) (io_skey (rq_msg rq))]).
    2: { unfold store_erase, on_kvstore. by rewrite Herase. }
    2: done.
    simpl. destruct (bool_decide (status = S_OK)); simpl; rewrite lift_respond2;
      intros ?; simplify_eq/=; simpl; rewrite Htra, <- !app_assoc; simpl;
      (eexists; split; [reflexivity | done]).
  - (* CONFIGURE *)
    unfold io_response_configure, run_process_configure. unfold bind.
    destruct (process_configure (rq_msg rq) (_index_map xa) (_i_kvstore (shard xa)))
      as [[status|e] [im b]].
    + rewrite lift_respond2. intros ?; simplify_eq/=. simpl.
      rewrite Htra, <- !app_assoc. simpl. eexists. split; [reflexivity | done].
    + intros ?; simplify_eq/=. exists [Ev (EvAllocateSend handler)]. done.
  - intros ?; simplify_eq/=. exists [Ev (EvAllocateSend handler)]. done.
Qed.

(** The requests whose handler does not return. *)
Lemma IO_request_runs_on fuel handler rq x :
  process_message_IO_request K process_configure fuel handler rq x = None →
  (io_op (rq_msg rq) = OP_LOCATE ∨ io_op (rq_msg rq) = OP_RELEASE_WITH_FLUSH) ∧
  ∃ t regions b,
    allocate_send handler (_transport (shard x)) = (true, t) ∧
    kv_get_pool_regions (io_pool_id (rq_msg rq)) (_i_kvstore (shard x))
    = ((S_OK, regions), b) ∧
    SG.not_returned
      (SG.offset_to_sg_list fuel (rq_offset rq) (u64 (rq_offset rq + rq_size rq))
                            (SG.region_breaks regions)).
Proof.
  unfold process_message_IO_request, lift at 1, handler_allocate_send.
  destruct (allocate_send handler (_transport (shard x))) as [[] t] eqn:Halloc;
    simpl; [| done].
  set (xa := xlog _ _).
  destruct (kv_get_pool_regions (io_pool_id (rq_msg rq)) (_i_kvstore (shard x)))
    as [[status regions] b] eqn:Hregions.
  destruct (io_op (rq_msg rq)); try done.
  - unfold io_response_locate.
    rewrite (lift_get_pool_regions _ xa (status, regions) b) by exact Hregions. simpl.
    case_bool_decide as Hstatus; [subst status | done].
    destruct (SG.offset_to_sg_list _ _ _ _) eqn:Hsg; try done;
      intros _; (split; [by left |]); exists t, regions, b; by rewrite Hsg.
  - unfold io_response_release_with_flush.
    rewrite (lift_get_pool_regions _ xa (status, regions) b) by exact Hregions. simpl.
    case_bool_decide as Hstatus; [subst status | done].
    destruct (SG.offset_to_sg_list _ _ _ _) eqn:Hsg; try done;
      intros _; (split; [by right |]); exists t, regions, b; by rewrite Hsg.
Qed.

(** X11. An IO request is answered at most once, and exactly once when its
    handler returns. Whatever the operation, the state of the shard and the
    answers of the backend and the transport: when
    [process_message_IO_request] returns it has posted exactly one response,
    and when it throws (no send buffer, an operation that is not
    implemented, a failed assertion, an exception of [process_configure]) it
    has posted none. It fails to return in one case only: the operation is
    LOCATE or RELEASE_WITH_FLUSH, the send buffer has been taken, the
    backend has given the regions of the pool, and the translation of the
    requested range does not return. *)
Theorem IO_request_answered_once fuel handler rq x :
  match process_message_IO_request K process_configure fuel handler rq x with
  | Some (r, x1) =>
      ∃ evs, _xtrace x1 = _xtrace x ++ evs ∧
             count_xevents is_xpost_event evs
             = match r with Ok _ => 1%nat | Throw _ => 0%nat end
  | None =>
      (io_op (rq_msg rq) = OP_LOCATE ∨ io_op (rq_msg rq) = OP_RELEASE_WITH_FLUSH) ∧
      ∃ t regions b,
        allocate_send handler (_transport (shard x)) = (true, t) ∧
        kv_get_pool_regions (io_pool_id (rq_msg rq)) (_i_kvstore (shard x))
        = ((S_OK, regions), b) ∧
        SG.not_returned
          (SG.offset_to_sg_list fuel (rq_offset rq) (u64 (rq_offset rq + rq_size rq))
                                (SG.region_breaks regions))
  end.
Proof.
  destruct (process_message_IO_request K process_configure fuel handler rq x)
    as [[r x1]|] eqn:Hrun.
  - by eapply IO_request_posts.
  - by apply IO_request_runs_on.
Qed.

End Request_properties.

(** ** Closing and deleting pools *)

Section Pool_more_properties.

Context {B T Tk : Type} `{!IKVStore B} `{!IKVStore_more B} `{!Connection_base T}
        `{!Shard_task Tk}.
Implicit Types x : ShardX B T Tk.

Ltac run_pool_x :=
  unfold process_message_pool_request_more, pool_request_OP_CLOSE, pool_request_OP_DELETE,
         store_close_pool, store_delete_pool, on_kvstore_more, xemit,
         lift, get_pool_manager, update_pool_manager, handler_pool_manager,
         handler_allocate_send, emit, assert_,
         try_catch, bind, ret, throw, gets, modify; simpl.

(** The pool manager of a session after one of its references to a pool
    has been released. *)
Lemma released_pool_manager handler c (hs : list Connection_handler) pool :
  hs !! handler = Some c →
  pool_manager <$>
    alter (λ c, set_pool_manager (release_pool_reference pool (pool_manager c)).2 c) handler hs
    !! handler
  = Some (release_pool_reference pool (pool_manager c)).2.
Proof.
  intros Hc. rewrite list_lookup_alter, decide_True by done. by rewrite Hc.
Qed.

(** X12. OP_CLOSE pairs with the opens of the session. Closing a pool the
    session holds more than once only lowers the session's count: the reply
    is S_OK and the backend is not called. Closing the last reference
    removes the pool from the session's table and its name index, closes
    the pool at the backend, once, and replies with the backend's status.
    Closing a pool the session does not hold is answered E_INVAL and
    changes neither the table nor the backend. *)
Theorem pool_close_counts handler msg x c t1 :
  plm_op msg = OP_CLOSE →
  allocate_send handler (_transport (shard x)) = (true, t1) →
  _handlers (shard x) !! handler = Some c →
  ∃ x1 evs status,
    process_message_pool_request_more handler msg x = (Ok tt, x1) ∧
    _xtrace x1 = _xtrace x ++
      Ev (EvAllocateSend handler) :: evs ++
      [Ev (EvPostPoolResponse handler {| prsp_status := status; prsp_pool_id := None |})] ∧
    match open_pool_set (pool_manager c) !! plm_pool_id msg with
    | None =>
        status = E_INVAL ∧ evs = [] ∧
        _i_kvstore (shard x1) = _i_kvstore (shard x) ∧
        handler_pool_manager handler (shard x1) = Some (pool_manager c)
    | Some r =>
        ∃ pm, handler_pool_manager handler (shard x1) = Some pm ∧
          if pr_refcount r =? 1 then
            (status, _i_kvstore (shard x1))
              = kv_close_pool (plm_pool_id msg) (_i_kvstore (shard x)) ∧
            evs = (if _ado_enabled (shard x) then [EvAdoPoolClosed (plm_pool_id msg)] else [])
                  ++ [EvClosePool (plm_pool_id msg)] ∧
            is_pool_open (plm_pool_id msg) pm = false ∧
            check_for_open_pool (pr_name r) pm = None
          else
            status = S_OK ∧ evs = [] ∧
            _i_kvstore (shard x1) = _i_kvstore (shard x) ∧
            pool_reference_count (plm_pool_id msg) pm = Some (pr_refcount r - 1) ∧
            check_for_open_pool (pr_name r) pm = check_for_open_pool (pr_name r) (pool_manager c)
    end.
Proof.
  intros Hop Halloc Hc. run_pool_x. rewrite Hop. simpl. rewrite Halloc. simpl. rewrite Hc. simpl.
  unfold is_pool_open.
  destruct (open_pool_set (pool_manager c) !! plm_pool_id msg) as [r|] eqn:Hr.
  - rewrite bool_decide_eq_true_2 by eauto. simpl.
    unfold release_pool_reference at 1. rewrite Hr.
    destruct (Z.eqb_spec (pr_refcount r) 1) as [Hone | Hmore]; simpl.
    + destruct (kv_close_pool (plm_pool_id msg) (_i_kvstore (shard x))) as [rc b1] eqn:Hclose.
      destruct (_ado_enabled (shard x)); simpl; rewrite Hclose; simpl;
        rewrite ?drop_all, ?drop_app_length; simpl.
      * eexists _, [EvAdoPoolClosed (plm_pool_id msg); EvClosePool (plm_pool_id msg)], rc.
        split; [reflexivity |]. simpl.
        rewrite ?app_nil_r, <- ?app_assoc. simpl. split; [reflexivity |].
        rewrite list_lookup_alter, decide_True, Hc by done. simpl.
        eexists. split; [reflexivity |].
        unfold release_pool_reference. rewrite Hr.
        destruct (Z.eqb_spec (pr_refcount r) 1); [| done]. simpl.
        split; [done |]. split; [done |].
        unfold is_pool_open, check_for_open_pool. simpl.
        rewrite !lookup_delete_eq. split; [| done].
        apply bool_decide_eq_false_2. by intros [? ?].
      * eexists _, [EvClosePool (plm_pool_id msg)], rc.
        split; [reflexivity |]. simpl.
        rewrite ?app_nil_r, <- ?app_assoc. simpl. split; [reflexivity |].
        rewrite list_lookup_alter, decide_True, Hc by done. simpl.
        eexists. split; [reflexivity |].
        unfold release_pool_reference. rewrite Hr.
        destruct (Z.eqb_spec (pr_refcount r) 1); [| done]. simpl.
        split; [done |]. split; [done |].
        unfold is_pool_open, check_for_open_pool. simpl.
        rewrite !lookup_delete_eq. split; [| done].
        apply bool_decide_eq_false_2. by intros [? ?].
    + rewrite ?drop_all, ?drop_app_length. simpl.
      eexists _, [], S_OK. split; [reflexivity |]. simpl.
      rewrite ?app_nil_r, <- ?app_assoc. simpl. split; [reflexivity |].
      rewrite list_lookup_alter, decide_True, Hc by done. simpl.
      eexists. split; [reflexivity |].
      unfold release_pool_reference. rewrite Hr.
      destruct (Z.eqb_spec (pr_refcount r) 1); [done |]. simpl.
      split; [done |]. split; [done |]. split; [done |].
      unfold pool_reference_count, check_for_open_pool. simpl.
      by rewrite lookup_insert_eq.
  - rewrite bool_decide_eq_false_2 by (by intros [? ?]). simpl.
    rewrite ?drop_all, ?drop_app_length. simpl.
    eexists _, [], E_INVAL. split; [reflexivity |]. simpl.
    rewrite ?app_nil_r, <- ?app_assoc. simpl. split; [reflexivity |].
    unfold handler_pool_manager. simpl. by rewrite Hc.
Qed.

(** X13. OP_DELETE refuses to delete a pool the session still uses, and then
    changes nothing. By handle, a pool that the session holds more than
    once is answered E_BUSY. By name (the handle is not positive or not
    open in this session), a pool that is open in the session is answered
    E_ALREADY_OPEN, with pool id 0. In both cases the backend is not
    called and the session's table is as before. *)
Theorem pool_delete_refused handler msg x c t1 :
  plm_op msg = OP_DELETE →
  allocate_send handler (_transport (shard x)) = (true, t1) →
  _handlers (shard x) !! handler = Some c →
  let pm := pool_manager c in
  let by_handle := (0 <? plm_pool_id msg) && is_pool_open (plm_pool_id msg) pm in
  (by_handle = true ∧ pool_reference_count (plm_pool_id msg) pm ≠ Some 1) ∨
  (by_handle = false ∧ is_Some (check_for_open_pool (plm_pool_name msg) pm)) →
  ∃ x1,
    process_message_pool_request_more handler msg x = (Ok tt, x1) ∧
    _xtrace x1 = _xtrace x ++
      [ Ev (EvAllocateSend handler);
        Ev (EvPostPoolResponse handler
              (if by_handle
               then {| prsp_status := E_BUSY; prsp_pool_id := None |}
               else {| prsp_status := E_ALREADY_OPEN; prsp_pool_id := Some 0 |})) ] ∧
    _i_kvstore (shard x1) = _i_kvstore (shard x) ∧
    handler_pool_manager handler (shard x1) = Some pm.
Proof.
  intros Hop Halloc Hc pm by_handle Hcase.
  run_pool_x. rewrite Hop. simpl. rewrite Halloc. simpl. rewrite Hc. simpl.
  fold pm. fold by_handle.
  destruct Hcase as [[-> Hcount] | [-> [p Hp]]].
  - rewrite bool_decide_eq_false_2 by done. simpl.
    rewrite ?drop_all, ?drop_app_length. simpl.
    eexists. split; [reflexivity |]. simpl.
    rewrite ?app_nil_r, <- ?app_assoc. simpl. split; [reflexivity |].
    split; [done |]. unfold handler_pool_manager. simpl. by rewrite Hc.
  - rewrite Hp. simpl.
    rewrite ?drop_all, ?drop_app_length. simpl.
    eexists. split; [reflexivity |]. simpl.
    rewrite ?app_nil_r, <- ?app_assoc. simpl. split; [reflexivity |].
    split; [done |]. unfold handler_pool_manager. simpl. by rewrite Hc.
Qed.

(** X14. OP_DELETE by handle of a pool the session holds exactly once. The pool
    leaves the session's table first. Without ADO the backend is asked to
    close the pool and then to delete it by name; the reply is the status
    of the deletion, E_FAIL if the deletion throws, and the result of the
    close is not looked at. With ADO the backend is not called at all: the
    ADO is sent the event, and the reply is S_OK. *)
Theorem pool_delete_last_reference handler msg x c t1 r :
  plm_op msg = OP_DELETE →
  allocate_send handler (_transport (shard x)) = (true, t1) →
  _handlers (shard x) !! handler = Some c →
  0 < plm_pool_id msg →
  open_pool_set (pool_manager c) !! plm_pool_id msg = Some r →
  pr_refcount r = 1 →
  ∃ x1 pm,
    process_message_pool_request_more handler msg x = (Ok tt, x1) ∧
    handler_pool_manager handler (shard x1) = Some pm ∧
    is_pool_open (plm_pool_id msg) pm = false ∧
    if _ado_enabled (shard x) then
      _xtrace x1 = _xtrace x ++
        [ Ev (EvAllocateSend handler);
          EvAdoSendOpEvent (plm_pool_id msg);
          Ev (EvPostPoolResponse handler {| prsp_status := S_OK; prsp_pool_id := None |}) ] ∧
      _i_kvstore (shard x1) = _i_kvstore (shard x)
    else
      ∃ rc b1 deleted b2,
        kv_close_pool (plm_pool_id msg) (_i_kvstore (shard x)) = (rc, b1) ∧
        kv_delete_pool (pr_name r) b1 = (deleted, b2) ∧
        _i_kvstore (shard x1) = b2 ∧
        _xtrace x1 = _xtrace x ++
          [ Ev (EvAllocateSend handler);
            EvClosePool (plm_pool_id msg);
            EvDeletePool (pr_name r);
            Ev (EvPostPoolResponse handler
                  {| prsp_status := default E_FAIL deleted; prsp_pool_id := None |}) ].
Proof.
  intros Hop Halloc Hc Hpos Hr Hone.
  run_pool_x. rewrite Hop. simpl. rewrite Halloc. simpl. rewrite Hc. simpl.
  destruct (Z.ltb_spec 0 (plm_pool_id msg)); [| lia].
  unfold is_pool_open at 1. rewrite bool_decide_eq_true_2 by eauto. simpl.
  unfold pool_reference_count. rewrite Hr. simpl. rewrite Hone. simpl.
  unfold release_pool_reference at 1. rewrite Hr, Hone. simpl.
  assert (∀ hs : list Connection_handler, hs !! handler = Some c →
            ∃ pm, pool_manager <$>
                    alter (λ c0, set_pool_manager
                                   (release_pool_reference (plm_pool_id msg)
                                      (pool_manager c0)).2 c0) handler hs !! handler
                  = Some pm ∧ is_pool_open (plm_pool_id msg) pm = false) as Hpm.
  { intros hs Hhs. rewrite list_lookup_alter, decide_True, Hhs by done. simpl.
    eexists. split; [reflexivity |].
    unfold release_pool_reference. rewrite Hr, Hone. simpl.
    unfold is_pool_open. simpl. rewrite lookup_delete_eq.
    apply bool_decide_eq_false_2. by intros [? ?]. }
  destruct (Hpm _ Hc) as (pm & Hpm1 & Hpm2).
  destruct (_ado_enabled (shard x)); simpl.
  - rewrite ?drop_all, ?drop_app_length. simpl.
    eexists _, pm. split; [reflexivity |]. simpl.
    split; [exact Hpm1 |]. split; [done |].
    rewrite ?app_nil_r, <- ?app_assoc. simpl. done.
  - unfold pool_name. rewrite Hr.
    destruct (kv_close_pool (plm_pool_id msg) (_i_kvstore (shard x))) as [rc b1] eqn:Hclose.
    simpl.
    destruct (kv_delete_pool (pr_name r) b1) as [[status|] b2] eqn:Hdelete; simpl;
      rewrite ?drop_all, ?drop_app_length; simpl.
    + eexists _, pm. split; [reflexivity |]. simpl.
      split; [exact Hpm1 |]. split; [done |].
      eexists rc, b1, (Some status), b2.
      rewrite ?app_nil_r, <- ?app_assoc. simpl. done.
    + eexists _, pm. split; [reflexivity |]. simpl.
      split; [exact Hpm1 |]. split; [done |].
      eexists rc, b1, None, b2.
      rewrite ?app_nil_r, <- ?app_assoc. simpl. done.
Qed.

End Pool_more_properties.

(** ** INFO requests *)

Section Info_properties.

Context {B T Tk : Type} `{!IKVStore B} `{!IKVStore_more B} `{!Connection_base T}
        `{!Shard_task Tk}.
Variable KI : info_constants.
Variable crc32 : list Z → Z.
Implicit Types x : ShardX B T Tk.

Ltac run_info :=
  unfold process_info_request, post_info, store_count, store_get_attribute,
         on_kvstore_more, xemit, lift, handler_allocate_send,
         locked_key_destructor, store_lock, store_unlock, on_kvstore,
         try_catch, bind, ret, throw, gets, modify.

Ltac info_leaf :=
  simplify_eq/=; rewrite ?drop_all, ?drop_app_length; simpl;
  rewrite ?app_nil_r, <- ?app_assoc; simpl;
  eexists; (split; [first [reflexivity | symmetry; apply app_nil_r] |]); simpl; try done.

(** X15. The number of responses to an INFO request. A key search is answered at
    once only when it cannot be started, with E_INVAL: when there is no
    index at all, or none for the pool, or the task cannot be made;
    otherwise the task is queued and nothing is posted yet. A statistics request is answered twice: the
    statistics are posted, and then the handler goes on and posts an INFO
    response as for an attribute. Every other request is answered once.
    The handler throws only for want of a send buffer, having posted
    nothing. *)
Theorem info_request_responses handler msg x r x1 :
  process_info_request KI crc32 handler msg x = (r, x1) →
  ∃ evs, _xtrace x1 = _xtrace x ++ evs ∧
    match r with
    | Throw e =>
        e = Resource_unavailable ∧ count_xevents is_info_post evs = 0%nat ∧
        _tasks x1 = _tasks x
    | Ok _ =>
        if info_type msg =? INFO_TYPE_FIND_KEY KI then
          match _index_map x with
          | Some indexed =>
              match new_key_find_task (info_key msg) (info_offset msg) handler
                                      (info_pool_id msg) with
              | Some task =>
                  if bool_decide (info_pool_id msg ∈ indexed) then
                    count_xevents is_info_post evs = 0%nat ∧ _tasks x1 = _tasks x ++ [task]
                  else count_xevents is_info_post evs = 1%nat ∧ _tasks x1 = _tasks x
              | None => count_xevents is_info_post evs = 1%nat ∧ _tasks x1 = _tasks x
              end
          | None => count_xevents is_info_post evs = 1%nat ∧ _tasks x1 = _tasks x
          end
        else
          count_xevents is_info_post evs
          = (if info_type msg =? INFO_TYPE_GET_STATS KI then 2%nat else 1%nat) ∧
          _tasks x1 = _tasks x
    end.
Proof.
  run_info. intros Hrun.
  repeat (simpl in *; case_match; simplify_eq/=); info_leaf.
Qed.

(** X16. The checksum of a value, computed by the shard when the backend has no
    CRC32 attribute for the key. The value is locked for reading; if the
    lock is refused the reply is E_FAIL with value 0 and nothing is
    unlocked. Otherwise the checksum is taken over the first bytes of the
    locked value, as many as the low 32 bits of its length say, and cut to
    32 bits; the lock is released, and only then the reply S_OK is posted:
    the request leaves no lock behind. *)
Theorem info_crc32_locks handler msg x t1 a b1 lr b2 :
  info_type msg = Attribute_CRC32 KI →
  info_type msg ≠ INFO_TYPE_FIND_KEY KI →
  info_type msg ≠ INFO_TYPE_GET_STATS KI →
  info_type msg ≠ Attribute_COUNT KI →
  info_type msg ≠ Attribute_VALUE_LEN KI →
  allocate_send handler (_transport (shard x)) = (true, t1) →
  kv_get_attribute (info_pool_id msg) (info_type msg) (info_key msg) (_i_kvstore (shard x))
  = (a, b1) →
  one_value a.1 a.2 = None →
  kv_lock (info_pool_id msg) (info_key msg) STORE_LOCK_READ 0 b1 = (lr, b2) →
  ∃ x1, process_info_request KI crc32 handler msg x = (Ok tt, x1) ∧
    if is_locked (lr_status lr) && negb (bool_decide (lr_key_handle lr = KEY_NONE)) then
      _i_kvstore (shard x1)
      = (kv_unlock (info_pool_id msg) (lr_key_handle lr) UNLOCK_FLAGS_NONE b2).2 ∧
      _xtrace x1 = _xtrace x ++
        [ Ev (EvAllocateSend handler);
          EvGetAttributeOf (info_pool_id msg) (info_type msg) (info_key msg);
          Ev (EvLock (info_pool_id msg) (info_key msg) STORE_LOCK_READ 0);
          Ev (EvUnlock (info_pool_id msg) (lr_key_handle lr) UNLOCK_FLAGS_NONE);
          EvPostInfo handler
            {| irsp_status := S_OK;
               irsp_value :=
                 Some (Info_numeric
                         (crc32 (kv_bytes (lr_value lr) (lr_value_len lr mod 2 ^ 32) b2)
                          mod 2 ^ 32)) |} ]
    else
      _i_kvstore (shard x1) = b2 ∧
      _xtrace x1 = _xtrace x ++
        [ Ev (EvAllocateSend handler);
          EvGetAttributeOf (info_pool_id msg) (info_type msg) (info_key msg);
          Ev (EvLock (info_pool_id msg) (info_key msg) STORE_LOCK_READ 0);
          EvPostInfo handler
            {| irsp_status := E_FAIL; irsp_value := Some (Info_numeric 0) |} ].
Proof.
  intros Hcrc Hfind Hstats Hcount Hlen Halloc Hattr Hnone Hlock.
  run_info.
  destruct (Z.eqb_spec (info_type msg) (INFO_TYPE_FIND_KEY KI)); [done |].
  destruct (Z.eqb_spec (info_type msg) (INFO_TYPE_GET_STATS KI)); [done |].
  destruct (Z.eqb_spec (info_type msg) (Attribute_COUNT KI)); [done |].
  destruct (Z.eqb_spec (info_type msg) (Attribute_VALUE_LEN KI)); [done |].
  destruct (Z.eqb_spec (info_type msg) (Attribute_CRC32 KI)); [| done].
  simpl. rewrite Halloc. simpl. rewrite Hattr. simpl. rewrite Hnone. simpl.
  rewrite Hlock. simpl.
  destruct (is_locked (lr_status lr)); simpl.
  - case_bool_decide; simpl.
    + rewrite ?drop_all, ?drop_app_length. simpl.
      eexists. split; [reflexivity |]. simpl.
      split; [done |]. by rewrite ?app_nil_r, <- ?app_assoc.
    + destruct (kv_unlock (info_pool_id msg) (lr_key_handle lr) UNLOCK_FLAGS_NONE b2)
        as [rc b3] eqn:Hunlock. simpl.
      rewrite ?drop_all, ?drop_app_length. simpl.
      eexists. split; [reflexivity |]. simpl.
      split; [done |]. by rewrite ?app_nil_r, <- ?app_assoc.
  - rewrite ?drop_all, ?drop_app_length. simpl.
    eexists. split; [reflexivity |]. simpl.
    split; [done |]. by rewrite ?app_nil_r, <- ?app_assoc.
Qed.

End Info_properties.

(** ** Background tasks *)

Section Task_properties.

Context {B T Tk : Type} `{!IKVStore B} `{!IKVStore_more B} `{!Connection_base T}
        `{!Shard_task Tk}.
Implicit Types x : ShardX B T Tk.

Ltac run_tasks :=
  unfold xemit, lift, handler_allocate_send, try_catch, bind, ret, throw, gets, modify; simpl.

Lemma count_info_post_app l1 l2 :
  count_xevents is_info_post (l1 ++ l2)
  = (count_xevents is_info_post l1 + count_xevents is_info_post l2)%nat.
Proof. unfold count_xevents. by rewrite filter_app, length_app. Qed.

(** One pass: it ends without a completion, every task having answered
    S_MORE; or with the first completion, answered and removed; or in an
    exception, with every task still listed. *)
Lemma process_tasks_pass_spec before rest x r x1 :
  process_tasks_pass before rest x = (r, x1) →
  _tasks x = before ++ rest →
  ∃ evs, _xtrace x1 = _xtrace x ++ evs ∧
    match r with
    | Ok false =>
        count_xevents is_info_post evs = 0%nat ∧
        ∃ rest', _tasks x1 = before ++ rest' ∧
                 Forall2 (λ t t', do_work t = (S_MORE, t')) rest rest'
    | Ok true =>
        count_xevents is_info_post evs = 1%nat ∧
        S (length (_tasks x1)) = length (before ++ rest)
    | Throw e =>
        count_xevents is_info_post evs = 0%nat ∧
        length (_tasks x1) = length (before ++ rest) ∧
        (e = Resource_unavailable ∨ e = Logic_exception)
    end.
Proof.
  revert before x. induction rest as [|t rest IH]; intros before x Hrun Htasks.
  - simpl in Hrun. injection Hrun as <- <-. exists []. rewrite app_nil_r.
    split; [done |]. split; [done |]. exists []. by rewrite Htasks.
  - simpl in Hrun. destruct (do_work t) as [s t'] eqn:Hwork.
    revert Hrun. run_tasks.
    destruct (decide (s = S_MORE)) as [-> | Hdone].
    + simpl. intros Hrun. apply IH in Hrun; [| by rewrite <- app_assoc].
      destruct Hrun as (evs & Htr & Hr). simpl in Htr.
      exists ([EvDoWork (task_handler t)] ++ evs). rewrite Htr, <- app_assoc.
      split; [done |]. rewrite count_info_post_app. simpl.
      destruct r as [[]|e].
      * destruct Hr as [Hn Hlen]. split; [done |].
        rewrite Hlen, !length_app. simpl. lia.
      * destruct Hr as (Hn & rest' & Hrest & Hall). split; [done |].
        exists (t' :: rest'). rewrite Hrest, <- app_assoc. split; [done |].
        by constructor.
      * destruct Hr as (Hn & Hlen & He). split; [done |]. split; [| done].
        rewrite Hlen, !length_app. simpl. lia.
    + rewrite bool_decide_eq_false_2 by done. simpl.
      destruct (allocate_send (task_handler t') (_transport (shard x))) as [[] t1]; simpl;
        rewrite ?drop_app_length; simpl.
      * destruct (decide (s = S_OK)) as [-> | Hnok]; simpl.
        { intros [= <- <-]. simpl. rewrite <- !app_assoc. simpl.
          eexists. split; [reflexivity |]. split; [done |].
          rewrite !length_app. simpl. lia. }
        rewrite bool_decide_eq_false_2 by done.
        destruct (decide (s = E_FAIL)) as [-> | Hnfail]; simpl.
        { intros [= <- <-]. simpl. rewrite <- !app_assoc. simpl.
          eexists. split; [reflexivity |]. split; [done |].
          rewrite !length_app. simpl. lia. }
        rewrite bool_decide_eq_false_2 by done. simpl.
        intros [= <- <-]. simpl. rewrite <- !app_assoc. simpl.
        eexists. split; [reflexivity |]. split; [done |].
        split; [| by right]. rewrite !length_app. simpl. lia.
      * intros [= <- <-]. simpl. rewrite <- !app_assoc. simpl.
        eexists. split; [reflexivity |]. split; [done |].
        split; [| by left]. rewrite !length_app. simpl. lia.
Qed.

Lemma process_tasks_loop_spec fuel x r x1 :
  (length (_tasks x) < fuel)%nat →
  process_tasks_loop fuel x = (r, x1) →
  ∃ evs, _xtrace x1 = _xtrace x ++ evs ∧
    (length (_tasks x1) + count_xevents is_info_post evs = length (_tasks x))%nat ∧
    match r with
    | Ok _ => ∃ before, Forall2 (λ t t', do_work t = (S_MORE, t')) before (_tasks x1)
    | Throw e => e = Resource_unavailable ∨ e = Logic_exception
    end.
Proof.
  revert x. induction fuel as [|fuel IH]; intros x Hfuel; [lia |].
  simpl. unfold bind at 1. unfold gets at 1. unfold bind at 1.
  destruct (process_tasks_pass [] (_tasks x) x) as [rp xp] eqn:Hpass.
  apply process_tasks_pass_spec in Hpass as (evs & Htr & Hr); [| done].
  destruct rp as [[]|e]; simpl in Hr.
  - destruct Hr as [Hn Hlen]. intros Hloop. apply IH in Hloop; [| lia].
    destruct Hloop as (evs' & Htr' & Hacc & Hres).
    exists (evs ++ evs'). rewrite Htr', Htr, <- app_assoc. split; [done |].
    rewrite count_info_post_app. split; [lia | done].
  - destruct Hr as (Hn & rest' & Hrest & Hall). intros [= <- <-].
    exists evs. split; [done |]. simpl in Hrest. rewrite Hrest.
    split; [| by eexists]. apply Forall2_length in Hall. lia.
  - destruct Hr as (Hn & Hlen & He). intros [= <- <-].
    exists evs. split; [done |]. split; [lia | done].
Qed.

(** X17. One call of [process_tasks], whatever the tasks do. A task leaves the
    list only with a response: the number of tasks removed is the number of
    INFO responses posted. When the call returns, every task still listed
    has answered S_MORE in the last pass; so a task that completes is never
    left waiting. The call throws only for want of a send buffer, or when a
    task answers with a status other than S_OK, E_FAIL and S_MORE; the task
    concerned then stays listed. *)
Theorem process_tasks_accounting x r x1 :
  process_tasks x = (r, x1) →
  ∃ evs, _xtrace x1 = _xtrace x ++ evs ∧
    (length (_tasks x1) + count_xevents is_info_post evs = length (_tasks x))%nat ∧
    match r with
    | Ok _ => ∃ before, Forall2 (λ t t', do_work t = (S_MORE, t')) before (_tasks x1)
    | Throw e => e = Resource_unavailable ∨ e = Logic_exception
    end.
Proof.
  unfold process_tasks. unfold bind, gets. apply process_tasks_loop_spec. lia.
Qed.

(** A pass over tasks that all answer S_MORE. *)
Lemma process_tasks_pass_more before rest rest' x :
  Forall2 (λ t t', do_work t = (S_MORE, t')) rest rest' →
  _tasks x = before ++ rest →
  ∃ x1, process_tasks_pass before rest x = (Ok false, x1) ∧
        _tasks x1 = before ++ rest' ∧
        _xtrace x1 = _xtrace x ++ ((λ t, EvDoWork (task_handler t)) <$> rest) ∧
        shard x1 = shard x.
Proof.
  intros Hall. revert before x.
  induction Hall as [|t t' rest rest' Ht Hall IH]; intros before x Htasks.
  - exists x. simpl. rewrite !app_nil_r. rewrite app_nil_r in Htasks. done.
  - simpl. rewrite Ht. run_tasks.
    edestruct (IH (before ++ [t'])) as (x1 & -> & Htasks1 & Htr & Hshard).
    { simpl. by rewrite <- app_assoc. }
    exists x1. split; [done |]. rewrite Htasks1, Htr, Hshard. simpl.
    by rewrite <- !app_assoc.
Qed.

(** A pass up to the first task that completes with S_OK. *)
Lemma process_tasks_pass_complete before pre pre' t t' post x t1 :
  Forall2 (λ t t', do_work t = (S_MORE, t')) pre pre' →
  do_work t = (S_OK, t') →
  allocate_send (task_handler t') (_transport (shard x)) = (true, t1) →
  ∃ x1, process_tasks_pass before (pre ++ t :: post) x = (Ok true, x1) ∧
        _tasks x1 = before ++ pre' ++ post ∧
        _xtrace x1 = _xtrace x ++ ((λ t, EvDoWork (task_handler t)) <$> pre) ++
          [ EvDoWork (task_handler t);
            Ev (EvAllocateSend (task_handler t'));
            EvPostInfo (task_handler t')
              {| irsp_status := S_OK;
                 irsp_value := Some (Info_result (get_result t') (matched_position t')) |} ].
Proof.
  intros Hall Ht Halloc. revert before x Halloc.
  induction Hall as [|p p' pre pre' Hp Hall IH]; intros before x Halloc.
  - simpl. rewrite Ht. run_tasks. rewrite Halloc. simpl.
    rewrite drop_app_length. simpl.
    eexists. split; [reflexivity |]. simpl. by rewrite <- !app_assoc.
  - simpl. rewrite Hp. run_tasks.
    edestruct (IH (before ++ [p'])) as (x1 & -> & Htasks1 & Htr); [exact Halloc |].
    exists x1. split; [done |]. rewrite Htasks1, Htr. simpl.
    by rewrite <- !app_assoc.
Qed.

(** X18. A completion restarts the pass from the head of the list. In a call in
    which one task completes and the others answer S_MORE, the tasks listed
    before the completed one are worked twice, those after it once, and the
    completed task is answered between the two passes. *)
Theorem process_tasks_restart x pre pre' pre'' t t' post post' t1 :
  _tasks x = pre ++ t :: post →
  Forall2 (λ t t', do_work t = (S_MORE, t')) pre pre' →
  Forall2 (λ t t', do_work t = (S_MORE, t')) pre' pre'' →
  Forall2 (λ t t', do_work t = (S_MORE, t')) post post' →
  do_work t = (S_OK, t') →
  allocate_send (task_handler t') (_transport (shard x)) = (true, t1) →
  ∃ x1, process_tasks x = (Ok tt, x1) ∧
        _tasks x1 = pre'' ++ post' ∧
        _xtrace x1 = _xtrace x ++
          ((λ t, EvDoWork (task_handler t)) <$> pre) ++
          [ EvDoWork (task_handler t);
            Ev (EvAllocateSend (task_handler t'));
            EvPostInfo (task_handler t')
              {| irsp_status := S_OK;
                 irsp_value := Some (Info_result (get_result t') (matched_position t')) |} ] ++
          ((λ t, EvDoWork (task_handler t)) <$> pre' ++ post).
Proof.
  intros Htasks Hpre Hpre' Hpost Ht Halloc.
  unfold process_tasks. unfold bind at 1. unfold gets at 1.
  rewrite Htasks, length_app. simpl. rewrite Nat.add_succ_r.
  unfold bind at 1. unfold gets at 1. rewrite Htasks. unfold bind at 1.
  destruct (process_tasks_pass_complete [] pre pre' t t' post x t1 Hpre Ht Halloc)
    as (x1 & -> & Htasks1 & Htr1).
  simpl. unfold bind at 1. unfold gets at 1. unfold bind at 1.
  destruct (process_tasks_pass_more [] (_tasks x1) (pre'' ++ post') x1)
    as (x2 & -> & Htasks2 & Htr2 & _); [| done |].
  { rewrite Htasks1. simpl. by apply Forall2_app. }
  exists x2. split; [done |]. split; [done |].
  rewrite Htr2, Htr1, Htasks1. simpl. by rewrite <- !app_assoc.
Qed.

End Task_properties.

(** ** More on the lock registries, GET and ADO requests *)

Ltac run_shard :=
  unfold process_ado_request, ado_error_func, handler_allocate_send,
         io_response_get, release_locked_value_shared,
         locked_key_destructor, respond2, add_index_key,
         add_locked_value_shared, add_locked_value_exclusive,
         make_memory_registered, store_lock, store_unlock,
         store_get_attribute_VALUE_LEN, do_pmem_memset, on_kvstore,
         emit, assert_, try_catch, bind, ret, throw, gets, modify.

Section Ado_request_properties.

Context {B T Tk : Type} `{!IKVStore B} `{!IKVStore_more B} `{!Connection_base T}
        `{!Shard_task Tk}.
Variable K : constants.
Variable KI : info_constants.
Variable crc32 : list Z → Z.
Variable ADO_FLAG_NO_OVERWRITE : Z.
Variable process_configure :
  Message_IO_request → option (gset Z) → B → result status_t * (option (gset Z) * B).
Implicit Types x : ShardX B T Tk.

(** X19. An ADO request is never retried. [process_ado_request] handles
    every exception itself, the one for want of a send buffer included: it
    returns, or the process aborts at [assert(ado)]. It aborts exactly when
    ADO is enabled, the flags ask neither for a detached value nor for
    creation only, and the pool of the request has no ADO proxy. When it
    returns, the main loop pops and frees the message, whether or not a
    response could be posted. With ADO disabled and no send buffer to be
    had, the refusal cannot be sent: the request is consumed and the client
    hears nothing. *)
Theorem ado_request_consumed fuel h m x :
  ∃ r s1,
    process_ado_request K h m (shard x) = (r, s1) ∧
    (r = Ok tt ∨ r = Throw Assertion_failure) ∧
    (r = Throw Assertion_failure ↔
     _ado_enabled (shard x) = true ∧
     flag_set (ado_flags m) (ADO_FLAG_DETACHED K) = false ∧
     flag_set (ado_flags m) (ADO_FLAG_CREATE_ONLY K) = false ∧
     ado_pool_id m ∉ _ado_pool_map (shard x)) ∧
    (peek_pending_msg h (shard x) = Some (MSG_TYPE_ADO_REQUEST m) →
     ∃ x1,
       shard x1 = s1 ∧
       process_pending_msg K KI crc32 ADO_FLAG_NO_OVERWRITE process_configure fuel h x
       = Some (match r with
               | Ok _ => (Ok tt, pop_pending_msg h x1)
               | Throw e => (Throw e, x1)
               end)) ∧
    (_ado_enabled (shard x) = false →
     ∀ t', allocate_send h (_transport (shard x)) = (false, t') →
           r = Ok tt ∧ s1 = set_transport t' (log (EvAllocateSend h) (shard x))).
Proof.
  destruct (process_ado_request K h m (shard x)) as [r s1] eqn:Hrun.
  exists r, s1. split; [done |].
  assert ((r = Ok tt ∨ r = Throw Assertion_failure) ∧
          (r = Throw Assertion_failure ↔
           _ado_enabled (shard x) = true ∧
           flag_set (ado_flags m) (ADO_FLAG_DETACHED K) = false ∧
           flag_set (ado_flags m) (ADO_FLAG_CREATE_ONLY K) = false ∧
           ado_pool_id m ∉ _ado_pool_map (shard x))) as [Hr Habort].
  { revert Hrun. run_shard. intros Hrun.
    repeat (simpl in *; case_match; simplify_eq/=);
      repeat match goal with
             | H : negb _ = true |- _ => apply negb_true_iff in H
             | H : negb _ = false |- _ => apply negb_false_iff in H
             | H : bool_decide _ = true |- _ => apply bool_decide_eq_true in H
             | H : bool_decide _ = false |- _ => apply bool_decide_eq_false in H
             end;
      (split; [by auto |]); unfold not; intuition congruence. }
  split; [done |]. split; [done |]. split.
  - intros Hpeek. exists (lift (process_ado_request K h m) x).2.
    unfold process_pending_msg. rewrite Hpeek. simpl.
    unfold lift. rewrite Hrun. simpl. split; [done |].
    by destruct Hr as [-> | ->].
  - intros Hoff t' Halloc. revert Hrun. run_shard. rewrite Hoff. simpl.
    rewrite Halloc. simpl. by intros [= <- <-].
Qed.

End Ado_request_properties.

Section Shard_more_properties.

Context {B T : Type} `{!IKVStore B} `{!Connection_base T}.
Variable K : constants.
Implicit Types s : Shard B T.

(** X20. The shared-lock registry counts the holders of a target. Releasing a
    target that is not registered throws and changes nothing. Registering a
    target and releasing it again leaves the registry as it was: if the
    target was registered before, only its count went up and down, and the
    backend is not called; if it was not, the release is the last one, and
    it unlocks the value at the backend, with flush, under the key handle
    that was registered. *)
Theorem shared_registry_counts pool key target len mr s :
  (∀ li, _locked_values_shared s !! target = Some li → 1 ≤ li_count li) →
  (_locked_values_shared s !! target = None →
   release_locked_value_shared target s = (Throw Logic_exception, s)) ∧
  ∃ s1 s2,
    add_locked_value_shared pool key target len mr s = (Ok tt, s1) ∧
    release_locked_value_shared target s1 = (Ok tt, s2) ∧
    _locked_values_shared s2 = _locked_values_shared s ∧
    _trace s2 = _trace s ++
      match _locked_values_shared s !! target with
      | Some _ => []
      | None => [EvUnlock pool key UNLOCK_FLAGS_FLUSH]
      end.
Proof.
  intros Hinv. split.
  - intros Hnone. run_shard. simpl. by rewrite Hnone.
  - destruct (_locked_values_shared s !! target) as [li|] eqn:Hli.
    + pose proof (Hinv _ eq_refl).
      eexists _, _. split; [reflexivity |]. run_shard. simpl.
      unfold emplace_locked. rewrite Hli, lookup_insert_eq. simpl.
      destruct (Z.eqb_spec (li_count li + 1) 1); [lia |]. simpl.
      split; [reflexivity |]. simpl. rewrite app_nil_r. split; [| done].
      rewrite insert_insert_eq. unfold decrement. simpl.
      replace (li_count li + 1 - 1) with (li_count li) by lia.
      destruct li. by apply insert_id.
    + destruct (kv_unlock pool key UNLOCK_FLAGS_FLUSH (_i_kvstore s)) as [rc b] eqn:Hunlock.
      eexists _, _. split; [reflexivity |]. run_shard. simpl.
      unfold emplace_locked. rewrite Hli, lookup_insert_eq. simpl.
      rewrite Hunlock. simpl.
      split; [reflexivity |]. simpl. split; [| done].
      by rewrite delete_insert_id.
Qed.

(** X21. A GET that takes the two-stage path with a client buffer that is long
    enough registers the value in the shared-lock registry and keeps the
    read lock, whether it then replies with the value or with E_TOO_LARGE:
    no unlock is issued, and the lock is held until a GET_RELEASE of the
    value's address. *)
Theorem get_two_stage_keeps_lock s handler msg lr b' key t' :
  io_is_scbe msg = false →
  kv_lock (io_pool_id msg) (io_skey msg) STORE_LOCK_READ 0 (_i_kvstore s) = (lr, b') →
  is_locked (lr_status lr) = true →
  lr_key_handle lr ≠ KEY_NONE →
  lr_value lr ≠ 0 →
  lr_value_len lr ≠ 0 →
  io_is_direct msg = true ∨ TWO_STAGE_THRESHOLD K ≤ lr_value_len lr →
  lr_value_len lr ≤ io_value_len msg →
  memory_register handler (lr_value lr) (lr_value_len lr) (_transport s) = (Some key, t') →
  ∃ s' post,
    io_response_get K handler msg s = (Ok tt, s') ∧
    _trace s' = _trace s ++
      [ EvLock (io_pool_id msg) (io_skey msg) STORE_LOCK_READ 0;
        EvRegister handler (lr_value lr) (lr_value_len lr);
        post ] ∧
    post = (if negb (io_is_direct msg) &&
               (lr_value_len lr <=? u64 (IO_buffer_size K - base_message_size K))
            then EvPostResponse2 handler
                   (with_addr_key (respond1 msg S_OK) 0 0
                      (Data_len_without_data (lr_value_len lr)))
                   (lr_value lr) (lr_value_len lr)
            else EvPostResponse handler (respond1 msg E_TOO_LARGE)) ∧
    _i_kvstore s' = b' ∧
    _locked_values_shared s'
    = emplace_locked (lr_value lr)
        (Lock_info (io_pool_id msg) (lr_key_handle lr) (lr_value_len lr) key 0)
        (_locked_values_shared s).
Proof.
  intros Hscbe Hlock Hlocked Hkey Hbase Hlen Hpath Hclient Hreg.
  run_shard. rewrite Hscbe. simpl. rewrite Hlock. simpl.
  rewrite Hlocked. simpl. rewrite bool_decide_eq_false_2 by done. simpl.
  destruct (Z.eqb_spec (lr_value_len lr) 0); [done |]. simpl.
  destruct (Z.eqb_spec (lr_value lr) 0); [done |]. simpl.
  assert (negb (io_is_direct msg) && (lr_value_len lr <? TWO_STAGE_THRESHOLD K) = false) as ->.
  { destruct Hpath as [-> | Hge]; [done |].
    apply andb_false_iff. right. by apply Z.ltb_ge. }
  destruct (Z.ltb_spec (io_value_len msg) (lr_value_len lr)); [lia |].
  simpl. rewrite Hreg. simpl.
  destruct (negb (io_is_direct msg) &&
            (lr_value_len lr <=? u64 (IO_buffer_size K - base_message_size K))); simpl.
  - eexists _, _. split; [reflexivity |]. simpl. rewrite <- !app_assoc. done.
  - eexists _, _. split; [reflexivity |]. simpl. rewrite <- !app_assoc. done.
Qed.

Local Abbreviation sessions_of := (@_handlers B T).

Lemma on_kvstore_handlers {A} e (op : B → A * B) : preserves sessions_of (on_kvstore e op).
Proof. intros s. unfold on_kvstore. by destruct (op (_i_kvstore s)). Qed.

Lemma emit_handlers e : preserves sessions_of (emit e).
Proof. by intros s. Qed.

Ltac handlers_step :=
  first
    [ apply on_kvstore_handlers
    | apply emit_handlers
    | apply preserves_ret | apply preserves_throw | apply preserves_gets
    | apply preserves_modify; solve [done]
    | apply preserves_bind; [| intros ?]
    | apply preserves_try_catch; [| intros ?]
    | match goal with
      | |- preserves _ (if ?b then _ else _) => destruct b
      | |- preserves _ (match ?x with _ => _ end) => destruct x
      end ].

(** Releasing a target leaves the sessions alone. *)
Lemma release_target_handlers target :
  preserves sessions_of (release_locked_value_exclusive target ;;! release_pending_rename target).
Proof.
  unfold release_locked_value_exclusive, release_pending_rename, store_lock, store_unlock,
         store_swap_keys, store_erase, add_index_key.
  repeat handlers_step.
Qed.

Lemma release_target_throws target s e s' :
  (release_locked_value_exclusive target ;;! release_pending_rename target) s = (Throw e, s') →
  e = Logic_exception.
Proof.
  unfold release_locked_value_exclusive, release_pending_rename, store_lock, store_unlock,
         store_swap_keys, store_erase, add_index_key, on_kvstore, emit, catch_out_of_range,
         try_catch, bind, ret, throw, gets, modify.
  intros Hrun. by repeat (simpl in *; case_match; simplify_eq/=).
Qed.

Lemma process_deferred_actions_step fuel iter h s c a rest :
  _handlers s !! h = Some c →
  pending_actions c = a :: rest →
  process_deferred_actions (S fuel) iter h s
  = let s0 := set_handlers (<[h := set_pending_actions rest c]> (_handlers s)) s in
    if iter <? 1000 then
      match (release_locked_value_exclusive a ;;! release_pending_rename a) s0 with
      | (Ok _, s2) => process_deferred_actions fuel (iter + 1) h s2
      | (Throw e, s2) => (Throw e, s2)
      end
    else (Throw Assertion_failure, s0).
Proof.
  intros Hc Hp. simpl. unfold bind at 1. unfold get_pending_action. rewrite Hc, Hp.
  unfold bind at 1, assert_. destruct (iter <? 1000); [| done]. unfold ret at 1.
  unfold bind.
  destruct (release_locked_value_exclusive a _) as [[[]|e] s1]; [| done].
  by destruct (release_pending_rename a s1) as [[[]|e] s2].
Qed.

Lemma deferred_actions_loop h actions :
  ∀ fuel iter s c r s',
    _handlers s !! h = Some c →
    pending_actions c = actions →
    (length actions < fuel)%nat →
    iter ≤ 1000 →
    process_deferred_actions fuel iter h s = (r, s') →
    ∃ c', _handlers s' !! h = Some c' ∧ pending_msgs c' = pending_msgs c ∧
      match r with
      | Ok _ => pending_actions c' = [] ∧ iter + Z.of_nat (length actions) ≤ 1000
      | Throw e =>
          (length (pending_actions c') < length actions)%nat ∧
          (e = Logic_exception ∨
           e = Assertion_failure ∧
           Z.of_nat (length (pending_actions c')) = iter + Z.of_nat (length actions) - 1001)
      end.
Proof.
  induction actions as [|a rest IH]; intros fuel iter s c r s' Hc Hp Hfuel Hiter.
  - destruct fuel as [|fuel]; [simpl in Hfuel; lia |].
    simpl. unfold bind, get_pending_action. rewrite Hc, Hp.
    intros [= <- <-]. exists c. simpl. repeat split; [done | done | lia].
  - destruct fuel as [|fuel]; [simpl in Hfuel; lia |].
    rewrite (process_deferred_actions_step _ _ _ _ _ _ _ Hc Hp). simpl.
    set (s1 := set_handlers _ s).
    assert (_handlers s1 !! h = Some (set_pending_actions rest c)) as Hc1.
    { subst s1. simpl. apply list_lookup_insert_eq. by eapply lookup_lt_Some. }
    destruct (Z.ltb_spec iter 1000) as [Hlt | Hge].
    + pose proof (release_target_handlers a s1) as Hsame.
      destruct ((release_locked_value_exclusive a ;;! release_pending_rename a) s1)
        as [[[]|e] s2] eqn:Hrel; simpl in Hsame.
      * intros Hrun. eapply (IH fuel (iter + 1) s2 (set_pending_actions rest c)) in Hrun.
        -- destruct Hrun as (c' & Hc' & Hmsgs & Hr). exists c'.
           split; [done |]. split; [done |].
           destruct r as [[]|e]; simpl in *; [split; [tauto | lia] |].
           destruct Hr as [Hlen He]. split; [lia |].
           destruct He as [-> | [-> Hrest]]; [by left | right; split; [done | lia]].
        -- by rewrite Hsame.
        -- done.
        -- simpl in Hfuel. lia.
        -- lia.
      * intros [= <- <-]. exists (set_pending_actions rest c).
        split; [by rewrite Hsame |]. split; [done |].
        split; [simpl; lia |]. left. by eapply release_target_throws.
    + intros [= <- <-]. exists (set_pending_actions rest c).
      split; [done |]. split; [done |]. simpl.
      split; [lia |]. right. split; [done | lia].
Qed.

(** X22. The deferred actions of a session are all processed before its next
    message is looked at: when the loop over them returns, the session's
    queue of actions is empty and its pending messages are untouched; there
    were at most 1000 actions then. The loop ends early in a
    Logic_exception, from a release that fails, or, on a queue of more than
    1000 actions, in the failed assertion on the number of iterations, at
    the action after the thousandth. In either case the action at which the
    loop ended has been taken off the queue all the same. *)
Theorem deferred_actions_drained h s c r s' :
  _handlers s !! h = Some c →
  process_deferred_actions (S (length (pending_actions c))) 0 h s = (r, s') →
  ∃ c', _handlers s' !! h = Some c' ∧ pending_msgs c' = pending_msgs c ∧
    match r with
    | Ok _ => pending_actions c' = [] ∧ (length (pending_actions c) ≤ 1000)%nat
    | Throw e =>
        (length (pending_actions c') < length (pending_actions c))%nat ∧
        (e = Logic_exception ∨
         e = Assertion_failure ∧
         (1000 < length (pending_actions c))%nat ∧
         length (pending_actions c') = (length (pending_actions c) - 1001)%nat)
    end.
Proof.
  intros Hc Hrun.
  destruct (deferred_actions_loop h (pending_actions c) _ 0 s c r s' Hc eq_refl
              (Nat.lt_succ_diag_r _) ltac:(lia) Hrun) as (c' & Hc' & Hmsgs & Hr).
  exists c'. split; [done |]. split; [done |].
  destruct r as [[]|e]; [split; [tauto | lia] |].
  destruct Hr as [Hlen He]. split; [done |].
  destruct He as [-> | [-> Hrest]]; [by left | right; split; [done | lia]].
Qed.

End Shard_more_properties.

(** ** Opening and closing a pool *)

Section Pool_round_trip.

Context {B T Tk : Type} `{!IKVStore B} `{!IKVStore_more B} `{!Connection_base T}
        `{!Shard_task Tk}.
Variable K : constants.
Implicit Types x : ShardX B T Tk.

(** Releasing the reference that was just added gives the table back. *)
Lemma release_added_reference pool pm r :
  open_pool_set pm !! pool = Some r →
  1 ≤ pr_refcount r →
  release_pool_reference pool (add_reference pool pm) = (false, pm).
Proof.
  intros Hr Hcount. unfold release_pool_reference, add_reference. simpl.
  rewrite lookup_alter_eq, Hr. simpl.
  destruct (Z.eqb_spec (pr_refcount r + 1) 1); [lia |].
  f_equal. destruct pm as [pools names]. simpl in *. f_equal.
  rewrite insert_alter_eq.
  replace (pr_refcount r + 1 - 1) with (pr_refcount r) by lia.
  destruct r. by apply insert_id.
Qed.


End Pool_round_trip.

(** ** PUT_ADO requests *)

Section Put_ado_properties.

Context {B T Tk : Type} `{!IKVStore B} `{!IKVStore_more B} `{!Connection_base T}
        `{!Shard_task Tk}.
Variable K : constants.
Variable ADO_FLAG_NO_OVERWRITE : Z.
Implicit Types x : ShardX B T Tk.

Ltac run_put_ado :=
  unfold process_put_ado_request, put_ado_error_func, store_allocate_pool_memory,
         do_memcpy, store_put, on_kvstore_more, xemit, lift, handler_allocate_send,
         store_lock, store_get_attribute_VALUE_LEN, on_kvstore, emit,
         try_catch, bind, ret, throw, gets, modify.

Ltac put_ado_leaf :=
  simplify_eq/=; rewrite ?drop_all, ?drop_app_length; simpl;
  rewrite ?app_nil_r, <- ?app_assoc; simpl;
  eexists; (split; [first [reflexivity | symmetry; apply app_nil_r] |]); simpl;
  try done; auto.

(** X25. A PUT_ADO request ends in exactly one of two ways, or in an
    exception. When the handler returns it has either posted one response,
    which is a refusal with E_INVAL, and sent nothing to the ADO, or it has
    sent one work request to the ADO and posted nothing. It throws a
    General_exception when the pool has no ADO, a Logic_exception when the
    put fails or a lock comes without a key handle, and only otherwise for
    want of a send buffer; then it has neither posted nor sent anything. *)
Theorem put_ado_answers_or_sends handler msg x r x1 :
  process_put_ado_request K ADO_FLAG_NO_OVERWRITE handler msg x = (r, x1) →
  ∃ evs, _xtrace x1 = _xtrace x ++ evs ∧
    match r with
    | Ok _ =>
        (count_xevents is_ado_post evs + count_xevents is_work_request evs = 1)%nat ∧
        ∀ h rsp, Ev (EvPostAdoResponse h rsp) ∈ evs → arsp_status rsp = E_INVAL
    | Throw e =>
        count_xevents is_ado_post evs = 0%nat ∧
        count_xevents is_work_request evs = 0%nat ∧
        (e = General_exception ∨ e = Logic_exception ∨ e = Resource_unavailable)
    end.
Proof.
  run_put_ado. intros Hrun.
  repeat (simpl in *; case_match; simplify_eq/=); put_ado_leaf.
  all: split; [done |]; intros h rsp Hin;
    repeat (apply elem_of_cons in Hin as [Hin | Hin]; [by simplify_eq |]);
    by apply elem_of_nil in Hin.
Qed.

(** X26. A detached PUT_ADO that makes the root value and then finds no pool
    memory for the detached value. The root value has been locked for
    writing by then; the handler posts the refusal, E_INVAL with
    ADO!OUT_OF_MEMORY, and returns: it does not unlock the root value, and
    no work request is recorded that would have it unlocked later. *)
Theorem put_ado_out_of_memory_keeps_lock handler msg x rc b1 lr b2 a b3 t1 :
  _i_ado_mgr (shard x) = true →
  pa_pool_id msg ∈ _ado_pool_map (shard x) →
  pa_value_len msg ≠ 0 →
  flag_set (pa_flags msg) (ADO_FLAG_DETACHED K) = true →
  0 < pa_root_val_len msg →
  kv_get_attribute_VALUE_LEN (pa_pool_id msg) (pa_key msg) (_i_kvstore (shard x)) = (rc, b1) →
  kv_lock (pa_pool_id msg) (pa_key msg) STORE_LOCK_WRITE (pa_root_val_len msg) b1 = (lr, b2) →
  below_S_OK (lr_status lr) = false →
  lr_key_handle lr ≠ KEY_NONE →
  kv_allocate_pool_memory (pa_pool_id msg) (round_up (pa_value_len msg) 8) 8 b2 = (a, b3) →
  a.1 ≠ S_OK →
  allocate_send handler (_transport (shard x)) = (true, t1) →
  ∃ x1, process_put_ado_request K ADO_FLAG_NO_OVERWRITE handler msg x = (Ok tt, x1) ∧
        _i_kvstore (shard x1) = b3 ∧
        _xtrace x1 = _xtrace x ++
          [ Ev (EvGetAttribute (pa_pool_id msg) (pa_key msg));
            Ev (EvLock (pa_pool_id msg) (pa_key msg) STORE_LOCK_WRITE (pa_root_val_len msg));
            EvAllocatePoolMemory (pa_pool_id msg) (round_up (pa_value_len msg) 8) 8;
            Ev (EvAllocateSend handler);
            Ev (EvPostAdoResponse handler
                  {| arsp_request_id := pa_request_id msg; arsp_status := E_INVAL;
                     arsp_payload := [Ado_message "ADO!OUT_OF_MEMORY"] |}) ].
Proof.
  intros Hmgr Hproxy Hlen Hdetached Hroot Hattr Hlock Hlocked Hkey Hmem Hfail Halloc.
  run_put_ado. simpl. rewrite Hmgr. simpl.
  rewrite bool_decide_eq_true_2 by done. simpl.
  destruct (Z.eqb_spec (pa_value_len msg) 0); [done |].
  rewrite Hdetached, orb_true_r. simpl. rewrite Hattr. simpl.
  destruct (Z.ltb_spec 0 (pa_root_val_len msg)); [| lia]. simpl.
  rewrite Hlock. simpl. rewrite Hlocked. simpl.
  rewrite bool_decide_eq_false_2 by done. simpl.
  rewrite Hmem. simpl. rewrite bool_decide_eq_false_2 by done. simpl.
  rewrite Halloc. simpl.
  rewrite ?drop_all, ?drop_app_length. simpl.
  eexists. split; [reflexivity |]. simpl. split; [done |].
  by rewrite ?app_nil_r, <- ?app_assoc.
Qed.

End Put_ado_properties.

(** ** The further properties on concrete states *)

Lemma region_breaks_cumulative_witness :
  SG.region_breaks SG.two_regions !! 1%nat = Some (SG.Iovec 0x20000000000 (16 * SG.MiB)).
Proof.
  apply (proj2 (region_breaks_cumulative SG.two_regions) 1%nat
           (SG.Iovec 0x20000000000 (8 * SG.MiB))).
  reflexivity.
Defined.

Lemma space_registry_counts_witness :
  let x := example_shardx 4 false false empty_pool_manager [] in
  release_space_shared (0, 4096) x = (Throw Logic_exception, x).
Proof.
  intros x. apply (space_registry_counts (0, 4096) 100 x).
  - intros r i Hi. subst x. simpl in Hi. by rewrite lookup_empty in Hi.
  - reflexivity.
Defined.





Lemma pool_close_counts_witness :
  let x := example_shardx 4 false false (pool_manager_with 2) [] in
  ∃ x1, process_message_pool_request_more 0%nat (pool_request_more OP_CLOSE 1 "p") x
        = (Ok tt, x1) ∧
        _i_kvstore (shard x1) = _i_kvstore (shard x) ∧
        (handler_pool_manager 0%nat (shard x1)) ≫= pool_reference_count 1 = Some 1.
Proof.
  intros x.
  destruct (pool_close_counts 0%nat (pool_request_more OP_CLOSE 1 "p") x
              {| pool_manager := pool_manager_with 2; pending_msgs := [];
                 freed_buffers := []; pending_actions := [] |}
              (Fabric.Transport 4 false 100))
    as (x1 & evs & status & Hrun & _ & Hcase); [reflexivity | reflexivity | reflexivity |].
  destruct Hcase as (pm & Hpm & _ & _ & Hstore & Hcount & _).
  exists x1. split; [exact Hrun |]. split; [exact Hstore |].
  rewrite Hpm. exact Hcount.
Defined.

Lemma pool_delete_refused_witness :
  let x := example_shardx 4 false false (pool_manager_with 2) [] in
  ∃ x1, process_message_pool_request_more 0%nat (pool_request_more OP_DELETE 1 "p") x
        = (Ok tt, x1) ∧
        _xtrace x1 =
          [ Ev (EvAllocateSend 0%nat);
            Ev (EvPostPoolResponse 0%nat {| prsp_status := E_BUSY; prsp_pool_id := None |}) ].
Proof.
  intros x.
  destruct (pool_delete_refused 0%nat (pool_request_more OP_DELETE 1 "p") x
              {| pool_manager := pool_manager_with 2; pending_msgs := [];
                 freed_buffers := []; pending_actions := [] |}
              (Fabric.Transport 4 false 100))
    as (x1 & Hrun & Htr & _); [reflexivity | reflexivity | reflexivity | |].
  - left. split; [reflexivity | by vm_compute].
  - exists x1. split; [exact Hrun | exact Htr].
Defined.

Lemma pool_delete_last_reference_witness :
  let x := example_shardx 4 false false (pool_manager_with 1) [] in
  ∃ x1, process_message_pool_request_more 0%nat (pool_request_more OP_DELETE 1 "p") x
        = (Ok tt, x1) ∧
        (handler_pool_manager 0%nat (shard x1)) ≫= (λ pm, Some (is_pool_open 1 pm))
        = Some false.
Proof.
  intros x.
  destruct (pool_delete_last_reference 0%nat (pool_request_more OP_DELETE 1 "p") x
              {| pool_manager := pool_manager_with 1; pending_msgs := [];
                 freed_buffers := []; pending_actions := [] |}
              (Fabric.Transport 4 false 100) (Pool_record "p" 1 0 0 0))
    as (x1 & pm & Hrun & Hpm & Hclosed & _);
    [reflexivity | reflexivity | reflexivity | reflexivity | reflexivity | reflexivity |].
  exists x1. split; [exact Hrun |]. rewrite Hpm. simpl in *. by rewrite Hclosed.
Defined.

Lemma info_request_responses_witness :
  let x := example_shardx 4 false false empty_pool_manager [] in
  let c := process_info_request example_info_constants sum_bytes 0%nat (info_request 0xF1 "") in
  ∃ evs, _xtrace (run c x) = evs ∧ count_xevents is_info_post evs = 2%nat.
Proof.
  intros x c.
  destruct (info_request_responses example_info_constants sum_bytes 0%nat
              (info_request 0xF1 "") x (Ok tt) (run c x))
    as (evs & Htr & Hn & _); [reflexivity |].
  exists evs. split; [exact Htr | exact Hn].
Defined.

Lemma info_crc32_locks_witness :
  let x := example_shardx 4 false false empty_pool_manager [] in
  ∃ x1, process_info_request example_info_constants sum_bytes 0%nat (info_request 4 "k") x
        = (Ok tt, x1) ∧
        _xtrace x1 =
          [ Ev (EvAllocateSend 0%nat);
            EvGetAttributeOf 1 4 "k";
            Ev (EvLock 1 "k" STORE_LOCK_READ 0);
            Ev (EvUnlock 1 (Key_handle 1) UNLOCK_FLAGS_NONE);
            EvPostInfo 0%nat {| irsp_status := S_OK; irsp_value := Some (Info_numeric 10) |} ].
Proof.
  intros x.
  destruct (info_crc32_locks example_info_constants sum_bytes 0%nat (info_request 4 "k") x
              (Fabric.Transport 4 false 100) (E_NOT_SUPPORTED, []) (_i_kvstore (shard x))
              (Lock_result S_OK example_target 4 (Key_handle 1))
              (kv_lock 1 "k" STORE_LOCK_READ 0 (_i_kvstore (shard x))).2)
    as (x1 & Hrun & _ & Htr);
    [reflexivity | by vm_compute | by vm_compute | by vm_compute | by vm_compute
    | reflexivity | reflexivity | reflexivity | reflexivity |].
  exists x1. split; [exact Hrun | exact Htr].
Defined.

Lemma process_tasks_accounting_witness :
  let x := example_shardx 4 false false empty_pool_manager
             [Find_task 0%nat 1 "a" 0; Find_task 0%nat 0 "b" 5] in
  ∃ evs, _xtrace (run process_tasks x) = evs ∧
         (length (_tasks (run process_tasks x)) + count_xevents is_info_post evs = 2)%nat.
Proof.
  intros x.
  destruct (process_tasks_accounting x (Ok tt) (run process_tasks x))
    as (evs & Htr & Hacc & _); [by vm_compute |].
  exists evs. split; [exact Htr | exact Hacc].
Defined.

Lemma process_tasks_restart_witness :
  let x := example_shardx 4 false false empty_pool_manager
             [Find_task 0%nat 2 "a" 0; Find_task 0%nat 0 "b" 5; Find_task 0%nat 1 "c" 0] in
  ∃ x1, process_tasks x = (Ok tt, x1) ∧
        _tasks x1 = [Find_task 0%nat 0 "a" 0; Find_task 0%nat 0 "c" 0].
Proof.
  intros x.
  destruct (process_tasks_restart x
              [Find_task 0%nat 2 "a" 0] [Find_task 0%nat 1 "a" 0] [Find_task 0%nat 0 "a" 0]
              (Find_task 0%nat 0 "b" 5) (Find_task 0%nat 0 "b" 5)
              [Find_task 0%nat 1 "c" 0] [Find_task 0%nat 0 "c" 0]
              (Fabric.Transport 4 false 100))
    as (x1 & Hrun & Htasks & _).
  - reflexivity.
  - by repeat constructor.
  - by repeat constructor.
  - by repeat constructor.
  - reflexivity.
  - reflexivity.
  - exists x1. split; [exact Hrun | exact Htasks].
Defined.

Lemma ado_request_consumed_witness :
  let m := ado_request 1 0 "k" 8 in
  let x := shard_with_pending 0 false [MSG_TYPE_ADO_REQUEST m] in
  ∃ x1, process_pending_msg example_constants example_info_constants sum_bytes 32
          configure_not_implemented 0 0%nat x
        = Some (Ok tt, pop_pending_msg 0%nat x1) ∧
        session_queue 0%nat (shard (pop_pending_msg 0%nat x1))
        = Some ([], [MSG_TYPE_ADO_REQUEST m]) ∧
        _trace (shard x1) = [EvAllocateSend 0%nat].
Proof.
  intros m x.
  destruct (ado_request_consumed example_constants example_info_constants sum_bytes 32
              configure_not_implemented 0 0%nat m x)
    as (r & s1 & Hrun & _ & _ & Hpop & Hdropped).
  destruct (Hdropped eq_refl (Fabric.Transport 0 false 100) eq_refl) as [-> ->].
  destruct (Hpop eq_refl) as (x1 & Hx1 & Hstep).
  exists x1. split; [exact Hstep |].
  unfold session_queue, pop_pending_msg. simpl. rewrite Hx1. split; reflexivity.
Defined.

(** With ADO enabled and no proxy for the pool, the request of the session
    stops the tick at the assertion, and stays queued. *)
Example ado_request_without_proxy :
  let m := MSG_TYPE_ADO_REQUEST (ado_request 1 0 "k" 8) in
  let x := shard_with_pending 4 true [m] in
  fst <$> example_tick x = Some (Throw Assertion_failure) ∧
  queues (shard (after_tick x)) = [([m], [])] ∧
  _xtrace (after_tick x) = [].
Proof. vm_compute. by repeat split. Qed.

Lemma shared_registry_counts_witness :
  release_locked_value_shared example_target shard_with_key
  = (Throw Logic_exception, shard_with_key).
Proof.
  apply (shared_registry_counts 1 (Key_handle 1) example_target 16 100 shard_with_key).
  - intros li Hli. simpl in Hli. by rewrite lookup_empty in Hli.
  - reflexivity.
Defined.

Lemma get_two_stage_keeps_lock_witness :
  ∃ s', io_response_get example_constants 0%nat (io_request OP_GET 3 "big" 1000 0)
          shard_with_big_value = (Ok tt, s') ∧
        _locked_values_shared s'
        = {[ example_target := Lock_info 1 (Key_handle 1) 1000 100 1 ]}.
Proof.
  destruct (get_two_stage_keeps_lock example_constants shard_with_big_value 0%nat
              (io_request OP_GET 3 "big" 1000 0)
              (Lock_result S_OK example_target 1000 (Key_handle 1))
              (kv_lock 1 "big" STORE_LOCK_READ 0 (_i_kvstore shard_with_big_value)).2
              100 (Fabric.Transport 4 false 101))
    as (s' & post & Hrun & _ & _ & _ & Hshared).
  - reflexivity.
  - vm_compute. reflexivity.
  - reflexivity.
  - discriminate.
  - by vm_compute.
  - by vm_compute.
  - right. by vm_compute.
  - by vm_compute.
  - reflexivity.
  - exists s'. split; [exact Hrun |]. rewrite Hshared. reflexivity.
Defined.

Lemma deferred_actions_drained_witness :
  let c := {| pool_manager := empty_pool_manager; pending_msgs := [];
              freed_buffers := []; pending_actions := [example_target] |} in
  let s := initial_shard MapStore.empty (Fabric.Transport 4 false 100) false [c] in
  ∃ c', _handlers (run (process_deferred_actions 2 0 0%nat) s) !! 0%nat = Some c' ∧
        (length (pending_actions c') < 1)%nat.
Proof.
  intros c s.
  destruct (deferred_actions_drained 0%nat s c (Throw Logic_exception)
              (run (process_deferred_actions 2 0 0%nat) s))
    as (c' & Hc' & _ & Hlen & _); [reflexivity | reflexivity |].
  exists c'. split; [exact Hc' | exact Hlen].
Defined.


(** Two regions mapped at low addresses: the range from 0 to 0x2000
    contains the base address of the first. *)
Lemma offset_to_sg_list_stuck_across_base_witness :
  SG.upper_bound (SG.region_breaks [SG.Iovec 0x1000 0x1000; SG.Iovec 0x3000 0x1000]) 0
  ≠ SG.upper_bound (SG.region_breaks [SG.Iovec 0x1000 0x1000; SG.Iovec 0x3000 0x1000]) 0x2000.
Proof.
  apply (offset_to_sg_list_stuck_across_base 0 0 0x2000
           (SG.region_breaks [SG.Iovec 0x1000 0x1000; SG.Iovec 0x3000 0x1000])
           (SG.Iovec 0x1000 0x1000)).
  - reflexivity.
  - by left.
  - by vm_compute.
Defined.

Lemma put_ado_answers_or_sends_witness :
  let x := example_shardx 4 false true empty_pool_manager [] in
  let msg := {| pa_request_id := 11; pa_pool_id := 1; pa_flags := 0; pa_key := "k";
                pa_value := [5; 6]; pa_value_len := 2; pa_root_val_len := 0 |} in
  ∃ evs, _xtrace (run (process_put_ado_request example_constants 32 0%nat msg) x) = evs ∧
         (count_xevents is_ado_post evs + count_xevents is_work_request evs = 1)%nat.
Proof.
  intros x msg.
  destruct (put_ado_answers_or_sends example_constants 32 0%nat msg x (Ok tt)
              (run (process_put_ado_request example_constants 32 0%nat msg) x))
    as (evs & Htr & Hn & _); [by vm_compute |].
  exists evs. split; [exact Htr | exact Hn].
Defined.

(** A detached PUT_ADO with a root value, on a pool without free memory. *)
Lemma put_ado_out_of_memory_keeps_lock_witness :
  let x := example_shardx 4 false true empty_pool_manager [] in
  let msg := {| pa_request_id := 12; pa_pool_id := 1; pa_flags := 16; pa_key := "k";
                pa_value := [5; 6]; pa_value_len := 2; pa_root_val_len := 4 |} in
  ∃ x1, process_put_ado_request example_constants 32 0%nat msg x = (Ok tt, x1) ∧
        MapStore.s_writer <$> MapStore.slots (RegionStore.kv (_i_kvstore (shard x1))) !! (1, "k")
        = Some true.
Proof.
  intros x msg.
  destruct (put_ado_out_of_memory_keeps_lock example_constants 32 0%nat msg x
              S_OK (_i_kvstore (shard x))
              (Lock_result S_OK example_target 4 (Key_handle 1))
              (kv_lock 1 "k" STORE_LOCK_WRITE 4 (_i_kvstore (shard x))).2
              (E_INSUFFICIENT_SPACE, 0)
              (kv_lock 1 "k" STORE_LOCK_WRITE 4 (_i_kvstore (shard x))).2
              (Fabric.Transport 4 false 100))
    as (x1 & Hrun & Hstore & _).
  - reflexivity.
  - by vm_compute.
  - by vm_compute.
  - reflexivity.
  - by vm_compute.
  - reflexivity.
  - reflexivity.
  - reflexivity.
  - discriminate.
  - reflexivity.
  - discriminate.
  - reflexivity.
  - exists x1. split; [exact Hrun |]. rewrite Hstore. reflexivity.
Defined.
